(** * cudpp_hash/debugging.cu: hash-function statistics and report reductions

    A shallow embedding of the debugging layer of the CUDPP cuckoo hash
    table ([src/cudpp_hash/debugging.cu]): the device kernel
    [take_hash_function_statistics], its host driver
    [TakeHashFunctionStatistics], the two report reductions
    [OutputRetrievalStatistics] and [OutputBuildStatistics], and the stash
    dump [PrintStashContents].

    Conventions.
    - A C [unsigned] is a [Z] in [[0, 2^32)]; arithmetic that can wrap is
      written with [u32].
    - An array is a [list]; an access outside it is undefined behaviour in
      C++ and is modelled as the fault [OutOfBounds].  [% 0] is the fault
      [DivideByZero].
    - A nullable output pointer is an [option]: [None] is [NULL], [Some b]
      is the pointed-to buffer.
    - Text is kept as written: [sprintf] is recorded as its format string
      (the C literal, escapes left as written) with its argument list, and
      [PrintMessage] as an output event.  The two texts that grow in a
      loop (lines 169-172 and 228-238) are measured in bytes against the
      capacity of their [char] array; writing past it is [OutOfBounds].
    - Those two texts grow by [sprintf(buffer, "%s...", buffer, ...)], a
      call that reads the array it writes.  The C standard leaves such a
      call undefined and the outcome is the C library's; what the library
      makes of the old text is a parameter, [reads], of the functions that
      contain the call.
    - The threads of a launch run one after another, each to completion,
      in the order given by a schedule.  Threads share state only through
      [atomicAdd], through cells that a single thread owns, and through
      the flag, which is only ever raised; the results about a launch hold
      for every order of the threads. *)

From Stdlib Require Import ZArith Lia Ascii.
From stdpp Require Import base option list list_numbers sorting gmap strings.

Local Open Scope Z_scope.

(** ** Machine integers *)

Definition u32 (z : Z) : Z := z mod 2 ^ 32.

Definition is_u32 (z : Z) : Prop := 0 ≤ z < 2 ^ 32.

(** ** Faults and the error monad *)

Inductive fault : Set :=
  | OutOfBounds
  | DivideByZero
  | NullPointer
  | SignedOverflow.

Inductive run (A : Type) : Type :=
  | Ok (a : A)
  | Fault (f : fault).
Arguments Ok {A} a.
Arguments Fault {A} f.

Global Instance run_ret : MRet run := λ A a, Ok a.
Global Instance run_bind : MBind run := λ A B k m,
  match m with
  | Ok a => k a
  | Fault f => Fault f
  end.

(** ** Arrays *)

(** [a[i]] as an rvalue. *)
Definition load {A} (a : list A) (i : Z) : run A :=
  if i <? 0 then Fault OutOfBounds
  else match a !! Z.to_nat i with
       | Some v => Ok v
       | None => Fault OutOfBounds
       end.

(** [a[i] = v]. *)
Definition store {A} (a : list A) (i : Z) (v : A) : run (list A) :=
  if (0 <=? i) && (i <? Z.of_nat (length a))
  then Ok (<[Z.to_nat i := v]> a)
  else Fault OutOfBounds.

(** [atomicAdd(a + i, v)]: one indivisible read-modify-write of an
    [unsigned] cell. *)
Definition atomicAdd (a : list Z) (i v : Z) : run (list Z) :=
  old ← load a i; store a i (u32 (old + v)).

(** [cudaMemcpy(dst, src, sizeof(T) * n, ...)] into a fresh buffer of [n]
    cells: the first [n] cells of [src]. *)
Definition cudaMemcpy {A} (src : list A) (n : Z) : run (list A) :=
  if (0 <=? n) && (n <=? Z.of_nat (length src))
  then Ok (take (Z.to_nat n) src)
  else Fault OutOfBounds.

(** ** Loops *)

(** [for (unsigned i = lo; i < hi; ++i) body], as [count] iterations
    starting at [i]. *)
Fixpoint for_loop {St} (count : nat) (i : Z) (body : Z → St → run St) (s : St)
  : run St :=
  match count with
  | O => Ok s
  | S count' => s' ← body i s; for_loop count' (i + 1) body s'
  end.

Definition for_range {St} (lo hi : Z) (body : Z → St → run St) (s : St)
  : run St :=
  for_loop (Z.to_nat (hi - lo)) lo body s.

Definition sumZ (l : list Z) : Z := foldr Z.add 0 l.

(** ** Text output *)

(** An argument of a [sprintf] conversion: [%u] of an unsigned value, or
    [%f] of the float quotient [(float)num / den], kept unevaluated. *)
Inductive arg : Set :=
  | U (z : Z)
  | FDiv (num den : Z).

(** One [sprintf] expansion: the format (without a leading [%s]) and the
    values of its conversions. *)
Record piece : Set := Piece { fmt : string; args : list arg }.

(** The content of a text buffer: the pieces written into it, in order. *)
Definition buffer : Set := list piece.

(** [PrintMessage(text)] or [PrintMessage(text, flag)]. *)
Record message : Set := PrintMessage { text : buffer; flag : option bool }.

(** [sprintf(buffer, fmt, args...)] with arguments other than [buffer]
    itself.  Every such call of the file prints fewer than a hundred bytes
    (its format has at most 34 characters and at most three conversions of
    32-bit values or of one [float]), less than the smallest text buffer
    of the file holds (256 bytes), so that it cannot write past the end. *)
Definition sprintf (f : string) (a : list arg) : buffer := [Piece f a].

(** The width of [%u]: the number of decimal digits of an unsigned value,
    at most ten for 32 bits. *)
Fixpoint digits (more : nat) (z : Z) : Z :=
  match more with
  | O => 1
  | S more' => if z <? 10 then 1 else 1 + digits more' (z / 10)
  end.

Definition decimal_width (z : Z) : Z := digits 9 z.

(** The bytes that one expansion prints, for a format whose conversions
    are all [%u], as they are in the texts that grow: one byte for every
    character of the format, an escape such as [\t] or [\n] counting as
    the one byte it stands for, and the digits of its argument for every
    [%u]. *)
Fixpoint rendered_size (f : string) (a : list arg) : Z :=
  match f with
  | EmptyString => 0
  | String c f' =>
      if Ascii.eqb c "092"%char then
        match f' with
        | EmptyString => 1
        | String _ f'' => 1 + rendered_size f'' a
        end
      else if Ascii.eqb c "%"%char then
        match f', a with
        | String "u"%char f'', U z :: a' =>
            decimal_width z + rendered_size f'' a'
        | _, _ => 1 + rendered_size f' a
        end
      else 1 + rendered_size f' a
  end.

(** [strlen(buffer)], for a text whose conversions are all [%u]. *)
Definition text_size (b : buffer) : Z :=
  sumZ ((λ p, rendered_size (fmt p) (args p)) <$> b).

(** What the [%s] conversion of [sprintf(buffer, "%s...", buffer, ...)]
    yields for the text that [buffer] holds when the call starts.  The
    conversion reads the array the call is writing, which the C standard
    leaves undefined; the two behaviours below are those of the GNU C
    library. *)
Definition self_read : Type := buffer → buffer.

(** The plain [sprintf]: the conversion copies the old text onto itself,
    so that the call appends. *)
Definition appending : self_read := λ b, b.

(** The fortified [sprintf] ([_FORTIFY_SOURCE]): the destination is emptied
    before the format is expanded, so that the conversion finds nothing. *)
Definition fortified : self_read := λ _, [].

(** [sprintf(buffer, "%s" fmt, buffer, args...)] into a [char] array of
    [capacity] bytes: what the library reads back, then the expansion of
    [fmt], then the terminating zero. *)
Definition sprintf_append (reads : self_read) (capacity : Z) (b : buffer)
    (f : string) (a : list arg) : run buffer :=
  let b' := reads b ++ [Piece f a] in
  if text_size b' <? capacity then Ok b' else Fault OutOfBounds.

(** ** The device kernel *)

Record uint2 : Set := { x : Z; y : Z }.

(** The three optional output buffers of the kernel. *)
Record device : Set := Device {
  num_slots_available : option (list Z);
  num_hashing_in : option (list Z);
  failed : option Z
}.

Section Kernel.
(** Declared in headers of the hash table that are not part of this
    file: the capacity of the per-thread slot buffer and the hash
    function proper. *)
Variable kMaxHashFunctions : Z.
Variable hash_function_inner : uint2 → Z → Z.

Variable keys : list Z.
Variable n_entries : Z.
Variable table_size : Z.
Variable constants : list uint2.
Variable num_functions : Z.

(** Body of the first loop (lines 37-43). *)
Definition locate (key : Z) (i : Z) (s : list Z * option (list Z))
  : run (list Z * option (list Z)) :=
  let '(locations, hashing_in) := s in
  c ← load constants i;
  if table_size =? 0 then Fault DivideByZero else
  locations ← store locations i (hash_function_inner c key mod table_size);
  match hashing_in with
  | None => Ok (locations, None)
  | Some counters =>
      slot ← load locations i;
      counters ← atomicAdd counters slot 1;
      Ok (locations, Some counters)
  end.

(** The inner loop (lines 49-54): does [locations[i]] equal an earlier
    entry?  [j] runs from its start for at most [count] iterations and
    stops at the first match. *)
Fixpoint matched_before (locations : list Z) (i : Z) (count : nat) (j : Z)
  : run bool :=
  match count with
  | O => Ok false
  | S count' =>
      li ← load locations i;
      lj ← load locations j;
      if li =? lj then Ok true
      else matched_before locations i count' (j + 1)
  end.

(** Body of the second loop (lines 47-58). *)
Definition count_slot (locations : list Z) (i : Z) (num_slots : Z) : run Z :=
  matched ← matched_before locations i (Z.to_nat i) 0;
  Ok (if matched : bool then num_slots else u32 (num_slots + 1)).

(** One thread of the kernel.  The per-thread buffer [locations] is
    uninitialised in the source; every cell is written before it is
    read, so its initial content is immaterial. *)
Definition take_hash_function_statistics_thread
    (thread_index : Z) (d : device) : run device :=
  if n_entries <=? thread_index then Ok d else
  key ← load keys thread_index;
  '(locations, hashing_in) ←
    for_range 0 num_functions (locate key)
      (replicate (Z.to_nat kMaxHashFunctions) 0, num_hashing_in d);
  num_slots ← for_range 1 num_functions (count_slot locations) 1;
  slots_available ←
    match num_slots_available d with
    | None => Ok None
    | Some a => a ← store a thread_index num_slots; Ok (Some a)
    end;
  Ok {| num_slots_available := slots_available;
        num_hashing_in := hashing_in;
        failed := match failed d with
                  | Some f => Some (if num_slots =? num_functions then f else 1)
                  | None => None
                  end |}.

(** A launch: the threads of the grid, in the order they happen to run. *)
Fixpoint take_hash_function_statistics (threads : list Z) (d : device)
  : run device :=
  match threads with
  | [] => Ok d
  | t :: threads' =>
      d' ← take_hash_function_statistics_thread t d;
      take_hash_function_statistics threads' d'
  end.

End Kernel.

(** ** Host side *)

(** Dereferencing a device pointer that may be [NULL]. *)
Definition deref {A} (p : option A) : run A :=
  match p with
  | Some a => Ok a
  | None => Fault NullPointer
  end.

(** [count++] on an [int]. *)
Definition incr_int (count : Z) : run Z :=
  if count <? 2 ^ 31 - 1 then Ok (count + 1) else Fault SignedOverflow.

(** [std::sort] on unsigned values: the ascending arrangement. *)
Definition std_sort (a : list Z) : list Z := merge_sort Z.le a.

(** The compile-time switches of [TakeHashFunctionStatistics]. *)
Record switches : Set := {
  COUNT_HOW_MANY_HASH_INTO_EACH_SLOT : bool;
  COUNT_HOW_MANY_HAVE_CYCLES : bool
}.

(** What a call of [TakeHashFunctionStatistics] leaves behind: the messages
    it printed and the value of its function-local [static const
    kHistogramSize], which is initialised by the first call that reaches
    its declaration and kept from then on. *)
Record statistics : Set := Statistics {
  printed : list message;
  kHistogramSize : option Z
}.

Section Host.
Variable reads : self_read.
Variable kMaxHashFunctions : Z.
Variable hash_function_inner : uint2 → Z → Z.

(** Lines 78-81. *)
Definition print_constant (constants : list uint2) (i : Z) (out : list message)
  : run (list message) :=
  c ← load constants i;
  Ok (out ++ [PrintMessage (sprintf "\t%10u, %10u" [U (x c); U (y c)]) None]).

(** The device buffers the host allocates before the launch (lines 83-94):
    the per-slot counters are zeroed, the per-key counts are left as
    allocated (every cell is overwritten by its thread), and no failure
    flag is allocated at all. *)
Definition host_buffers (sw : switches) (num_keys table_size : Z) : device :=
  {| num_slots_available :=
       if COUNT_HOW_MANY_HAVE_CYCLES sw
       then Some (replicate (Z.to_nat num_keys) 0) else None;
     num_hashing_in :=
       if COUNT_HOW_MANY_HASH_INTO_EACH_SLOT sw
       then Some (replicate (Z.to_nat table_size) 0) else None;
     failed := None |}.

(** The launch of lines 99-106, with [NULL] as the last argument. *)
Definition TakeHashFunctionStatistics_launch (sw : switches) (threads : list Z)
    (num_keys : Z) (d_keys : list Z) (table_size : Z)
    (constants : list uint2) (kNumHashFunctions : Z) : run device :=
  d_constants ← cudaMemcpy constants kNumHashFunctions;
  take_hash_function_statistics kMaxHashFunctions hash_function_inner
    d_keys num_keys table_size d_constants kNumHashFunctions threads
    (host_buffers sw num_keys table_size).

(** Body of the loop of lines 138-147. *)
Definition slot_load_run (num_hashing_in : list Z) (i : Z)
    (s : Z * Z * list message) : run (Z * Z * list message) :=
  let '(previous, count, out) := s in
  v ← load num_hashing_in i;
  if negb (v =? previous)
  then Ok (v, 1,
           out ++ [PrintMessage (sprintf "\t(%u, %u)" [U previous; U count])
                     None])
  else count ← incr_int count; Ok (previous, count, out).

(** Lines 109-153. *)
Definition slot_load_histogram (d_num_hashing_in : option (list Z))
    (table_size : Z) (out : list message) : run (list message) :=
  d_num_hashing_in ← deref d_num_hashing_in;
  num_hashing_in ← cudaMemcpy d_num_hashing_in table_size;
  let num_hashing_in := std_sort num_hashing_in in
  previous ← load num_hashing_in 0;
  let out :=
    out ++ [PrintMessage (sprintf "Num items hashing into a slot:\t" []) None] in
  '(previous, count, out) ←
    for_range 1 table_size (slot_load_run num_hashing_in) (previous, 1, out);
  Ok (out ++ [PrintMessage (sprintf "\t(%u, %u)" [U previous; U count]) None]).

(** Body of the loop of lines 165-167. *)
Definition tally (values : list Z) (i : Z) (histogram : list Z)
  : run (list Z) :=
  v ← load values i;
  old ← load histogram v;
  store histogram v (u32 (old + 1)).

(** Body of the loop of lines 170-172, with [char buffer[16000]]. *)
Definition print_bucket (histogram : list Z) (i : Z) (b : buffer)
  : run buffer :=
  c ← load histogram i;
  sprintf_append reads 16000 b "(%u, %u) " [U i; U c].

(** Lines 155-178. *)
Definition slots_per_key_histogram (d_num_slots_available : option (list Z))
    (num_keys kNumHashFunctions : Z) (static_kHistogramSize : option Z)
    (out : list message) : run statistics :=
  d_num_slots_available ← deref d_num_slots_available;
  num_slots_available ← cudaMemcpy d_num_slots_available num_keys;
  let kHistogramSize :=
    match static_kHistogramSize with
    | Some size => size
    | None => u32 (kNumHashFunctions + 1)
    end in
  let histogram := replicate (Z.to_nat kHistogramSize) 0 in
  histogram ← for_range 0 num_keys (tally num_slots_available) histogram;
  b ← for_range 1 kHistogramSize (print_bucket histogram)
        (sprintf "Slots assigned to each key: " []);
  Ok {| printed := out ++ [PrintMessage b None];
        kHistogramSize := Some kHistogramSize |}.

Definition TakeHashFunctionStatistics (sw : switches)
    (static_kHistogramSize : option Z) (threads : list Z)
    (num_keys : Z) (d_keys : list Z) (table_size : Z)
    (constants : list uint2) (kNumHashFunctions : Z) : run statistics :=
  let out := [PrintMessage (sprintf "Hash function constants: " []) None] in
  out ← for_range 0 kNumHashFunctions (print_constant constants) out;
  d ← TakeHashFunctionStatistics_launch sw threads num_keys d_keys table_size
        constants kNumHashFunctions;
  out ← (if COUNT_HOW_MANY_HASH_INTO_EACH_SLOT sw
         then slot_load_histogram (num_hashing_in d) table_size out
         else Ok out);
  if COUNT_HOW_MANY_HAVE_CYCLES sw
  then slots_per_key_histogram (num_slots_available d) num_keys
         kNumHashFunctions static_kHistogramSize out
  else Ok {| printed := out; kHistogramSize := static_kHistogramSize |}.

End Host.

(** Body of the loop of lines 204-207. *)
Definition print_probes (histogram : list Z) (i : Z) (out : list message)
  : run (list message) :=
  c ← load histogram i;
  Ok (out ++ [PrintMessage (sprintf "\t(%u, %u)" [U i; U c]) None]).

Definition OutputRetrievalStatistics (n_queries : Z)
    (d_retrieval_probes : list Z) (n_functions : Z) : run (list message) :=
  retrieval_probes ← cudaMemcpy d_retrieval_probes n_queries;
  let possible_probes := u32 (n_functions + 2) in
  let histogram := replicate (Z.to_nat possible_probes) 0 in
  histogram ← for_range 0 n_queries (tally retrieval_probes) histogram;
  let out := [PrintMessage (sprintf "Probes for retrieval: " []) None] in
  for_range 0 possible_probes (print_probes histogram) out.

(** Body of the loop of lines 220-223. *)
Definition accumulate (iterations_taken : list Z) (i : Z) (s : Z * Z)
  : run (Z * Z) :=
  let '(total_iterations, max_iterations_taken) := s in
  v ← load iterations_taken i;
  Ok (u32 (total_iterations + v), Z.max max_iterations_taken v).

(** Body of the loop of lines 229-237, with [char buffer[10000]]. *)
Definition iteration_run (reads : self_read) (iterations_taken : list Z)
    (i : Z) (s : Z * Z * buffer) : run (Z * Z * buffer) :=
  let '(current_value, count, b) := s in
  v ← load iterations_taken i;
  if negb (v =? current_value)
  then b ← sprintf_append reads 10000 b "\t(%u, %u)\n"
             [U current_value; U count];
       Ok (v, 1, b)
  else Ok (current_value, u32 (count + 1), b).

Definition OutputBuildStatistics (reads : self_read) (n : Z)
    (d_iterations_taken : list Z) : run (list message) :=
  iterations_taken ← cudaMemcpy d_iterations_taken n;
  let iterations_taken := std_sort iterations_taken in
  '(total_iterations, max_iterations_taken) ←
    for_range 0 n (accumulate iterations_taken) (0, 0);
  current_value ← load iterations_taken 0;
  '(current_value, count, b) ←
    for_range 1 n (iteration_run reads iterations_taken)
      (current_value, 1, sprintf "Iterations taken:\n" []);
  b ← sprintf_append reads 10000 b "\t(%u, %u)" [U current_value; U count];
  let out :=
    [PrintMessage b None;
     PrintMessage (sprintf "Total iterations: %u" [U total_iterations]) None] in
  median ← load iterations_taken (n / 2);
  last ← load iterations_taken (u32 (n - 1));
  Ok (out ++
      [PrintMessage
         (sprintf "Avg/Med/Max iterations: (%f %u %u)"
            [FDiv total_iterations n; U median; U last]) None;
       PrintMessage (sprintf "Max iterations: %u" [U max_iterations_taken])
         None]).

Section Stash.
(** Declared in headers of the hash table that are not part of this file:
    the entry encoding with its accessors, the vacant-key sentinel and the
    capacity of the stash. *)
Variable Entry : Type.
Variable get_key : Entry → Z.
Variable get_value : Entry → Z.
Variable kKeyEmpty : Z.
Variable kStashSize : Z.

(** Body of the loop of lines 255-261. *)
Definition print_entry (stash : list Entry) (i : Z) (out : list message)
  : run (list message) :=
  e ← load stash i;
  if negb (get_key e =? kKeyEmpty)
  then Ok (out ++ [PrintMessage
                     (sprintf "Stash[%u]: %u = %u"
                        [U i; U (get_key e); U (get_value e)]) (Some true)])
  else Ok out.

(** The device snapshot is passed through: the result carries it as it is
    after the call, next to the printed lines. *)
Definition PrintStashContents (d_stash : list Entry)
  : run (list Entry * list message) :=
  stash ← cudaMemcpy d_stash kStashSize;
  out ← for_range 0 kStashSize (print_entry stash) [];
  Ok (d_stash, out).

End Stash.

(** ** Reference notions

    The quantities the statements below are phrased in. *)

Section Reference.
Variable hash_function_inner : uint2 → Z → Z.
Variable table_size : Z.
Variable constants : list uint2.
Variable num_functions : Z.

(** The slots [hash(constants_i, key) mod table_size] of a key for [i] in
    [[0, num_functions)], in order. *)
Definition slot_sequence (key : Z) : list Z :=
  (λ c, hash_function_inner c key mod table_size)
    <$> take (Z.to_nat num_functions) constants.

(** The same as a set. *)
Definition candidate_slots (key : Z) : gset Z :=
  list_to_set (slot_sequence key).

Definition DistinctSlotCount (key : Z) : Z :=
  Z.of_nat (size (candidate_slots key)).

End Reference.

(** One increment of the 32-bit counter of a slot. *)
Definition bump (counters : list Z) (slot : Z) : list Z :=
  alter (λ v, u32 (v + 1)) (Z.to_nat slot) counters.

(** The threads of a schedule that own a key, each with its key, in the
    order they run. *)
Definition active (keys : list Z) (n_entries : Z) (threads : list Z)
  : list (Z * Z) :=
  omap (λ t, if bool_decide (0 ≤ t < n_entries)
             then (λ key, (t, key)) <$> keys !! Z.to_nat t
             else None) threads.

(** The output buffers are large enough for a launch over [n_entries] keys
    and [table_size] slots. *)
Definition fits (n_entries table_size : Z) (d : device) : Prop :=
  (∀ a, num_slots_available d = Some a → n_entries ≤ Z.of_nat (length a))
  ∧ (∀ c, num_hashing_in d = Some c → table_size ≤ Z.of_nat (length c)).

(** How often a value occurs in a sequence. *)
Definition occurrences (v : Z) (l : list Z) : Z :=
  Z.of_nat (length (filter (λ u, u = v) l)).

(** A histogram of a sequence: the values that occur in it, in strictly
    ascending order, each with the number of its occurrences. *)
Definition is_histogram (runs : list (Z * Z)) (l : list Z) : Prop :=
  StronglySorted Z.lt runs.*1
  ∧ ∀ v c, (v, c) ∈ runs ↔ v ∈ l ∧ c = occurrences v l.

(** The runs of equal elements that the loop of lines 229-237 goes
    through, without the text: the runs it has closed, each a value with
    its count, and the run that is open. *)
Definition count_run (iterations_taken : list Z) (i : Z)
    (s : Z * Z * list (Z * Z)) : run (Z * Z * list (Z * Z)) :=
  let '(current_value, count, closed) := s in
  v ← load iterations_taken i;
  if negb (v =? current_value)
  then Ok (v, 1, closed ++ [(current_value, count)])
  else Ok (current_value, u32 (count + 1), closed).

(** The histogram text of [OutputBuildStatistics] before its last line,
    when each call appends: the header and one line for every closed
    run. *)
Definition iterations_text (closed : list (Z * Z)) : buffer :=
  Piece "Iterations taken:\n" []
  :: ((λ r : Z * Z, Piece "\t(%u, %u)\n" [U r.1; U r.2]) <$> closed).

(** The bytes of the histogram text of [OutputBuildStatistics] when each
    call appends: the header, and for every value of the sequence one line
    with the value and the number of its occurrences, each line ended by a
    newline except the last. *)
Definition build_text_size (l : list Z) : Z :=
  text_size (sprintf "Iterations taken:\n" [])
  + sumZ ((λ v, text_size (sprintf "\t(%u, %u)\n"
                             [U v; U (occurrences v l)]))
            <$> remove_dups l)
  - 1.

(** The per-key histogram text of [TakeHashFunctionStatistics] when each
    call appends: the header and one bucket for every value of
    [[1, buckets]], with the number of its occurrences among the counts. *)
Definition key_histogram_text (values : list Z) (buckets : Z) : buffer :=
  Piece "Slots assigned to each key: " []
  :: ((λ v, Piece "(%u, %u) " [U v; U (occurrences v values)])
        <$> seqZ 1 buckets).

(** The threads of a grid of [size] threads, in index order. *)
Definition grid (size : Z) : list Z := seqZ 0 size.

(** ** Sample inputs

    A hash function and constants that realise the slots of the first
    scenario of the specification: with ten slots and two functions the
    keys 5, 15 and 25 get the slot sequences [1, 1], [1, 3] and [3, 3]. *)

Definition scenario_hash (c : uint2) (key : Z) : Z :=
  1 + 2 * Z.min 1 (key / x c).

Definition scenario_constants : list uint2 :=
  [ {| x := 20; y := 0 |}; {| x := 10; y := 0 |} ].

Definition scenario_keys : list Z := [5; 15; 25].

(** * Properties *)

(** ** Arrays and loops *)

Lemma u32_small z : 0 ≤ z < 2 ^ 32 → u32 z = z.
Proof. intros. unfold u32. by apply Z.mod_small. Qed.

Lemma u32_range z : 0 ≤ u32 z < 2 ^ 32.
Proof. unfold u32. apply Z.mod_pos_bound. lia. Qed.

Lemma load_Ok {A} (a : list A) i v :
  0 ≤ i → a !! Z.to_nat i = Some v → load a i = Ok v.
Proof.
  intros Hi Hv. unfold load.
  destruct (Z.ltb_spec i 0); [lia|]. by rewrite Hv.
Qed.

Lemma load_total {A} (a : list A) i :
  0 ≤ i < Z.of_nat (length a) → ∃ v, load a i = Ok v ∧ a !! Z.to_nat i = Some v.
Proof.
  intros Hi. destruct (lookup_lt_is_Some_2 a (Z.to_nat i)) as [v Hv]; [lia|].
  exists v. split; [apply load_Ok; [lia|done]|done].
Qed.

Lemma store_Ok {A} (a : list A) i v :
  0 ≤ i < Z.of_nat (length a) → store a i v = Ok (<[Z.to_nat i := v]> a).
Proof.
  intros Hi. unfold store.
  destruct (Z.leb_spec 0 i); [|lia].
  destruct (Z.ltb_spec i (Z.of_nat (length a))); [done|lia].
Qed.

Lemma cudaMemcpy_all {A} (src : list A) n :
  n = Z.of_nat (length src) → cudaMemcpy src n = Ok src.
Proof.
  intros ->. unfold cudaMemcpy.
  destruct (Z.leb_spec 0 (Z.of_nat (length src))); [|lia].
  destruct (Z.leb_spec (Z.of_nat (length src)) (Z.of_nat (length src))); [|lia].
  simpl. by rewrite Nat2Z.id, firstn_all.
Qed.

Lemma for_loop_S {St} (body : Z → St → run St) steps i s :
  for_loop (S steps) i body s
  = s' ← body i s; for_loop steps (i + 1) body s'.
Proof. reflexivity. Qed.

(** The invariant rule for [for_loop], for total correctness: an invariant
    that every iteration re-establishes without faulting holds at exit. *)
Lemma for_loop_inv {St} (P : Z → St → Prop) (body : Z → St → run St) count i s :
  P i s →
  (∀ j t, i ≤ j < i + Z.of_nat count → P j t →
          ∃ t', body j t = Ok t' ∧ P (j + 1) t') →
  ∃ s', for_loop count i body s = Ok s' ∧ P (i + Z.of_nat count) s'.
Proof.
  revert i s. induction count as [|count IH]; intros i s Hs Hstep.
  - exists s. split; [done|]. replace (i + Z.of_nat 0) with i by lia. done.
  - destruct (Hstep i s) as (t & Hbody & Ht); [lia|done|].
    destruct (IH (i + 1) t) as (s' & Hrun & Hs'); [done| |].
    + intros j u Hj Hu. apply Hstep; [lia|done].
    + exists s'. split.
      * simpl. by rewrite Hbody.
      * replace (i + Z.of_nat (S count)) with (i + 1 + Z.of_nat count) by lia.
        done.
Qed.

Lemma for_range_inv {St} (P : Z → St → Prop) (body : Z → St → run St) lo hi s :
  lo ≤ hi → P lo s →
  (∀ j t, lo ≤ j < hi → P j t → ∃ t', body j t = Ok t' ∧ P (j + 1) t') →
  ∃ s', for_range lo hi body s = Ok s' ∧ P hi s'.
Proof.
  intros Hle Hs Hstep. unfold for_range.
  destruct (for_loop_inv P body (Z.to_nat (hi - lo)) lo s) as (s' & Hrun & Hs');
    [done| |].
  - intros j t Hj. apply Hstep. lia.
  - exists s'. split; [done|].
    assert (lo + Z.of_nat (Z.to_nat (hi - lo)) = hi) as E by lia.
    by rewrite E in Hs'.
Qed.

Lemma for_range_empty {St} (body : Z → St → run St) lo hi s :
  hi ≤ lo → for_range lo hi body s = Ok s.
Proof.
  intros Hle. unfold for_range.
  replace (Z.to_nat (hi - lo)) with 0%nat by lia. done.
Qed.

(** ** Counting *)

Lemma sumZ_cons a l : sumZ (a :: l) = a + sumZ l.
Proof. reflexivity. Qed.

Lemma occurrences_nil v : occurrences v [] = 0.
Proof. reflexivity. Qed.

Lemma occurrences_cons v a l :
  occurrences v (a :: l)
  = (if bool_decide (a = v) then 1 else 0) + occurrences v l.
Proof.
  unfold occurrences. rewrite filter_cons.
  case_decide; case_bool_decide; simpl; (done || lia).
Qed.

Lemma occurrences_app v l k :
  occurrences v (l ++ k) = occurrences v l + occurrences v k.
Proof. unfold occurrences. rewrite filter_app, length_app. lia. Qed.

Lemma occurrences_bounds v l : 0 ≤ occurrences v l ≤ Z.of_nat (length l).
Proof.
  unfold occurrences. pose proof (length_filter (λ u, u = v) l). lia.
Qed.

(** Over a duplicate-free range, the indicator of a value sums to one if
    the value is in the range and to zero otherwise. *)
Lemma occurrences_not_elem v (l : list Z) : v ∉ l → occurrences v l = 0.
Proof.
  intros Hv. unfold occurrences.
  induction l as [|a l IH]; [done|].
  apply not_elem_of_cons in Hv as [Hne Hv].
  rewrite filter_cons_False by congruence. by apply IH.
Qed.

Lemma sumZ_indicator a (range : list Z) :
  NoDup range →
  sumZ ((λ v, if bool_decide (a = v) then 1 else 0) <$> range)
  = if bool_decide (a ∈ range) then 1 else 0.
Proof.
  induction 1 as [|v range Hv _ IH]; [done|].
  rewrite fmap_cons, sumZ_cons, IH.
  destruct (decide (a = v)) as [->|Hne].
  - rewrite bool_decide_eq_true_2 by done.
    rewrite (bool_decide_eq_false_2 (v ∈ range)) by done.
    rewrite bool_decide_eq_true_2; [done|left].
  - rewrite bool_decide_eq_false_2 by done.
    apply (f_equal (λ b : bool, if b then 1 else 0)), bool_decide_ext.
    rewrite elem_of_cons. tauto.
Qed.

Lemma sumZ_fmap_add {A} (f g : A → Z) (l : list A) :
  sumZ ((λ v, f v + g v) <$> l) = sumZ (f <$> l) + sumZ (g <$> l).
Proof.
  induction l as [|a l IH]; [done|].
  rewrite !fmap_cons, !sumZ_cons, IH. lia.
Qed.

(** The buckets of a range that covers every value of a sequence add up to
    the length of the sequence. *)
Lemma sumZ_occurrences (range l : list Z) :
  NoDup range → (∀ a, a ∈ l → a ∈ range) →
  sumZ ((λ v, occurrences v l) <$> range) = Z.of_nat (length l).
Proof.
  intros Hnodup. induction l as [|a l IH]; intros Hcover.
  - clear. induction range as [|v range IHr]; [done|].
    by rewrite fmap_cons, sumZ_cons, IHr.
  - erewrite (list_fmap_ext _ (λ v, _ + occurrences v l)).
    2:{ intros _ v _. apply occurrences_cons. }
    rewrite (sumZ_fmap_add (λ v, if bool_decide (a = v) then 1 else 0)).
    rewrite sumZ_indicator by done. rewrite IH.
    + rewrite bool_decide_eq_true_2; [simpl; lia|]. apply Hcover. left.
    + intros b Hb. apply Hcover. by right.
Qed.

(** ** Text sizes *)

Lemma sumZ_app (l k : list Z) : sumZ (l ++ k) = sumZ l + sumZ k.
Proof.
  induction l as [|a l IH]; [unfold sumZ; simpl; lia|].
  rewrite <- app_comm_cons, !sumZ_cons, IH. lia.
Qed.

Lemma digits_bounds more z : 1 ≤ digits more z ≤ Z.of_nat more + 1.
Proof.
  revert z. induction more as [|more IH]; intros z; [simpl; lia|].
  cbn [digits]. destruct (z <? 10); [lia|]. specialize (IH (z / 10)). lia.
Qed.

Lemma decimal_width_bounds z : 1 ≤ decimal_width z ≤ 10.
Proof. unfold decimal_width. pose proof (digits_bounds 9 z). lia. Qed.

Lemma rendered_size_nonneg_below (n : nat) f a :
  (String.length f ≤ n)%nat → 0 ≤ rendered_size f a.
Proof.
  revert f a. induction n as [|n IH]; intros f a Hlen.
  { destruct f; [done|]. simpl in Hlen. lia. }
  destruct f as [|c f]; [done|]. simpl in Hlen. cbn [rendered_size].
  assert (∀ a', 0 ≤ rendered_size f a') as Htail.
  { intros a'. apply IH. lia. }
  destruct (Ascii.eqb c "092").
  { destruct f as [|d f]; [lia|].
    assert (0 ≤ rendered_size f a) by (apply IH; simpl in Hlen; lia). lia. }
  destruct (Ascii.eqb c "%"); [|specialize (Htail a); lia].
  destruct f as [|d f]; [done|].
  assert (∀ a', 0 ≤ rendered_size f a') as Hrest.
  { intros a'. apply IH. simpl in Hlen. lia. }
  specialize (Htail a). revert Htail.
  generalize (rendered_size (String d f) a). intros r Hr.
  repeat case_match; try lia.
  match goal with
  | |- 0 ≤ decimal_width ?z + rendered_size f ?a' =>
      pose proof (decimal_width_bounds z); pose proof (Hrest a'); lia
  end.
Qed.

Lemma rendered_size_nonneg f a : 0 ≤ rendered_size f a.
Proof. by apply (rendered_size_nonneg_below (String.length f)). Qed.

Lemma text_size_app (b1 b2 : buffer) :
  text_size (b1 ++ b2) = text_size b1 + text_size b2.
Proof. unfold text_size. by rewrite fmap_app, sumZ_app. Qed.

Lemma text_size_nonneg (b : buffer) : 0 ≤ text_size b.
Proof.
  unfold text_size. induction b as [|p b IH]; [done|].
  rewrite fmap_cons, sumZ_cons. pose proof (rendered_size_nonneg (fmt p) (args p)).
  lia.
Qed.

(** The sizes of the lines of the two texts that grow. *)
Lemma iteration_line_size v c :
  text_size [Piece "\t(%u, %u)\n" [U v; U c]]
  = 6 + decimal_width v + decimal_width c.
Proof. unfold text_size, sumZ. simpl. lia. Qed.

Lemma iteration_last_line_size v c :
  text_size [Piece "\t(%u, %u)" [U v; U c]]
  = 5 + decimal_width v + decimal_width c.
Proof. unfold text_size, sumZ. simpl. lia. Qed.

Lemma sprintf_append_fits reads capacity b f a :
  text_size (reads b) + text_size [Piece f a] < capacity →
  sprintf_append reads capacity b f a = Ok (reads b ++ [Piece f a]).
Proof.
  intros Hfits. unfold sprintf_append. rewrite text_size_app.
  by destruct (Z.ltb_spec (text_size (reads b) + text_size [Piece f a])
                 capacity); [|lia].
Qed.

Lemma sprintf_append_overrun reads capacity b f a :
  capacity ≤ text_size (reads b) + text_size [Piece f a] →
  sprintf_append reads capacity b f a = Fault OutOfBounds.
Proof.
  intros Hfits. unfold sprintf_append. rewrite text_size_app.
  by destruct (Z.ltb_spec (text_size (reads b) + text_size [Piece f a])
                 capacity); [lia|].
Qed.

(** ** Schedules *)

Lemma omap_all_None {A B} (f : A → option B) (l : list A) :
  (∀ a, a ∈ l → f a = None) → omap f l = [].
Proof.
  induction l as [|a l IH]; intros Hf; [done|].
  simpl. rewrite Hf by left. apply IH. intros b Hb. apply Hf. by right.
Qed.

Lemma length_omap_all_Some {A B} (f : A → option B) (l : list A) :
  (∀ a, a ∈ l → is_Some (f a)) → length (omap f l) = length l.
Proof.
  induction l as [|a l IH]; intros Hf; [done|].
  simpl. destruct (Hf a) as [b ->]; [left|].
  simpl. f_equal. apply IH. intros c Hc. apply Hf. by right.
Qed.

Lemma elem_of_active keys n threads t key :
  (t, key) ∈ active keys n threads
  ↔ t ∈ threads ∧ 0 ≤ t < n ∧ keys !! Z.to_nat t = Some key.
Proof.
  unfold active. rewrite list_elem_of_omap. split.
  - intros (u & Hu & Hf). case_bool_decide; [|done].
    destruct (keys !! Z.to_nat u) eqn:Hk; simplify_eq/=. done.
  - intros (Ht & Hn & Hk). exists t. split; [done|].
    rewrite bool_decide_eq_true_2 by done. by rewrite Hk.
Qed.

(** Every key is processed exactly once when the schedule is an arrangement
    of a grid that covers the keys. *)
Lemma length_active keys n threads size :
  threads ≡ₚ grid size → 0 ≤ n ≤ size → n ≤ Z.of_nat (length keys) →
  Z.of_nat (length (active keys n threads)) = n.
Proof.
  intros Hperm Hn Hkeys. unfold active. rewrite Hperm. unfold grid.
  replace size with (n + (size - n)) by lia.
  rewrite seqZ_app by lia. rewrite omap_app, length_app.
  rewrite length_omap_all_Some.
  - rewrite (omap_all_None _ (seqZ _ _)); [rewrite length_seqZ; simpl; lia|].
    intros t Ht%elem_of_seqZ. rewrite bool_decide_eq_false_2; [done|lia].
  - intros t Ht%elem_of_seqZ. rewrite bool_decide_eq_true_2 by lia.
    destruct (lookup_lt_is_Some_2 keys (Z.to_nat t)) as [k ->]; [lia|]. by eexists.
Qed.

Lemma grid_nonneg threads size :
  threads ≡ₚ grid size → Forall (λ t, 0 ≤ t) threads.
Proof.
  intros Hperm. apply Forall_forall. intros t Ht. rewrite Hperm in Ht.
  apply elem_of_seqZ in Ht. lia.
Qed.

Lemma forallb_false {A} (f : A → bool) (l : list A) :
  forallb f l = false → ∃ a, a ∈ l ∧ f a = false.
Proof.
  induction l as [|a l IH]; [done|]. simpl.
  destruct (f a) eqn:Hfa; simpl.
  - intros (b & Hb & Hfb)%IH. exists b. split; [by right|done].
  - intros _. exists a. split; [left|done].
Qed.

Lemma length_bind_const {A B} (f : A → list B) (l : list A) (k : nat) :
  (∀ a, a ∈ l → length (f a) = k) → length (l ≫= f) = (k * length l)%nat.
Proof.
  induction l as [|a l IH]; intros Hf; [simpl; lia|].
  rewrite bind_cons, length_app, Hf by left. rewrite IH.
  - simpl. lia.
  - intros b Hb. apply Hf. by right.
Qed.

(** ** Counters *)

Lemma lookup_bump (counters : list Z) slot (j : nat) :
  0 ≤ slot →
  bump counters slot !! j
  = (λ v, if bool_decide (slot = Z.of_nat j) then u32 (v + 1) else v)
      <$> counters !! j.
Proof.
  intros Hslot. unfold bump.
  destruct (decide (Z.to_nat slot = j)) as [<-|Hne].
  - rewrite list_lookup_alter_eq. rewrite bool_decide_eq_true_2 by lia. done.
  - rewrite list_lookup_alter_ne by done.
    rewrite bool_decide_eq_false_2 by lia. by destruct (counters !! j).
Qed.

Lemma bump_unsigned (counters : list Z) slot :
  Forall is_u32 counters → Forall is_u32 (bump counters slot).
Proof.
  intros Hc. unfold bump. apply Forall_lookup. intros j v.
  destruct (decide (Z.to_nat slot = j)) as [<-|Hne].
  - rewrite list_lookup_alter_eq. destruct (counters !! _); [|done].
    intros [= <-]. apply u32_range.
  - rewrite list_lookup_alter_ne by done. by apply Forall_lookup.
Qed.

(** After any sequence of increments, a cell holds its initial value plus
    the number of increments it received, modulo [2^32]. *)
Lemma lookup_foldl_bump (slots counters : list Z) (j : nat) :
  Forall (λ s, 0 ≤ s) slots → Forall is_u32 counters →
  foldl bump counters slots !! j
  = (λ v, u32 (v + occurrences (Z.of_nat j) slots)) <$> counters !! j.
Proof.
  intros Hslots. revert counters.
  induction Hslots as [|s slots Hs Hslots IH]; intros counters Hc.
  - simpl. destruct (counters !! j) as [v|] eqn:Hv; [|done]. simpl.
    rewrite occurrences_nil, Z.add_0_r, u32_small; [done|].
    by apply (Forall_lookup_1 _ _ _ _ Hc Hv).
  - simpl. rewrite IH, lookup_bump by (done || by apply bump_unsigned).
    destruct (counters !! j) as [v|]; [|done]. simpl. f_equal.
    rewrite occurrences_cons. case_bool_decide.
    + unfold u32. rewrite Zplus_mod_idemp_l. f_equal. lia.
    + done.
Qed.

(** Counters that start at zero end as the tallies of the slots, each
    modulo [2^32]. *)
Lemma foldl_bump_zero (slots : list Z) size :
  0 ≤ size → Forall (λ s, 0 ≤ s) slots →
  foldl bump (replicate (Z.to_nat size) 0) slots
  = (λ j, u32 (occurrences j slots)) <$> seqZ 0 size.
Proof.
  intros Hsize Hslots. apply list_eq. intros j.
  rewrite lookup_foldl_bump; [|done|].
  2:{ apply Forall_replicate. unfold is_u32. lia. }
  rewrite list_lookup_fmap.
  destruct (decide (Z.of_nat j < size)) as [Hj|Hj].
  - rewrite lookup_replicate_2 by lia. by rewrite lookup_seqZ_lt.
  - assert (replicate (Z.to_nat size) 0 !! j = None) as ->.
    { apply lookup_replicate_None. lia. }
    rewrite lookup_seqZ_ge by lia. done.
Qed.

(** ** The kernel, one thread *)

Lemma atomicAdd_bump (counters : list Z) slot :
  0 ≤ slot < Z.of_nat (length counters) →
  atomicAdd counters slot 1 = Ok (bump counters slot).
Proof.
  intros Hs. unfold atomicAdd.
  destruct (load_total counters slot Hs) as (old & -> & Hold). simpl.
  rewrite store_Ok by done. f_equal. unfold bump.
  apply list_eq. intros i. destruct (decide (i = Z.to_nat slot)) as [->|Hne].
  - rewrite list_lookup_insert_eq by lia.
    by rewrite list_lookup_alter_eq, Hold.
  - by rewrite list_lookup_insert_ne, list_lookup_alter_ne.
Qed.

Lemma length_bump counters slot : length (bump counters slot) = length counters.
Proof. apply length_alter. Qed.

Lemma length_foldl_bump slots counters :
  length (foldl bump counters slots) = length counters.
Proof.
  revert counters. induction slots as [|s slots IH]; intros counters; [done|].
  simpl. by rewrite IH, length_bump.
Qed.

Lemma take_succ_insert {A} (l : list A) (j : nat) v :
  (j < length l)%nat → take (S j) (<[j := v]> l) = take j l ++ [v].
Proof.
  intros Hj. rewrite (take_S_r _ _ v).
  - by rewrite take_insert_ge.
  - by apply list_lookup_insert_eq.
Qed.

Lemma size_list_to_set_le (l : list Z) :
  (size (list_to_set l : gset Z) ≤ length l)%nat.
Proof.
  induction l as [|a l IH].
  - rewrite list_to_set_nil, size_empty. simpl. lia.
  - rewrite list_to_set_cons, size_union_alt, size_singleton. simpl.
    pose proof (subseteq_size (list_to_set l ∖ {[a]}) (list_to_set l : gset Z)
                  (subseteq_difference_l _ _ _ (reflexivity _))).
    lia.
Qed.

Section KernelFacts.
Variable kMaxHashFunctions : Z.
Variable hash_function_inner : uint2 → Z → Z.
Variable keys : list Z.
Variable n_entries : Z.
Variable table_size : Z.
Variable constants : list uint2.
Variable num_functions : Z.

Hypothesis table_nonempty : 1 ≤ table_size.
Hypothesis functions_fit : 0 ≤ num_functions ≤ kMaxHashFunctions.
Hypothesis functions_unsigned : num_functions < 2 ^ 32.
Hypothesis constants_given : num_functions ≤ Z.of_nat (length constants).

Local Abbreviation slots := (slot_sequence hash_function_inner table_size constants
                           num_functions).
Local Abbreviation distinct := (DistinctSlotCount hash_function_inner table_size
                              constants num_functions).
Local Abbreviation thread := (take_hash_function_statistics_thread
                            kMaxHashFunctions hash_function_inner keys
                            n_entries table_size constants num_functions).
Local Abbreviation kernel := (take_hash_function_statistics
                            kMaxHashFunctions hash_function_inner keys
                            n_entries table_size constants num_functions).

Lemma length_slots key : Z.of_nat (length (slots key)) = num_functions.
Proof.
  unfold slot_sequence. rewrite length_fmap, length_take. lia.
Qed.

Lemma slots_range key s : s ∈ slots key → 0 ≤ s < table_size.
Proof.
  unfold slot_sequence. intros (c & -> & _)%list_elem_of_fmap.
  apply Z.mod_pos_bound. lia.
Qed.

(** The first loop fills [locations] with the slot sequence and bumps the
    counter of each slot in turn. *)
Lemma locate_loop key (counters : option (list Z)) :
  (∀ c, counters = Some c → table_size ≤ Z.of_nat (length c)) →
  ∃ locations,
    for_range 0 num_functions (locate hash_function_inner table_size constants key)
      (replicate (Z.to_nat kMaxHashFunctions) 0, counters)
    = Ok (locations, (λ c, foldl bump c (slots key)) <$> counters)
    ∧ take (Z.to_nat num_functions) locations = slots key.
Proof.
  intros Hlen.
  set (P := λ (j : Z) (s : list Z * option (list Z)),
         length s.1 = Z.to_nat kMaxHashFunctions
         ∧ take (Z.to_nat j) s.1 = take (Z.to_nat j) (slots key)
         ∧ s.2 = (λ c, foldl bump c (take (Z.to_nat j) (slots key))) <$> counters).
  destruct (for_range_inv P
              (locate hash_function_inner table_size constants key)
              0 num_functions
              (replicate (Z.to_nat kMaxHashFunctions) 0, counters))
    as ([locations final] & Hrun & Hlocs & Htake & Hfinal);
    [lia| | |].
  - split; [apply length_replicate|]. split; [done|].
    simpl. by destruct counters.
  - intros j [locs cnt] Hj (Hl & Ht & Hc). simpl in Hl, Ht, Hc.
    assert (∃ c, constants !! Z.to_nat j = Some c) as [c Hcj].
    { apply lookup_lt_is_Some_2. lia. }
    assert (slots key !! Z.to_nat j
            = Some (hash_function_inner c key mod table_size)) as Hsj.
    { unfold slot_sequence. rewrite list_lookup_fmap.
      rewrite lookup_take_lt by lia. by rewrite Hcj. }
    assert (0 ≤ hash_function_inner c key mod table_size < table_size) as Hslot.
    { apply Z.mod_pos_bound. lia. }
    unfold locate. rewrite (load_Ok _ _ c) by (done || lia). simpl.
    destruct (Z.eqb_spec table_size 0) as [?|_]; [lia|].
    rewrite store_Ok by lia. simpl.
    assert (Z.to_nat (j + 1) = S (Z.to_nat j)) as Hj1 by lia.
    assert (take (S (Z.to_nat j))
              (<[Z.to_nat j := hash_function_inner c key mod table_size]> locs)
            = take (S (Z.to_nat j)) (slots key)) as Ht'.
    { rewrite take_succ_insert by lia. rewrite Ht. symmetry.
      by apply take_S_r. }
    destruct cnt as [cs|]; destruct counters as [c0|]; simplify_eq/=.
    + rewrite (load_Ok _ _ (hash_function_inner c key mod table_size));
        [|lia|apply list_lookup_insert_eq; lia].
      simpl. rewrite atomicAdd_bump.
      2:{ rewrite length_foldl_bump. specialize (Hlen c0 eq_refl). lia. }
      simpl. eexists. split; [reflexivity|]. split_and!; simpl; rewrite ?Hj1.
      * by rewrite length_insert.
      * done.
      * rewrite (take_S_r _ _ _ Hsj). by rewrite foldl_app.
    + eexists. split; [reflexivity|]. split_and!; simpl; rewrite ?Hj1;
        [|done..].
      by rewrite length_insert.
  - simpl in *. exists locations. split.
    + rewrite Hrun. f_equal. f_equal. rewrite Hfinal.
      rewrite take_ge; [done|]. pose proof (length_slots key). lia.
    + rewrite Htake. apply take_ge. pose proof (length_slots key). lia.
Qed.

(** The inner loop decides membership among the entries it scans. *)
Lemma matched_before_spec (locations : list Z) i li count j :
  0 ≤ i → locations !! Z.to_nat i = Some li → 0 ≤ j →
  (Z.to_nat j + count ≤ length locations)%nat →
  matched_before locations i count j
  = Ok (bool_decide (li ∈ take count (drop (Z.to_nat j) locations))).
Proof.
  intros Hi Hli. revert j. induction count as [|count IH]; intros j Hj Hlen.
  - reflexivity.
  - destruct (lookup_lt_is_Some_2 locations (Z.to_nat j)) as [lj Hlj]; [lia|].
    simpl. rewrite (load_Ok locations i li) by done. simpl.
    rewrite (load_Ok locations j lj) by done. simpl.
    rewrite (drop_S _ lj) by done. simpl.
    destruct (Z.eqb_spec li lj) as [->|Hne].
    + rewrite bool_decide_eq_true_2; [done|]. apply list_elem_of_here.
    + rewrite IH by lia. f_equal.
      replace (Z.to_nat (j + 1)) with (S (Z.to_nat j)) by lia.
      apply bool_decide_ext. rewrite elem_of_cons. tauto.
Qed.

(** The second loop counts the distinct values among the first
    [num_functions] entries of [locations]. *)
Lemma count_loop (locations : list Z) :
  1 ≤ num_functions →
  num_functions ≤ Z.of_nat (length locations) →
  for_range 1 num_functions (count_slot locations) 1
  = Ok (Z.of_nat (size (list_to_set (take (Z.to_nat num_functions) locations)
                          : gset Z))).
Proof.
  intros Hone Hlen.
  set (Q := λ (i n : Z),
         n = Z.of_nat (size (list_to_set (take (Z.to_nat i) locations) : gset Z))
         ∧ 1 ≤ n ≤ i).
  destruct (for_range_inv Q (count_slot locations) 1 num_functions 1)
    as (n & Hrun & Hn & _); [done| | |].
  - destruct locations as [|l0 locations]; [simpl in Hlen; lia|].
    split; [|lia]. change (Z.to_nat 1) with 1%nat. cbn [take firstn].
    rewrite list_to_set_cons, take_0, list_to_set_nil, (right_id_L ∅ (∪)).
    by rewrite size_singleton.
  - intros i n Hi [Hn Hbound].
    destruct (lookup_lt_is_Some_2 locations (Z.to_nat i)) as [li Hli]; [lia|].
    unfold count_slot.
    rewrite (matched_before_spec _ _ li) by (done || lia). simpl.
    eexists. split; [reflexivity|]. unfold Q.
    replace (Z.to_nat (i + 1)) with (S (Z.to_nat i)) by lia.
    rewrite (take_S_r _ _ li) by done. rewrite list_to_set_snoc_L.
    change (Z.to_nat 0) with 0%nat. rewrite drop_0.
    case_bool_decide as Hin.
    + rewrite (comm_L (∪)), subseteq_union_1_L; [lia|].
      by apply singleton_subseteq_l, elem_of_list_to_set.
    + rewrite size_union.
      * rewrite size_singleton. rewrite u32_small by lia. lia.
      * apply disjoint_singleton_r. by rewrite elem_of_list_to_set.
  - by rewrite Hrun, Hn.
Qed.

Lemma DistinctSlotCount_bounds key :
  1 ≤ num_functions → 1 ≤ distinct key ≤ num_functions.
Proof.
  intros Hone. unfold DistinctSlotCount, candidate_slots.
  pose proof (length_slots key) as Hlen. split.
  - destruct (slots key) as [|s l] eqn:Hs; [simpl in Hlen; lia|].
    assert (size (list_to_set (s :: l) : gset Z) ≠ 0%nat); [|lia].
    apply size_non_empty_iff. intros Hempty.
    apply (not_elem_of_empty (C := gset Z) s). rewrite <- Hempty.
    apply elem_of_list_to_set, list_elem_of_here.
  - pose proof (size_list_to_set_le (slots key)). lia.
Qed.

(** What one thread does to the device buffers: it stores the number of
    distinct slots of its key, bumps the counter of each slot of the key's
    sequence, and raises the flag when the count differs from
    [num_functions]. *)
Lemma thread_spec ti (d : device) key :
  0 ≤ ti < n_entries →
  keys !! Z.to_nat ti = Some key →
  (∀ a, num_slots_available d = Some a → ti < Z.of_nat (length a)) →
  (∀ c, num_hashing_in d = Some c → table_size ≤ Z.of_nat (length c)) →
  thread ti d
  = Ok {| num_slots_available :=
            (λ a, <[Z.to_nat ti := Z.max 1 (distinct key)]> a)
              <$> num_slots_available d;
          num_hashing_in :=
            (λ c, foldl bump c (slots key)) <$> num_hashing_in d;
          failed :=
            (λ f, if Z.max 1 (distinct key) =? num_functions then f else 1)
              <$> failed d |}.
Proof.
  intros Hti Hkey Hslots Hcounters. unfold take_hash_function_statistics_thread.
  destruct (Z.leb_spec n_entries ti) as [?|_]; [lia|].
  rewrite (load_Ok keys ti key) by (done || lia). simpl.
  destruct (locate_loop key (num_hashing_in d) Hcounters)
    as (locations & -> & Htake). simpl.
  assert (for_range 1 num_functions (count_slot locations) 1
          = Ok (Z.max 1 (distinct key))) as ->.
  { destruct (Z.le_gt_cases 1 num_functions) as [Hone|Hzero].
    - pose proof (DistinctSlotCount_bounds key Hone).
      rewrite count_loop; [|done|].
      + rewrite Htake. f_equal. fold (candidate_slots hash_function_inner
          table_size constants num_functions key). fold (distinct key). lia.
      + pose proof (length_slots key) as Hlen. rewrite <- Htake in Hlen.
        rewrite length_take in Hlen. lia.
    - rewrite for_range_empty by lia. f_equal.
      unfold DistinctSlotCount, candidate_slots, slot_sequence.
      replace (Z.to_nat num_functions) with 0%nat by lia.
      rewrite take_0. rewrite fmap_nil, list_to_set_nil, size_empty. lia. }
  simpl. destruct (num_slots_available d) as [a|] eqn:Ha; simpl.
  - rewrite store_Ok by (specialize (Hslots a eq_refl); lia). simpl.
    by destruct (failed d).
  - by destruct (failed d).
Qed.

(** A thread beyond the last key returns at once. *)
Lemma thread_idle ti (d : device) : n_entries ≤ ti → thread ti d = Ok d.
Proof.
  intros Hti. unfold take_hash_function_statistics_thread.
  by destruct (Z.leb_spec n_entries ti) as [_|?]; [|lia].
Qed.

(** ** The kernel, a whole launch *)

Hypothesis keys_given : n_entries ≤ Z.of_nat (length keys).

Lemma kernel_spec threads (d : device) :
  Forall (λ t, 0 ≤ t) threads →
  fits n_entries table_size d →
  kernel threads d
  = Ok {| num_slots_available :=
            (λ a, foldl (λ a tk, <[Z.to_nat tk.1 := Z.max 1 (distinct tk.2)]> a) a
                    (active keys n_entries threads))
              <$> num_slots_available d;
          num_hashing_in :=
            (λ c, foldl bump c
                    (active keys n_entries threads ≫= λ tk, slots tk.2))
              <$> num_hashing_in d;
          failed :=
            (λ f, if forallb (λ tk, Z.max 1 (distinct tk.2) =? num_functions)
                       (active keys n_entries threads)
                  then f else 1)
              <$> failed d |}.
Proof.
  revert d. induction threads as [|t threads IH]; intros d Hpos [Hslots Hcounters].
  - simpl. destruct d as [[a|] [c|] [f|]]; reflexivity.
  - apply Forall_cons in Hpos as [Hpos0 Hpos].
    cbn [take_hash_function_statistics active omap list_omap].
    case_bool_decide as Ht.
    + destruct (lookup_lt_is_Some_2 keys (Z.to_nat t)) as [key Hkey]; [lia|].
      rewrite (thread_spec t d key); [|lia|done| |done].
      2:{ intros a Ha. specialize (Hslots a Ha). lia. }
      simpl. rewrite IH; [|done|].
      2:{ split; simpl.
          - intros a' Ha'. destruct (num_slots_available d) as [a|] eqn:Ha;
              simplify_eq/=. rewrite length_insert. by apply Hslots.
          - intros c' Hc'. destruct (num_hashing_in d) as [c|] eqn:Hc;
              simplify_eq/=. rewrite length_foldl_bump. by apply Hcounters. }
      unfold active at 1 2 3. fold (active keys n_entries threads).
      rewrite Hkey. simpl.
      f_equal. f_equal.
      * by destruct (num_slots_available d).
      * destruct (num_hashing_in d); [|done]. simpl. by rewrite foldl_app.
      * destruct (failed d); [|done]. simpl. f_equal.
        by destruct (Z.eqb_spec (Z.max 1 (distinct key)) num_functions),
          (forallb _ _).
    + rewrite thread_idle by lia. simpl. by apply IH.
Qed.

Lemma kernel_app threads1 threads2 (d : device) :
  kernel (threads1 ++ threads2) d
  = d1 ← kernel threads1 d; kernel threads2 d1.
Proof.
  revert d. induction threads1 as [|t threads1 IH]; intros d; [done|].
  simpl. destruct (thread t d) as [d1|f]; [apply IH|done].
Qed.

Lemma length_foldl_insert {A} (f : A → nat) (g : A → Z) (l : list A)
    (a : list Z) :
  length (foldl (λ a x, <[f x := g x]> a) a l) = length a.
Proof.
  revert a. induction l as [|x l IH]; intros a; [done|].
  simpl. by rewrite IH, length_insert.
Qed.

(** A launch leaves the sizes of the buffers as they are. *)
Lemma kernel_fits threads (d d' : device) :
  Forall (λ t, 0 ≤ t) threads → fits n_entries table_size d →
  kernel threads d = Ok d' → fits n_entries table_size d'.
Proof.
  intros Hpos Hfits. rewrite kernel_spec by done. intros [= <-].
  destruct Hfits as [Hslots Hcounters]. split; simpl.
  - intros a' Ha'. destruct (num_slots_available d) as [a|]; simplify_eq/=.
    rewrite length_foldl_insert. by apply Hslots.
  - intros c' Hc'. destruct (num_hashing_in d) as [c|]; simplify_eq/=.
    rewrite length_foldl_bump. by apply Hcounters.
Qed.

End KernelFacts.

(** ** The claims about the kernel *)

(** C1. For every key, every [table_size >= 1], every sequence of constants
    and every [num_functions] in [[1, kMaxHashFunctions]], the thread of
    the key runs without a fault and the count it stores in its cell of
    [num_slots_available] is the cardinality of the set of the slots
    [hash(constants_i, key) mod table_size], [i] in [[0, num_functions)]. *)
Theorem distinct_slot_count_is_cardinality
    kMaxHashFunctions hash_function_inner keys n_entries table_size constants
    num_functions thread_index key (d : device) (a : list Z) :
  1 ≤ table_size →
  1 ≤ num_functions ≤ kMaxHashFunctions →
  num_functions < 2 ^ 32 →
  num_functions ≤ Z.of_nat (length constants) →
  0 ≤ thread_index < n_entries →
  keys !! Z.to_nat thread_index = Some key →
  num_slots_available d = Some a →
  thread_index < Z.of_nat (length a) →
  (∀ c, num_hashing_in d = Some c → table_size ≤ Z.of_nat (length c)) →
  ∃ d' a',
    take_hash_function_statistics_thread kMaxHashFunctions hash_function_inner
      keys n_entries table_size constants num_functions thread_index d = Ok d'
    ∧ num_slots_available d' = Some a'
    ∧ a' !! Z.to_nat thread_index
      = Some (Z.of_nat (size (candidate_slots hash_function_inner table_size
                                constants num_functions key))).
Proof.
  intros Hts Hnf Hnf32 Hconst Hti Hkey Ha Hlen Hcounters.
  rewrite (thread_spec kMaxHashFunctions hash_function_inner keys n_entries
             table_size constants num_functions) with (key := key);
    [|lia..|done| |done].
  2:{ intros a0 Ha0. congruence. }
  eexists _, _. split; [reflexivity|]. rewrite Ha. simpl. split; [reflexivity|].
  rewrite list_lookup_insert_eq by lia. f_equal.
  pose proof (DistinctSlotCount_bounds kMaxHashFunctions hash_function_inner
                table_size constants num_functions ltac:(lia) Hconst key
                ltac:(lia)) as Hb.
  unfold DistinctSlotCount in *. lia.
Qed.

Lemma distinct_slot_count_is_cardinality_witness :
  ∃ d' a',
    take_hash_function_statistics_thread 5 scenario_hash scenario_keys 3 10
      scenario_constants 2 1
      {| num_slots_available := Some [0; 0; 0]; num_hashing_in := None;
         failed := None |} = Ok d'
    ∧ num_slots_available d' = Some a'
    ∧ a' !! Z.to_nat 1
      = Some (Z.of_nat (size (candidate_slots scenario_hash 10
                                scenario_constants 2 15))).
Proof.
  apply (distinct_slot_count_is_cardinality 5 scenario_hash scenario_keys 3 10
           scenario_constants 2 1 15 _ [0; 0; 0]);
    try reflexivity; simpl; try lia.
  intros c [=].
Defined.

(** C2, amended.  With the failure flag enabled and at least one hash
    function, a launch over all keys (the threads of a grid that covers
    them, in any order) leaves the flag set exactly when it was set before
    or some key has fewer distinct slots than [num_functions]: starting
    from a clear flag, the flag is set if and only if such a key exists.
    The flag never goes back: once it is set after some of the threads
    have run, it is set at the end. *)
Theorem failure_flag_iff_short_key
    kMaxHashFunctions hash_function_inner keys n_entries table_size constants
    num_functions threads size (d : device) flag :
  1 ≤ table_size →
  1 ≤ num_functions ≤ kMaxHashFunctions →
  num_functions < 2 ^ 32 →
  num_functions ≤ Z.of_nat (length constants) →
  n_entries = Z.of_nat (length keys) →
  threads ≡ₚ grid size → n_entries ≤ size →
  fits n_entries table_size d →
  failed d = Some flag →
  ∃ d' flag',
    take_hash_function_statistics kMaxHashFunctions hash_function_inner keys
      n_entries table_size constants num_functions threads d = Ok d'
    ∧ failed d' = Some flag'
    ∧ (flag = 0 →
       (flag' ≠ 0 ↔
        ∃ (i : nat) key,
          keys !! i = Some key
          ∧ DistinctSlotCount hash_function_inner table_size constants
              num_functions key < num_functions))
    ∧ (∀ before after d1 flag1,
         threads = before ++ after →
         take_hash_function_statistics kMaxHashFunctions hash_function_inner
           keys n_entries table_size constants num_functions before d = Ok d1 →
         failed d1 = Some flag1 → flag1 ≠ 0 → flag' ≠ 0).
Proof.
  intros Hts Hnf Hnf32 Hconst Hn Hperm Hsize Hfits Hflag.
  pose proof (grid_nonneg _ _ Hperm) as Hpos.
  assert (0 ≤ num_functions ≤ kMaxHashFunctions) as Hnf0 by lia.
  assert (n_entries ≤ Z.of_nat (length keys)) as Hkeys by lia.
  pose proof (kernel_spec kMaxHashFunctions hash_function_inner keys n_entries
                table_size constants num_functions Hts Hnf0 Hnf32 Hconst Hkeys)
    as Hspec.
  pose proof (DistinctSlotCount_bounds kMaxHashFunctions hash_function_inner
                table_size constants num_functions Hnf0 Hconst) as Hbounds.
  rewrite Hspec by done. rewrite Hflag. simpl.
  eexists _, _. split; [reflexivity|]. split; [reflexivity|]. split.
  - intros ->. split.
    + intros Hset.
      destruct (forallb _ (active keys n_entries threads)) eqn:Hall; [done|].
      apply forallb_false in Hall as ([t key] & Hin & Hne).
      apply elem_of_active in Hin as (_ & _ & Hkey).
      exists (Z.to_nat t), key. split; [done|].
      specialize (Hbounds key ltac:(lia)). simpl in Hne.
      destruct (Z.eqb_spec
                  (Z.max 1 (DistinctSlotCount hash_function_inner table_size
                              constants num_functions key)) num_functions);
        [done|lia].
    + intros (i & key & Hkey & Hshort).
      destruct (forallb _ (active keys n_entries threads)) eqn:Hall; [|done].
      rewrite forallb_forall in Hall.
      specialize (Hall (Z.of_nat i, key)). simpl in Hall.
      specialize (Hbounds key ltac:(lia)).
      destruct (Z.eqb_spec
                  (Z.max 1 (DistinctSlotCount hash_function_inner table_size
                              constants num_functions key)) num_functions);
        [lia|].
      assert (false = true); [|done]. apply Hall.
      apply list_elem_of_In, elem_of_active.
      apply lookup_lt_Some in Hkey as Hi. split_and!.
      * rewrite Hperm. apply elem_of_seqZ. lia.
      * lia.
      * lia.
      * by rewrite Nat2Z.id.
  - intros before after d1 flag1 -> Hrun1 Hflag1 Hset.
    apply Forall_app in Hpos as [Hpos1 Hpos2].
    pose proof (kernel_fits kMaxHashFunctions hash_function_inner keys n_entries
                  table_size constants num_functions Hts Hnf0 Hnf32 Hconst
                  Hkeys before d d1 Hpos1 Hfits Hrun1) as Hfits1.
    pose proof (kernel_app kMaxHashFunctions hash_function_inner keys n_entries
                  table_size constants num_functions before after d) as Happ.
    rewrite Hrun1 in Happ. simpl in Happ.
    rewrite !Hspec in Happ by (done || by apply Forall_app).
    injection Happ as _ _ Hfailed. rewrite Hflag, Hflag1 in Hfailed.
    simpl in Hfailed. injection Hfailed as ->.
    by destruct (forallb _ (active keys n_entries after)).
Qed.

Lemma failure_flag_iff_short_key_witness :
  ∃ d' flag',
    take_hash_function_statistics 5 scenario_hash scenario_keys 3 10
      scenario_constants 2 (grid 4)
      {| num_slots_available := Some [0; 0; 0];
         num_hashing_in := Some (replicate 10 0);
         failed := Some 0 |} = Ok d'
    ∧ failed d' = Some flag'
    ∧ (0 = 0 →
       (flag' ≠ 0 ↔
        ∃ (i : nat) key,
          scenario_keys !! i = Some key
          ∧ DistinctSlotCount scenario_hash 10 scenario_constants 2 key < 2))
    ∧ (∀ before after d1 flag1,
         grid 4 = before ++ after →
         take_hash_function_statistics 5 scenario_hash scenario_keys 3 10
           scenario_constants 2 before
           {| num_slots_available := Some [0; 0; 0];
              num_hashing_in := Some (replicate 10 0);
              failed := Some 0 |} = Ok d1 →
         failed d1 = Some flag1 → flag1 ≠ 0 → flag' ≠ 0).
Proof.
  apply (failure_flag_iff_short_key 5 scenario_hash scenario_keys 3 10
           scenario_constants 2 (grid 4) 4 _ 0);
    try reflexivity; simpl; try lia.
  split; intros l [= <-]; simpl; lia.
Defined.

(** C2 as stated fails without hash functions: the kernel compares the
    count, which starts at 1, with [num_functions] for inequality, so with
    [num_functions = 0] every key raises the flag, although no key has
    fewer than zero distinct slots. *)
Lemma failure_flag_without_functions :
  take_hash_function_statistics 5 scenario_hash scenario_keys 3 10
    scenario_constants 0 (grid 4)
    {| num_slots_available := Some [0; 0; 0];
       num_hashing_in := Some (replicate 10 0);
       failed := Some 0 |}
  = Ok {| num_slots_available := Some [1; 1; 1];
          num_hashing_in := Some (replicate 10 0);
          failed := Some 1 |}
  ∧ ¬ ∃ (i : nat) key,
        scenario_keys !! i = Some key
        ∧ DistinctSlotCount scenario_hash 10 scenario_constants 0 key < 0.
Proof.
  split; [reflexivity|]. intros (i & key & _ & Hshort).
  unfold DistinctSlotCount in Hshort. lia.
Qed.

(** ** Loops that tally and loops that print *)

Lemma for_loop_app {St} (body : Z → St → run St) count1 count2 i s :
  for_loop (count1 + count2) i body s
  = s' ← for_loop count1 i body s; for_loop count2 (i + Z.of_nat count1) body s'.
Proof.
  revert i s. induction count1 as [|count1 IH]; intros i s.
  - simpl. replace (i + Z.of_nat 0) with i by lia. done.
  - simpl. destruct (body i s) as [t|f]; [|done]. simpl. rewrite IH.
    replace (i + 1 + Z.of_nat count1) with (i + Z.of_nat (S count1)) by lia.
    done.
Qed.

(** A loop whose iterations each append to what was collected so far. *)
Lemma for_range_collect {A} (body : Z → list A → run (list A))
    (emit : Z → list A) lo hi out :
  lo ≤ hi →
  (∀ j o, lo ≤ j < hi → body j o = Ok (o ++ emit j)) →
  for_range lo hi body out = Ok (out ++ (seqZ lo (hi - lo) ≫= emit)).
Proof.
  intros Hle Hbody.
  destruct (for_range_inv (λ j o, o = out ++ (seqZ lo (j - lo) ≫= emit))
              body lo hi out) as (o & -> & ->); [done| | |done].
  - rewrite Z.sub_diag. simpl. by rewrite app_nil_r.
  - intros j o Hj ->. eexists. split; [by apply Hbody|].
    replace (j + 1 - lo) with ((j - lo) + 1) by lia.
    rewrite seqZ_app by lia. rewrite bind_app, app_assoc. f_equal.
    replace (lo + (j - lo)) with j by lia.
    change (seqZ j 1) with [0 + j]. rewrite Z.add_0_l. simpl.
    by rewrite app_nil_r.
Qed.

Lemma bind_singleton_fmap {A B} (g : A → B) (l : list A) :
  l ≫= (λ a, [g a]) = g <$> l.
Proof. induction l as [|a l IH]; [done|]. by rewrite bind_cons, IH. Qed.

(** The tally loop over the first [m] values, all of them within the
    histogram: the histogram then holds, bucket by bucket, how often each
    value occurred. *)
Lemma tally_prefix (values : list Z) size m :
  0 ≤ size → 0 ≤ m ≤ Z.of_nat (length values) → m < 2 ^ 32 →
  (∀ v, v ∈ take (Z.to_nat m) values → 0 ≤ v < size) →
  for_range 0 m (tally values) (replicate (Z.to_nat size) 0)
  = Ok ((λ v, occurrences v (take (Z.to_nat m) values)) <$> seqZ 0 size).
Proof.
  intros Hsize Hm Hm32 Hrange.
  destruct (for_range_inv
              (λ i h, h = (λ v, occurrences v (take (Z.to_nat i) values))
                            <$> seqZ 0 size)
              (tally values) 0 m (replicate (Z.to_nat size) 0))
    as (h & -> & ->); [lia| | |done].
  - apply list_eq. intros j. rewrite list_lookup_fmap.
    destruct (decide (Z.of_nat j < size)) as [Hj|Hj].
    + rewrite lookup_replicate_2 by lia. by rewrite lookup_seqZ_lt.
    + rewrite lookup_seqZ_ge by lia. apply lookup_replicate_None. lia.
  - intros i h Hi ->.
    destruct (lookup_lt_is_Some_2 values (Z.to_nat i)) as [v Hv]; [lia|].
    assert (0 ≤ v < size) as Hvr.
    { apply Hrange, elem_of_take. exists (Z.to_nat i). split; [done|lia]. }
    pose proof (occurrences_bounds v (take (Z.to_nat i) values)) as Hocc.
    rewrite length_take in Hocc.
    unfold tally. rewrite (load_Ok values i v) by (done || lia). simpl.
    rewrite (load_Ok _ v (occurrences v (take (Z.to_nat i) values))); [|lia|].
    2:{ rewrite list_lookup_fmap, lookup_seqZ_lt by lia. simpl.
        by rewrite Z.add_0_l, Z2Nat.id by lia. }
    simpl. rewrite store_Ok by (rewrite length_fmap, length_seqZ; lia).
    eexists. split; [reflexivity|].
    replace (Z.to_nat (i + 1)) with (S (Z.to_nat i)) by lia.
    rewrite (take_S_r _ _ v) by done. rewrite u32_small by lia.
    apply list_eq. intros j. rewrite !list_lookup_fmap.
    destruct (decide (j = Z.to_nat v)) as [->|Hne].
    + rewrite list_lookup_insert_eq by (rewrite length_fmap, length_seqZ; lia).
      rewrite lookup_seqZ_lt by lia. simpl. f_equal.
      rewrite Z.add_0_l, Z2Nat.id by lia.
      rewrite occurrences_app, occurrences_cons, occurrences_nil.
      rewrite bool_decide_eq_true_2 by done. lia.
    + rewrite list_lookup_insert_ne by done. rewrite list_lookup_fmap.
      destruct (seqZ 0 size !! j) as [w|] eqn:Hw; [|done]. simpl. f_equal.
      apply lookup_seqZ in Hw as [-> _].
      rewrite occurrences_app, occurrences_cons, occurrences_nil.
      rewrite bool_decide_eq_false_2 by lia. lia.
Qed.

(** The tally loop faults at the first value outside the histogram. *)
Lemma tally_fault (values good rest : list Z) bad size :
  values = good ++ bad :: rest →
  0 ≤ size → Z.of_nat (length values) < 2 ^ 32 →
  (∀ v, v ∈ good → 0 ≤ v < size) → ¬ (0 ≤ bad < size) →
  for_range 0 (Z.of_nat (length values)) (tally values)
    (replicate (Z.to_nat size) 0)
  = Fault OutOfBounds.
Proof.
  intros Hvalues Hsize Hlen Hgood Hbad. unfold for_range.
  replace (Z.to_nat (Z.of_nat (length values) - 0))
    with (length good + S (length rest))%nat.
  2:{ rewrite Hvalues, length_app. simpl. lia. }
  rewrite for_loop_app.
  pose proof (tally_prefix values size (Z.of_nat (length good))) as Hprefix.
  unfold for_range in Hprefix. rewrite Z.sub_0_r, Nat2Z.id in Hprefix.
  rewrite Hprefix; [|done| | |].
  - simpl. rewrite Z.add_0_l.
    assert (tally values (Z.of_nat (length good))
              ((λ v, occurrences v (take (length good) values))
                 <$> seqZ 0 size) = Fault OutOfBounds) as ->; [|done].
    unfold tally. rewrite (load_Ok values _ bad); [|lia|].
    2:{ rewrite Nat2Z.id, Hvalues. by apply list_lookup_middle. }
    simpl.
    assert (load ((λ v, occurrences v (take (length good) values))
                    <$> seqZ 0 size) bad = Fault OutOfBounds) as ->; [|done].
    unfold load. destruct (Z.ltb_spec bad 0); [done|].
    rewrite lookup_ge_None_2; [done|]. rewrite length_fmap, length_seqZ. lia.
  - rewrite Hvalues, length_app. lia.
  - rewrite Hvalues, length_app in Hlen. lia.
  - intros v Hv. apply Hgood. by rewrite Hvalues, take_app_length in Hv.
Qed.

(** ** Retrieval statistics *)

Lemma first_offender {A} (P : A → Prop) `{!∀ a, Decision (P a)} (l : list A) :
  (∃ a, a ∈ l ∧ ¬ P a) →
  ∃ good bad rest, l = good ++ bad :: rest ∧ (∀ a, a ∈ good → P a) ∧ ¬ P bad.
Proof.
  induction l as [|b l IH]; intros (a & Ha & HP).
  - by apply not_elem_of_nil in Ha.
  - destruct (decide (P b)) as [Hb|Hb].
    + destruct IH as (good & bad & rest & -> & Hgood & Hbad).
      { apply elem_of_cons in Ha as [->|Ha]; [done|]. by exists a. }
      exists (b :: good), bad, rest. split; [done|]. split; [|done].
      intros c [->|Hc]%elem_of_cons; [done|by apply Hgood].
    + exists [], b, l. split; [done|]. split; [|done].
      by intros c ?%not_elem_of_nil.
Qed.

(** The report of [OutputRetrievalStatistics] when every probe count has a
    bucket: a header and one line per bucket, in ascending order. *)
Lemma retrieval_report n_queries d_retrieval_probes n_functions :
  n_queries = Z.of_nat (length d_retrieval_probes) → n_queries < 2 ^ 32 →
  0 ≤ n_functions → n_functions + 2 < 2 ^ 32 →
  (∀ p, p ∈ d_retrieval_probes → 0 ≤ p ≤ n_functions + 1) →
  OutputRetrievalStatistics n_queries d_retrieval_probes n_functions
  = Ok (PrintMessage (sprintf "Probes for retrieval: " []) None
        :: ((λ v, PrintMessage
                    (sprintf "\t(%u, %u)"
                       [U v; U (occurrences v d_retrieval_probes)]) None)
              <$> seqZ 0 (n_functions + 2))).
Proof.
  intros Hn Hn32 Hnf Hnf32 Hrange. unfold OutputRetrievalStatistics.
  rewrite cudaMemcpy_all by done. simpl.
  rewrite u32_small by lia.
  pose proof (tally_prefix d_retrieval_probes (n_functions + 2) n_queries)
    as Htally.
  rewrite Hn, Nat2Z.id, firstn_all in Htally. rewrite Hn.
  rewrite Htally; [|lia..|].
  2:{ intros p Hp%Hrange. lia. }
  simpl.
  rewrite (for_range_collect _
             (λ v, [PrintMessage
                      (sprintf "\t(%u, %u)"
                         [U v; U (occurrences v d_retrieval_probes)]) None]));
    [|lia|].
  - by rewrite Z.sub_0_r, bind_singleton_fmap.
  - intros j o Hj. unfold print_probes.
    rewrite (load_Ok _ j (occurrences j d_retrieval_probes)); [done|lia|].
    rewrite list_lookup_fmap, lookup_seqZ_lt by lia. simpl.
    by rewrite Z.add_0_l, Z2Nat.id by lia.
Qed.

(** C4, amended.  For every probe-count sequence of length [n_queries]
    whose entries are all at most [n_functions + 1], and every
    [n_functions] for which [n_functions + 2] fits an [unsigned], the
    reduction prints a dense histogram: exactly [n_functions + 2] buckets,
    one per value of [[0, n_functions + 1]] in ascending order, empty
    buckets included, each with the number of probe counts of that value;
    the bucket counts add up to [n_queries]. *)
Theorem retrieval_histogram_dense n_queries d_retrieval_probes n_functions :
  n_queries = Z.of_nat (length d_retrieval_probes) → n_queries < 2 ^ 32 →
  0 ≤ n_functions → n_functions + 2 < 2 ^ 32 →
  (∀ p, p ∈ d_retrieval_probes → 0 ≤ p ≤ n_functions + 1) →
  let buckets :=
    (λ v, (v, occurrences v d_retrieval_probes))
      <$> seqZ 0 (n_functions + 2) in
  OutputRetrievalStatistics n_queries d_retrieval_probes n_functions
  = Ok (PrintMessage (sprintf "Probes for retrieval: " []) None
        :: ((λ b : Z * Z,
               PrintMessage (sprintf "\t(%u, %u)" [U b.1; U b.2]) None)
              <$> buckets))
  ∧ Z.of_nat (length buckets) = n_functions + 2
  ∧ buckets.*1 = seqZ 0 (n_functions + 2)
  ∧ sumZ (buckets.*2) = n_queries.
Proof.
  intros Hn Hn32 Hnf Hnf32 Hrange buckets. subst buckets. split_and!.
  - rewrite retrieval_report by done. by rewrite <- list_fmap_compose.
  - rewrite length_fmap, length_seqZ. lia.
  - rewrite <- list_fmap_compose. apply list_fmap_id.
  - rewrite Hn.
    rewrite <- (sumZ_occurrences (seqZ 0 (n_functions + 2)) d_retrieval_probes);
      [|apply NoDup_seqZ|].
    + by rewrite <- list_fmap_compose.
    + intros p Hp%Hrange. apply elem_of_seqZ. lia.
Qed.

Lemma retrieval_histogram_dense_witness :
  let buckets := (λ v, (v, occurrences v [0; 1; 1; 2])) <$> seqZ 0 (2 + 2) in
  OutputRetrievalStatistics 4 [0; 1; 1; 2] 2
  = Ok (PrintMessage (sprintf "Probes for retrieval: " []) None
        :: ((λ b : Z * Z,
               PrintMessage (sprintf "\t(%u, %u)" [U b.1; U b.2]) None)
              <$> buckets))
  ∧ Z.of_nat (length buckets) = 2 + 2
  ∧ buckets.*1 = seqZ 0 (2 + 2)
  ∧ sumZ (buckets.*2) = 4.
Proof.
  apply (retrieval_histogram_dense 4 [0; 1; 1; 2] 2); try reflexivity; try lia.
  intros p Hp. repeat (apply elem_of_cons in Hp as [->|Hp]; [lia|]).
  by apply not_elem_of_nil in Hp.
Defined.

(** C4 as stated fails for a probe count without a bucket: with two
    functions the histogram has four cells and the probe count 5 indexes
    past its end. *)
Lemma retrieval_histogram_out_of_range :
  OutputRetrievalStatistics 1 [5] 2 = Fault OutOfBounds.
Proof. reflexivity. Qed.

(** C10, amended.  The reduction indexes its histogram of
    [n_functions + 2] cells with each probe count, unchecked.  For every
    [n_functions] for which [n_functions + 2] fits an [unsigned]: when every
    probe count is at most [n_functions + 1] all accesses are in bounds and
    the reduction returns; when some probe count is larger, the reduction
    accesses the histogram out of bounds. *)
Theorem probe_bound_precondition n_queries d_retrieval_probes n_functions :
  n_queries = Z.of_nat (length d_retrieval_probes) → n_queries < 2 ^ 32 →
  0 ≤ n_functions → n_functions + 2 < 2 ^ 32 →
  (∀ p, p ∈ d_retrieval_probes → 0 ≤ p) →
  ((∀ p, p ∈ d_retrieval_probes → p ≤ n_functions + 1) →
   ∃ out, OutputRetrievalStatistics n_queries d_retrieval_probes n_functions
          = Ok out)
  ∧ ((∃ p, p ∈ d_retrieval_probes ∧ n_functions + 1 < p) →
     OutputRetrievalStatistics n_queries d_retrieval_probes n_functions
     = Fault OutOfBounds).
Proof.
  intros Hn Hn32 Hnf Hnf32 Hpos. split.
  - intros Hrange. eexists. apply retrieval_report; try done.
    intros p Hp. specialize (Hpos p Hp). specialize (Hrange p Hp). lia.
  - intros (p & Hp & Hlarge).
    destruct (first_offender (λ p, 0 ≤ p < n_functions + 2) d_retrieval_probes)
      as (good & bad & rest & Hsplit & Hgood & Hbad).
    { exists p. split; [done|lia]. }
    unfold OutputRetrievalStatistics. rewrite cudaMemcpy_all by done. simpl.
    rewrite u32_small by lia. rewrite Hn.
    by rewrite (tally_fault d_retrieval_probes good rest bad) by (done || lia).
Qed.

Lemma probe_bound_precondition_witness :
  ((∀ p, p ∈ [0; 1; 1; 2] → p ≤ 2 + 1) →
   ∃ out, OutputRetrievalStatistics 4 [0; 1; 1; 2] 2 = Ok out)
  ∧ ((∃ p, p ∈ [0; 1; 1; 2] ∧ 2 + 1 < p) →
     OutputRetrievalStatistics 4 [0; 1; 1; 2] 2 = Fault OutOfBounds).
Proof.
  apply (probe_bound_precondition 4 [0; 1; 1; 2] 2); try reflexivity; try lia.
  intros p Hp. repeat (apply elem_of_cons in Hp as [->|Hp]; [lia|]).
  by apply not_elem_of_nil in Hp.
Defined.

(** C10 as stated fails when [n_functions + 2] wraps: for
    [n_functions = 2^32 - 1] the histogram has a single cell, and the probe
    count 1, which is at most [n_functions + 1], indexes past it. *)
Lemma probe_bound_wraps :
  (∀ p, p ∈ [1] → p ≤ 4294967295 + 1)
  ∧ OutputRetrievalStatistics 1 [1] 4294967295 = Fault OutOfBounds.
Proof.
  split; [|reflexivity].
  intros p ->%list_elem_of_singleton. lia.
Qed.

(** ** Build statistics *)

(** [std_sort] yields the one ascending arrangement of its input. *)
Lemma std_sort_unique (l sorted : list Z) :
  Sorted Z.le sorted → sorted ≡ₚ l → std_sort l = sorted.
Proof.
  intros Hsorted Hperm. unfold std_sort.
  apply (Sorted_unique_strong Z.le).
  - intros a b _ _. apply Z.le_antisymm.
  - apply (Sorted_merge_sort Z.le).
  - done.
  - by rewrite merge_sort_Permutation.
Qed.

Lemma length_std_sort (l : list Z) : length (std_sort l) = length l.
Proof. unfold std_sort. by rewrite merge_sort_Permutation. Qed.

(** A loop whose iterations cannot fault returns. *)
Lemma for_range_total {St} (body : Z → St → run St) lo hi s :
  (∀ j t, lo ≤ j < hi → ∃ t', body j t = Ok t') →
  ∃ s', for_range lo hi body s = Ok s'.
Proof.
  intros Hbody. destruct (Z.le_gt_cases lo hi) as [Hle|Hgt].
  - destruct (for_range_inv (λ _ _, True) body lo hi s) as (s' & Hrun & _);
      [done..| |by exists s'].
    intros j t Hj _. destruct (Hbody j t Hj) as [t' Ht']. by exists t'.
  - exists s. apply for_range_empty. lia.
Qed.

(** ** The stash dump *)

(** C8. For every snapshot of exactly [kStashSize] entries the dump
    returns, leaves the snapshot as it is, and prints, in ascending index
    order, one line [(index, key, value)] for each entry whose key is not
    [kKeyEmpty] and no other line. *)
Theorem stash_dump_lists_occupied
    (Entry : Type) (get_key get_value : Entry → Z) (kKeyEmpty kStashSize : Z)
    (d_stash : list Entry) :
  kStashSize = Z.of_nat (length d_stash) →
  PrintStashContents Entry get_key get_value kKeyEmpty kStashSize d_stash
  = Ok (d_stash,
        (λ ie : Z * Entry,
           PrintMessage
             (sprintf "Stash[%u]: %u = %u"
                [U ie.1; U (get_key ie.2); U (get_value ie.2)]) (Some true))
          <$> filter (λ ie : Z * Entry, get_key ie.2 ≠ kKeyEmpty)
                (zip (seqZ 0 kStashSize) d_stash)).
Proof.
  intros Hsize. unfold PrintStashContents.
  rewrite cudaMemcpy_all by done. simpl.
  set (line := λ ie : Z * Entry,
         PrintMessage
           (sprintf "Stash[%u]: %u = %u"
              [U ie.1; U (get_key ie.2); U (get_value ie.2)]) (Some true)).
  set (occupied := λ ie : Z * Entry, get_key ie.2 ≠ kKeyEmpty).
  destruct (for_range_inv
              (λ i out, out = line <$> filter occupied
                                (zip (seqZ 0 i) (take (Z.to_nat i) d_stash)))
              (print_entry Entry get_key get_value kKeyEmpty d_stash)
              0 kStashSize []) as (out & -> & ->); [lia|done| |].
  - intros i out Hi ->.
    destruct (lookup_lt_is_Some_2 d_stash (Z.to_nat i)) as [e He]; [lia|].
    unfold print_entry. rewrite (load_Ok d_stash i e) by (done || lia). simpl.
    assert (zip (seqZ 0 (i + 1)) (take (Z.to_nat (i + 1)) d_stash)
            = zip (seqZ 0 i) (take (Z.to_nat i) d_stash) ++ [(i, e)]) as ->.
    { replace (Z.to_nat (i + 1)) with (S (Z.to_nat i)) by lia.
      rewrite (take_S_r _ _ e) by done.
      rewrite seqZ_app by lia. rewrite Z.add_0_l.
      change (seqZ i 1) with [0 + i]. rewrite Z.add_0_l.
      rewrite zip_with_app; [done|].
      rewrite length_seqZ, length_take. lia. }
    rewrite filter_app, fmap_app.
    destruct (Z.eqb_spec (get_key e) kKeyEmpty) as [Hempty|Hfull]; simpl.
    + eexists. split; [reflexivity|].
      rewrite filter_cons_False by (unfold occupied; simpl; tauto).
      by rewrite filter_nil, app_nil_r.
    + eexists. split; [reflexivity|].
      by rewrite filter_cons_True by done.
  - simpl. by rewrite Hsize, Nat2Z.id, firstn_all.
Qed.

Lemma stash_dump_lists_occupied_witness :
  let d_stash :=
    [(4294967295, 0); (4294967295, 0); (7, 70); (4294967295, 0);
     (4294967295, 0); (4294967295, 0); (4294967295, 0); (9, 90);
     (4294967295, 0); (4294967295, 0)] in
  PrintStashContents (Z * Z) fst snd 4294967295 10 d_stash
  = Ok (d_stash,
        (λ ie : Z * (Z * Z),
           PrintMessage
             (sprintf "Stash[%u]: %u = %u"
                [U ie.1; U (fst ie.2); U (snd ie.2)]) (Some true))
          <$> filter (λ ie : Z * (Z * Z), fst ie.2 ≠ 4294967295)
                (zip (seqZ 0 10) d_stash)).
Proof.
  intros d_stash.
  apply (stash_dump_lists_occupied (Z * Z) fst snd 4294967295 10 d_stash).
  reflexivity.
Defined.

(** The fourth scenario of the specification: a stash occupied only at the
    indices 2 and 7 yields exactly two lines, index 2 first. *)
Example stash_occupied_at_2_and_7 :
  PrintStashContents (Z * Z) fst snd 4294967295 10
    [(4294967295, 0); (4294967295, 0); (7, 70); (4294967295, 0);
     (4294967295, 0); (4294967295, 0); (4294967295, 0); (9, 90);
     (4294967295, 0); (4294967295, 0)]
  = Ok ([(4294967295, 0); (4294967295, 0); (7, 70); (4294967295, 0);
         (4294967295, 0); (4294967295, 0); (4294967295, 0); (9, 90);
         (4294967295, 0); (4294967295, 0)],
        [PrintMessage [Piece "Stash[%u]: %u = %u" [U 2; U 7; U 70]]
           (Some true);
         PrintMessage [Piece "Stash[%u]: %u = %u" [U 7; U 9; U 90]]
           (Some true)]).
Proof. reflexivity. Qed.

(** ** The host entry point *)

(** A thread never writes through a [NULL] flag pointer. *)
Lemma thread_keeps_null
    kMaxHashFunctions hash_function_inner keys n_entries table_size constants
    num_functions thread_index (d d' : device) :
  failed d = None →
  take_hash_function_statistics_thread kMaxHashFunctions hash_function_inner
    keys n_entries table_size constants num_functions thread_index d = Ok d' →
  failed d' = None.
Proof.
  intros Hnull. unfold take_hash_function_statistics_thread.
  destruct (n_entries <=? thread_index); [by intros [= <-]|].
  destruct (load keys thread_index) as [key|]; simpl; [|done].
  destruct (for_range 0 num_functions _ _) as [[locations hashing_in]|];
    simpl; [|done].
  destruct (for_range 1 num_functions _ _) as [num_slots|]; simpl; [|done].
  destruct (num_slots_available d) as [a|]; simpl.
  - destruct (store a thread_index num_slots); simpl; [|done].
    intros [= <-]. simpl. by rewrite Hnull.
  - intros [= <-]. simpl. by rewrite Hnull.
Qed.

Lemma kernel_keeps_null
    kMaxHashFunctions hash_function_inner keys n_entries table_size constants
    num_functions threads (d d' : device) :
  failed d = None →
  take_hash_function_statistics kMaxHashFunctions hash_function_inner
    keys n_entries table_size constants num_functions threads d = Ok d' →
  failed d' = None.
Proof.
  revert d. induction threads as [|t threads IH]; intros d Hnull.
  - by intros [= <-].
  - simpl.
    destruct (take_hash_function_statistics_thread _ _ _ _ _ _ _ t d)
      as [d1|] eqn:Hthread; simpl; [|done].
    apply IH. by eapply thread_keeps_null.
Qed.

(** C9. [TakeHashFunctionStatistics] launches the kernel with [NULL] for
    the failure flag: for every input and every order and number of
    threads that have run, the flag pointer is [NULL] before the launch and
    after it, so no flag is ever set through this entry point. *)
Theorem entry_point_never_sets_flag
    kMaxHashFunctions hash_function_inner sw threads num_keys d_keys table_size
    constants kNumHashFunctions :
  failed (host_buffers sw num_keys table_size) = None
  ∧ ∀ d',
      TakeHashFunctionStatistics_launch kMaxHashFunctions hash_function_inner
        sw threads num_keys d_keys table_size constants kNumHashFunctions
      = Ok d' →
      failed d' = None.
Proof.
  split; [done|]. intros d'. unfold TakeHashFunctionStatistics_launch.
  destruct (cudaMemcpy constants kNumHashFunctions) as [d_constants|];
    simpl; [|done].
  by apply kernel_keeps_null.
Qed.

Lemma entry_point_never_sets_flag_witness :
  failed (host_buffers
            {| COUNT_HOW_MANY_HASH_INTO_EACH_SLOT := true;
               COUNT_HOW_MANY_HAVE_CYCLES := true |} 3 10) = None
  ∧ failed
      {| num_slots_available := Some [1; 2; 1];
         num_hashing_in := Some [0; 3; 0; 3; 0; 0; 0; 0; 0; 0];
         failed := None |} = None.
Proof.
  destruct (entry_point_never_sets_flag 5 scenario_hash
              {| COUNT_HOW_MANY_HASH_INTO_EACH_SLOT := true;
                 COUNT_HOW_MANY_HAVE_CYCLES := true |}
              (grid 4) 3 scenario_keys 10 scenario_constants 2)
    as [Hbefore Hafter].
  split; [exact Hbefore|]. apply Hafter. reflexivity.
Defined.

(** The per-key cells after the writes of a list of threads: a cell keeps
    its content when no thread of the list owns it. *)
Lemma foldl_insert_other (g : Z → Z) (l : list (Z * Z)) (a : list Z) (i : nat) :
  (∀ t k, (t, k) ∈ l → Z.to_nat t ≠ i) →
  foldl (λ a tk, <[Z.to_nat tk.1 := g tk.2]> a) a l !! i = a !! i.
Proof.
  revert a. induction l as [|[t k] l IH]; intros a Hl; [done|].
  simpl. rewrite IH.
  - apply list_lookup_insert_ne. apply (Hl t k). left.
  - intros t' k' Hin. apply (Hl t' k'). by right.
Qed.

(** ... and holds the count of its key when some thread of the list owns
    it. *)
Lemma foldl_insert_owned (g : Z → Z) (keys : list Z) (l : list (Z * Z))
    (a : list Z) (i : nat) k :
  (∀ t k, (t, k) ∈ l → 0 ≤ t ∧ keys !! Z.to_nat t = Some k) →
  (i < length a)%nat → (Z.of_nat i, k) ∈ l →
  foldl (λ a tk, <[Z.to_nat tk.1 := g tk.2]> a) a l !! i = Some (g k).
Proof.
  revert a. induction l as [|[t k0] l IH]; intros a Hl Hi Hin.
  - by apply not_elem_of_nil in Hin.
  - simpl.
    destruct (decide (Z.of_nat i ∈ l.*1)) as [Hmore|Hnot].
    + apply list_elem_of_fmap in Hmore as ([t' k'] & Heq & Hk').
      simpl in Heq. subst t'.
      assert (k' = k) as ->.
      { destruct (Hl (Z.of_nat i) k' ltac:(by right)) as [_ H1].
        destruct (Hl (Z.of_nat i) k Hin) as [_ H2]. congruence. }
      apply IH; [|by rewrite length_insert|done].
      intros t' k'' Hin'. apply Hl. by right.
    + apply elem_of_cons in Hin as [[= <- <-]|Hin].
      2:{ destruct Hnot. apply list_elem_of_fmap. by exists (Z.of_nat i, k). }
      rewrite foldl_insert_other.
      * simpl. rewrite Nat2Z.id. by apply list_lookup_insert_eq.
      * intros t' k' Hin' Heq. apply Hnot. apply list_elem_of_fmap.
        exists (t', k'). split; [|done]. simpl.
        destruct (Hl t' k' ltac:(by right)) as [Ht' _]. lia.
Qed.

Lemma cudaMemcpy_prefix {A} (src : list A) n :
  0 ≤ n ≤ Z.of_nat (length src) → cudaMemcpy src n = Ok (take (Z.to_nat n) src).
Proof.
  intros Hn. unfold cudaMemcpy.
  destruct (Z.leb_spec 0 n); [|lia].
  by destruct (Z.leb_spec n (Z.of_nat (length src))); [|lia].
Qed.

(** Copying the constants to the device does not change the slots. *)
Lemma DistinctSlotCount_take hash_function_inner table_size constants
    num_functions key :
  DistinctSlotCount hash_function_inner table_size
    (take (Z.to_nat num_functions) constants) num_functions key
  = DistinctSlotCount hash_function_inner table_size constants num_functions key.
Proof.
  unfold DistinctSlotCount, candidate_slots, slot_sequence.
  by rewrite take_take, Nat.min_id.
Qed.

(** The buffers after a launch over all keys. *)
Lemma launch_result
    kMaxHashFunctions hash_function_inner keys n_entries table_size constants
    num_functions threads size (d : device) :
  1 ≤ table_size →
  1 ≤ num_functions ≤ kMaxHashFunctions →
  num_functions < 2 ^ 32 →
  num_functions ≤ Z.of_nat (length constants) →
  n_entries = Z.of_nat (length keys) →
  threads ≡ₚ grid size → n_entries ≤ size →
  (∀ a, num_slots_available d = Some a → n_entries = Z.of_nat (length a)) →
  (∀ c, num_hashing_in d = Some c → table_size = Z.of_nat (length c)) →
  ∃ d',
    take_hash_function_statistics kMaxHashFunctions hash_function_inner keys
      n_entries table_size constants num_functions threads d = Ok d'
    ∧ num_slots_available d'
      = (λ _, DistinctSlotCount hash_function_inner table_size constants
                num_functions <$> keys) <$> num_slots_available d
    ∧ (∀ c, num_hashing_in d = Some c →
            ∃ c', num_hashing_in d' = Some c'
                  ∧ Z.of_nat (length c') = table_size)
    ∧ (num_hashing_in d = None → num_hashing_in d' = None).
Proof.
  intros Hts Hnf Hnf32 Hconst Hn Hperm Hsize Hslots Hcounters.
  pose proof (grid_nonneg _ _ Hperm) as Hpos.
  assert (0 ≤ num_functions ≤ kMaxHashFunctions) as Hnf0 by lia.
  assert (n_entries ≤ Z.of_nat (length keys)) as Hkeys by lia.
  pose proof (DistinctSlotCount_bounds kMaxHashFunctions hash_function_inner
                table_size constants num_functions Hnf0 Hconst) as Hbounds.
  rewrite (kernel_spec kMaxHashFunctions hash_function_inner keys n_entries
             table_size constants num_functions Hts Hnf0 Hnf32 Hconst Hkeys
             threads d Hpos).
  2:{ split.
      - intros a Ha. specialize (Hslots a Ha). lia.
      - intros c Hc. specialize (Hcounters c Hc). lia. }
  eexists. split; [reflexivity|]. simpl. split_and!.
  - destruct (num_slots_available d) as [a|]; [|done]. simpl. f_equal.
    specialize (Hslots a eq_refl).
    apply list_eq. intros i. rewrite list_lookup_fmap.
    destruct (keys !! i) as [key|] eqn:Hkey; simpl.
    + apply lookup_lt_Some in Hkey as Hi.
      rewrite (foldl_insert_owned
                 (λ k, Z.max 1 (DistinctSlotCount hash_function_inner
                                  table_size constants num_functions k))
                 keys _ _ _ key).
      * f_equal. specialize (Hbounds key ltac:(lia)). lia.
      * intros t k (_ & Ht & Hk)%elem_of_active. split; [lia|done].
      * lia.
      * apply elem_of_active. split_and!; [|lia..|by rewrite Nat2Z.id].
        rewrite Hperm. apply elem_of_seqZ. lia.
    + apply lookup_ge_None in Hkey. apply lookup_ge_None.
      rewrite length_foldl_insert. lia.
  - intros c Hc. rewrite Hc. simpl. eexists. split; [reflexivity|].
    rewrite length_foldl_bump. by rewrite (Hcounters c Hc).
  - by intros ->.
Qed.

(** The per-slot histogram part of the report returns. *)
Lemma slot_load_histogram_returns (c : list Z) table_size out :
  table_size = Z.of_nat (length c) → 1 ≤ table_size < 2 ^ 31 →
  ∃ out', slot_load_histogram (Some c) table_size out = Ok out'.
Proof.
  intros Hlen Hts. unfold slot_load_histogram. simpl.
  rewrite cudaMemcpy_all by done. simpl.
  pose proof (length_std_sort c) as Hsorted.
  destruct (load_total (std_sort c) 0) as (first & -> & _); [lia|]. simpl.
  destruct (for_range_inv (λ i (s : Z * Z * list message), 1 ≤ s.1.2 ≤ i)
              (slot_load_run (std_sort c)) 1 table_size
              (first, 1,
               out ++ [PrintMessage
                         (sprintf "Num items hashing into a slot:\t" []) None]))
    as ([[previous count] out'] & -> & _); [lia|simpl; lia| |by eexists].
  intros i [[previous count] o] Hi Hcount. simpl in Hcount.
  unfold slot_load_run.
  destruct (load_total (std_sort c) i) as (v & -> & _); [lia|]. simpl.
  destruct (negb (v =? previous)).
  - eexists. split; [reflexivity|]. simpl. lia.
  - unfold incr_int. destruct (Z.ltb_spec count (2 ^ 31 - 1)); [|lia].
    simpl. eexists. split; [reflexivity|]. simpl. lia.
Qed.

(** *** The per-key histogram *)

Lemma key_histogram_text_snoc (values : list Z) i :
  1 ≤ i →
  key_histogram_text values i
  = key_histogram_text values (i - 1)
    ++ [Piece "(%u, %u) " [U i; U (occurrences i values)]].
Proof.
  intros Hi. unfold key_histogram_text.
  replace i with ((i - 1) + 1) at 1 by lia.
  rewrite seqZ_app by lia. rewrite fmap_app, app_comm_cons. f_equal.
  replace (1 + (i - 1)) with i by lia.
  change (seqZ i 1) with [0 + i]. by rewrite Z.add_0_l.
Qed.

Lemma key_histogram_text_mono (values : list Z) i j :
  0 ≤ i ≤ j →
  text_size (key_histogram_text values i)
  ≤ text_size (key_histogram_text values j).
Proof.
  intros Hij. unfold key_histogram_text.
  replace j with (i + (j - i)) by lia.
  rewrite seqZ_app by lia. rewrite fmap_app, app_comm_cons, text_size_app.
  pose proof (text_size_nonneg
                ((λ v, Piece "(%u, %u) " [U v; U (occurrences v values)])
                   <$> seqZ (1 + i) (j - i))).
  lia.
Qed.

Lemma print_bucket_step reads (histogram : list Z) i b :
  print_bucket reads histogram i b
  = c ← load histogram i;
    sprintf_append reads 16000 b "(%u, %u) " [U i; U c].
Proof. reflexivity. Qed.

(** The loop of lines 170-172 on the library that appends: the text grows
    by one bucket in every iteration, and the loop writes past the end of
    the array exactly when the text of all its buckets does not fit. *)
Lemma print_buckets_appending (values : list Z) size steps i :
  1 ≤ i → i + Z.of_nat steps ≤ size →
  text_size (key_histogram_text values (i - 1)) < 16000 →
  for_loop steps i
    (print_bucket appending ((λ v, occurrences v values) <$> seqZ 0 size))
    (key_histogram_text values (i - 1))
  = if text_size (key_histogram_text values (i - 1 + Z.of_nat steps)) <? 16000
    then Ok (key_histogram_text values (i - 1 + Z.of_nat steps))
    else Fault OutOfBounds.
Proof.
  revert i. induction steps as [|steps IH]; intros i Hi Hsize Hfits.
  - simpl. rewrite Z.add_0_r.
    by destruct (Z.ltb_spec (text_size (key_histogram_text values (i - 1)))
                   16000); [|lia].
  - rewrite for_loop_S, print_bucket_step.
    rewrite (load_Ok _ i (occurrences i values)); [|lia|].
    2:{ rewrite list_lookup_fmap, lookup_seqZ_lt by lia. simpl.
        by rewrite Z.add_0_l, Z2Nat.id by lia. }
    simpl. unfold sprintf_append, appending.
    rewrite <- (key_histogram_text_snoc values i) by lia.
    replace (i - 1 + Z.of_nat (S steps)) with (i + 1 - 1 + Z.of_nat steps)
      by lia.
    pose proof (key_histogram_text_mono values i
                  (i + 1 - 1 + Z.of_nat steps) ltac:(lia)) as Hmono.
    destruct (Z.ltb_spec (text_size (key_histogram_text values i)) 16000)
      as [Hstep|Hstep]; simpl.
    + rewrite <- IH by (lia || by replace (i + 1 - 1) with i by lia).
      by replace (i + 1 - 1) with i by lia.
    + by destruct (Z.ltb_spec
                     (text_size
                        (key_histogram_text values
                           (i + 1 - 1 + Z.of_nat steps))) 16000); [lia|].
Qed.

(** Twelve buckets over the counts 1, 2, 1: 28 bytes of header, nine
    buckets of 7 bytes and three of 8. *)
Example key_histogram_text_bytes :
  text_size (key_histogram_text [1; 2; 1] 12) = 115.
Proof. reflexivity. Qed.

(** The per-key part of the report on the library that appends, for a
    histogram of [size] cells, whichever way [size] was fixed: when every
    count has a cell, one bucket for every value of [[1, size - 1]] if the
    text fits its array, and a write past the end of the array if not. *)
Lemma slots_per_key_appending (values : list Z) num_keys kNumHashFunctions
    static_kHistogramSize out size :
  size = match static_kHistogramSize with
         | Some size => size
         | None => u32 (kNumHashFunctions + 1)
         end →
  0 ≤ size →
  num_keys = Z.of_nat (length values) → num_keys < 2 ^ 32 →
  (∀ v, v ∈ values → 0 ≤ v < size) →
  slots_per_key_histogram appending (Some values) num_keys kNumHashFunctions
    static_kHistogramSize out
  = if text_size (key_histogram_text values (size - 1)) <? 16000
    then Ok {| printed :=
                 out ++ [PrintMessage (key_histogram_text values (size - 1))
                           None];
               kHistogramSize := Some size |}
    else Fault OutOfBounds.
Proof.
  intros Hsize Hpos Hn Hn32 Hrange. unfold slots_per_key_histogram.
  simpl. rewrite cudaMemcpy_all by done. simpl. rewrite <- Hsize.
  pose proof (tally_prefix values size num_keys) as Htally.
  rewrite Hn, Nat2Z.id, firstn_all in Htally. rewrite Hn.
  rewrite Htally; [|lia..|done]. simpl.
  destruct (Z.le_gt_cases 1 size) as [Hone|Hzero].
  - unfold for_range.
    change (sprintf "Slots assigned to each key: " [])
      with (key_histogram_text values (1 - 1)).
    rewrite print_buckets_appending by (done || lia).
    replace (1 - 1 + Z.of_nat (Z.to_nat (size - 1))) with (size - 1) by lia.
    by destruct (text_size (key_histogram_text values (size - 1)) <? 16000).
  - rewrite for_range_empty by lia. simpl.
    by replace size with 0 by lia.
Qed.

Lemma slots_per_key_sized (values : list Z) num_keys kNumHashFunctions
    static_kHistogramSize out size :
  size = match static_kHistogramSize with
         | Some size => size
         | None => u32 (kNumHashFunctions + 1)
         end →
  0 ≤ size →
  num_keys = Z.of_nat (length values) → num_keys < 2 ^ 32 →
  (∀ v, v ∈ values → 0 ≤ v < size) →
  text_size (key_histogram_text values (size - 1)) < 16000 →
  slots_per_key_histogram appending (Some values) num_keys kNumHashFunctions
    static_kHistogramSize out
  = Ok {| printed :=
            out ++ [PrintMessage (key_histogram_text values (size - 1)) None];
          kHistogramSize := Some size |}.
Proof.
  intros Hsize Hpos Hn Hn32 Hrange Hfits.
  rewrite (slots_per_key_appending _ _ _ _ _ size) by done.
  by destruct (Z.ltb_spec (text_size (key_histogram_text values (size - 1)))
                 16000); [|lia].
Qed.

(** ... and when some count has no cell, an access past the end of the
    histogram, before any text is built. *)
Lemma slots_per_key_overrun reads (values : list Z) num_keys kNumHashFunctions
    static_kHistogramSize out size :
  size = match static_kHistogramSize with
         | Some size => size
         | None => u32 (kNumHashFunctions + 1)
         end →
  0 ≤ size →
  num_keys = Z.of_nat (length values) → num_keys < 2 ^ 32 →
  (∃ v, v ∈ values ∧ ¬ (0 ≤ v < size)) →
  slots_per_key_histogram reads (Some values) num_keys kNumHashFunctions
    static_kHistogramSize out
  = Fault OutOfBounds.
Proof.
  intros Hsize Hpos Hn Hn32 Hbad. unfold slots_per_key_histogram.
  simpl. rewrite cudaMemcpy_all by done. simpl. rewrite <- Hsize.
  destruct (first_offender (λ v, 0 ≤ v < size) values Hbad)
    as (good & bad & rest & Hsplit & Hgood & Hoff).
  rewrite Hn.
  by rewrite (tally_fault values good rest bad) by (done || lia).
Qed.

(** C6, amended.  With the per-key statistics compiled in, on a C library
    whose [sprintf] appends when it is given its destination as the [%s]
    source, and when the text fits the 16000 bytes of its array, the entry
    point ends its report with the histogram of [DistinctSlotCount] over
    the keys, which has one bucket for every value of
    [[1, num_functions]], in ascending order, each with the number of keys
    of that count: values that no key has are printed too, with the count
    zero.  (Stated for a call that finds [kHistogramSize] uninitialised or
    equal to [num_functions + 1], and for inputs within the contract of
    the kernel.) *)
Theorem key_histogram_is_dense
    kMaxHashFunctions hash_function_inner sw static_kHistogramSize threads size
    num_keys d_keys table_size constants kNumHashFunctions :
  COUNT_HOW_MANY_HAVE_CYCLES sw = true →
  (COUNT_HOW_MANY_HASH_INTO_EACH_SLOT sw = true → table_size < 2 ^ 31) →
  static_kHistogramSize = None
  ∨ static_kHistogramSize = Some (kNumHashFunctions + 1) →
  1 ≤ table_size →
  1 ≤ kNumHashFunctions ≤ kMaxHashFunctions →
  kNumHashFunctions + 1 < 2 ^ 32 →
  kNumHashFunctions ≤ Z.of_nat (length constants) →
  num_keys = Z.of_nat (length d_keys) → num_keys < 2 ^ 32 →
  threads ≡ₚ grid size → num_keys ≤ size →
  text_size
    (key_histogram_text
       (DistinctSlotCount hash_function_inner table_size constants
          kNumHashFunctions <$> d_keys) kNumHashFunctions) < 16000 →
  ∃ before,
    TakeHashFunctionStatistics appending kMaxHashFunctions hash_function_inner
      sw static_kHistogramSize threads num_keys d_keys table_size constants
      kNumHashFunctions
    = Ok {| printed :=
              before
              ++ [PrintMessage
                    (Piece "Slots assigned to each key: " []
                     :: ((λ v, Piece "(%u, %u) "
                                 [U v;
                                  U (occurrences v
                                       (DistinctSlotCount hash_function_inner
                                          table_size constants
                                          kNumHashFunctions <$> d_keys))])
                           <$> seqZ 1 kNumHashFunctions)) None];
            kHistogramSize := Some (kNumHashFunctions + 1) |}.
Proof.
  intros Hcycles Hloads Hstatic Hts Hnf Hnf32 Hconst Hn Hn32 Hperm Hsize Hfits.
  unfold TakeHashFunctionStatistics.
  destruct (for_range_total (print_constant constants) 0 kNumHashFunctions
              [PrintMessage (sprintf "Hash function constants: " []) None])
    as (out1 & ->).
  { intros j o Hj. unfold print_constant.
    destruct (load_total constants j) as (c & -> & _); [lia|]. by eexists. }
  simpl. unfold TakeHashFunctionStatistics_launch.
  rewrite cudaMemcpy_prefix by lia. simpl.
  destruct (launch_result kMaxHashFunctions hash_function_inner d_keys num_keys
              table_size (take (Z.to_nat kNumHashFunctions) constants)
              kNumHashFunctions threads size
              (host_buffers sw num_keys table_size))
    as (d' & -> & Hcounts & Hsome & Hnone);
    [done|done|lia| |done|done|done| | |].
  { rewrite length_take. lia. }
  { unfold host_buffers. simpl. rewrite Hcycles. intros a [= <-].
    rewrite length_replicate. lia. }
  { unfold host_buffers. simpl.
    destruct (COUNT_HOW_MANY_HASH_INTO_EACH_SLOT sw); intros c [= <-].
    rewrite length_replicate. lia. }
  simpl. unfold host_buffers in Hcounts, Hsome. simpl in Hcounts, Hsome.
  rewrite Hcycles in Hcounts. simpl in Hcounts.
  assert (∃ out2,
            (if COUNT_HOW_MANY_HASH_INTO_EACH_SLOT sw
             then slot_load_histogram (num_hashing_in d') table_size out1
             else Ok out1) = Ok out2) as [out2 ->].
  { destruct (COUNT_HOW_MANY_HASH_INTO_EACH_SLOT sw); [|by eexists].
    destruct (Hsome _ eq_refl) as (c' & -> & Hlen).
    apply slot_load_histogram_returns; [done|]. split; [done|by apply Hloads]. }
  assert (DistinctSlotCount hash_function_inner table_size
            (take (Z.to_nat kNumHashFunctions) constants) kNumHashFunctions
            <$> d_keys
          = DistinctSlotCount hash_function_inner table_size constants
              kNumHashFunctions <$> d_keys) as Hsame.
  { apply list_fmap_ext. intros _ key _. apply DistinctSlotCount_take. }
  rewrite Hsame in Hcounts.
  simpl. rewrite Hcycles, Hcounts.
  exists out2.
  rewrite (slots_per_key_sized _ _ _ _ _ (kNumHashFunctions + 1)).
  - by replace (kNumHashFunctions + 1 - 1) with kNumHashFunctions by lia.
  - destruct Hstatic as [-> | ->]; [by rewrite u32_small by lia|done].
  - lia.
  - by rewrite length_fmap.
  - done.
  - intros v (key & -> & _)%list_elem_of_fmap.
    pose proof (DistinctSlotCount_bounds kMaxHashFunctions hash_function_inner
                  table_size constants kNumHashFunctions ltac:(lia) Hconst key
                  ltac:(lia)).
    lia.
  - by replace (kNumHashFunctions + 1 - 1) with kNumHashFunctions by lia.
Qed.

Lemma key_histogram_is_dense_witness :
  ∃ before,
    TakeHashFunctionStatistics appending 5 scenario_hash
      {| COUNT_HOW_MANY_HASH_INTO_EACH_SLOT := true;
         COUNT_HOW_MANY_HAVE_CYCLES := true |}
      None (grid 4) 3 scenario_keys 10 scenario_constants 2
    = Ok {| printed :=
              before
              ++ [PrintMessage
                    (Piece "Slots assigned to each key: " []
                     :: ((λ v, Piece "(%u, %u) "
                                 [U v;
                                  U (occurrences v
                                       (DistinctSlotCount scenario_hash 10
                                          scenario_constants 2
                                          <$> scenario_keys))])
                           <$> seqZ 1 2)) None];
            kHistogramSize := Some (2 + 1) |}.
Proof.
  apply (key_histogram_is_dense 5 scenario_hash _ None (grid 4) 4 3
           scenario_keys 10 scenario_constants 2);
    try reflexivity; simpl; try lia.
  by left.
Defined.

(** C6 as stated fails: a single key whose two hash functions agree has one
    distinct slot, and the bucket of the value 2, which no key has, is
    printed with the count zero.  That holds on both libraries: the
    appending one prints both buckets, the fortified one the last bucket
    alone. *)
Lemma key_histogram_prints_empty_bucket :
  DistinctSlotCount scenario_hash 10 scenario_constants 2 5 = 1
  ∧ TakeHashFunctionStatistics appending 5 scenario_hash
      {| COUNT_HOW_MANY_HASH_INTO_EACH_SLOT := false;
         COUNT_HOW_MANY_HAVE_CYCLES := true |}
      None (grid 1) 1 [5] 10 scenario_constants 2
    = Ok {| printed :=
              [PrintMessage [Piece "Hash function constants: " []] None;
               PrintMessage [Piece "\t%10u, %10u" [U 20; U 0]] None;
               PrintMessage [Piece "\t%10u, %10u" [U 10; U 0]] None;
               PrintMessage
                 [Piece "Slots assigned to each key: " [];
                  Piece "(%u, %u) " [U 1; U 1];
                  Piece "(%u, %u) " [U 2; U 0]] None];
            kHistogramSize := Some 3 |}
  ∧ TakeHashFunctionStatistics fortified 5 scenario_hash
      {| COUNT_HOW_MANY_HASH_INTO_EACH_SLOT := false;
         COUNT_HOW_MANY_HAVE_CYCLES := true |}
      None (grid 1) 1 [5] 10 scenario_constants 2
    = Ok {| printed :=
              [PrintMessage [Piece "Hash function constants: " []] None;
               PrintMessage [Piece "\t%10u, %10u" [U 20; U 0]] None;
               PrintMessage [Piece "\t%10u, %10u" [U 10; U 0]] None;
               PrintMessage [Piece "(%u, %u) " [U 2; U 0]] None];
            kHistogramSize := Some 3 |}.
Proof. split_and!; vm_compute; reflexivity. Qed.

(** * Further properties of the kernel *)

(** ** A launch in closed form *)

Lemma bump_comm (counters : list Z) s t :
  bump (bump counters s) t = bump (bump counters t) s.
Proof.
  unfold bump. destruct (decide (Z.to_nat t = Z.to_nat s)) as [->|Hne]; [done|].
  by apply list_alter_alter_ne.
Qed.

(** The order of the increments is immaterial. *)
Lemma foldl_bump_Permutation (slots1 slots2 counters : list Z) :
  slots1 ≡ₚ slots2 → foldl bump counters slots1 = foldl bump counters slots2.
Proof.
  intros Hperm. revert counters.
  induction Hperm as [|s l1 l2 _ IH|s t l|l1 l2 l3 _ IH1 _ IH2]; intros counters.
  - done.
  - simpl. apply IH.
  - simpl. by rewrite bump_comm.
  - by rewrite IH1.
Qed.

Lemma forallb_Permutation {A} (f : A → bool) (l1 l2 : list A) :
  l1 ≡ₚ l2 → forallb f l1 = forallb f l2.
Proof.
  induction 1 as [|a l1 l2 _ IH|a b l|l1 l2 l3 _ IH1 _ IH2]; simpl.
  - done.
  - by rewrite IH.
  - by destruct (f a), (f b).
  - by rewrite IH1.
Qed.

(** In index order, the threads that own a key are paired with the keys in
    order. *)
Lemma active_grid_prefix keys n (m : nat) :
  Z.of_nat m ≤ n → n ≤ Z.of_nat (length keys) →
  (active keys n (seqZ 0 (Z.of_nat m))).*2 = take m keys.
Proof.
  intros Hm Hn. induction m as [|m IH]; [done|].
  rewrite seqZ_S. unfold active in *. rewrite omap_app, fmap_app, IH by lia.
  destruct (lookup_lt_is_Some_2 keys m) as [key Hkey]; [lia|].
  rewrite (take_S_r _ _ key) by done. f_equal.
  rewrite Z.add_0_l. simpl. rewrite bool_decide_eq_true_2 by lia.
  by rewrite Nat2Z.id, Hkey.
Qed.

Lemma active_keys keys n threads size :
  threads ≡ₚ grid size → n = Z.of_nat (length keys) → n ≤ size →
  (active keys n threads).*2 ≡ₚ keys.
Proof.
  intros Hperm -> Hsize. set (n := Z.of_nat (length keys)) in *.
  unfold active. rewrite Hperm. unfold grid.
  replace size with (n + (size - n)) by lia.
  rewrite seqZ_app by lia. rewrite omap_app, fmap_app.
  rewrite (omap_all_None _ (seqZ (0 + n) _)).
  - rewrite app_nil_r.
    pose proof (active_grid_prefix keys n (length keys)) as Hprefix.
    unfold active in Hprefix. fold n in Hprefix.
    rewrite Hprefix by lia. by rewrite firstn_all.
  - intros t Ht%elem_of_seqZ. rewrite bool_decide_eq_false_2; [done|lia].
Qed.

Lemma bind_fmap_snd {B} (f : Z → list B) (l : list (Z * Z)) :
  l ≫= (λ tk, f tk.2) = l.*2 ≫= f.
Proof. induction l as [|tk l IH]; [done|]. by rewrite fmap_cons, !bind_cons, IH. Qed.

Lemma forallb_fmap_snd (f : Z → bool) (l : list (Z * Z)) :
  forallb (λ tk, f tk.2) l = forallb f l.*2.
Proof. induction l as [|tk l IH]; [done|]. simpl. by rewrite IH. Qed.

(** The buffers after a launch over all keys, in terms of the keys alone:
    the threads of the schedule and their order do not occur. *)
Lemma launch_closed_form
    kMaxHashFunctions hash_function_inner keys n_entries table_size constants
    num_functions threads size (d : device) :
  1 ≤ table_size →
  0 ≤ num_functions ≤ kMaxHashFunctions →
  num_functions < 2 ^ 32 →
  num_functions ≤ Z.of_nat (length constants) →
  n_entries = Z.of_nat (length keys) →
  threads ≡ₚ grid size → n_entries ≤ size →
  (∀ a, num_slots_available d = Some a → n_entries = Z.of_nat (length a)) →
  (∀ c, num_hashing_in d = Some c → table_size ≤ Z.of_nat (length c)) →
  take_hash_function_statistics kMaxHashFunctions hash_function_inner keys
    n_entries table_size constants num_functions threads d
  = Ok {| num_slots_available :=
            (λ _, (λ key, Z.max 1 (DistinctSlotCount hash_function_inner
                                     table_size constants num_functions key))
                    <$> keys) <$> num_slots_available d;
          num_hashing_in :=
            (λ c, foldl bump c
                    (keys ≫= slot_sequence hash_function_inner table_size
                               constants num_functions))
              <$> num_hashing_in d;
          failed :=
            (λ f, if forallb
                       (λ key, Z.max 1 (DistinctSlotCount hash_function_inner
                                          table_size constants num_functions
                                          key) =? num_functions) keys
                  then f else 1) <$> failed d |}.
Proof.
  intros Hts Hnf Hnf32 Hconst Hn Hperm Hsize Hslots Hcounters.
  pose proof (grid_nonneg _ _ Hperm) as Hpos.
  assert (n_entries ≤ Z.of_nat (length keys)) as Hkeys by lia.
  pose proof (active_keys keys n_entries threads size Hperm Hn Hsize) as Hactive.
  rewrite (kernel_spec kMaxHashFunctions hash_function_inner keys n_entries
             table_size constants num_functions Hts Hnf Hnf32 Hconst Hkeys
             threads d Hpos).
  2:{ split; [|done]. intros a Ha. specialize (Hslots a Ha). lia. }
  f_equal. f_equal.
  - destruct (num_slots_available d) as [a|]; [|done]. simpl. f_equal.
    specialize (Hslots a eq_refl).
    apply list_eq. intros i. rewrite list_lookup_fmap.
    destruct (keys !! i) as [key|] eqn:Hkey; simpl.
    + apply lookup_lt_Some in Hkey as Hi.
      apply (foldl_insert_owned
               (λ k, Z.max 1 (DistinctSlotCount hash_function_inner
                                table_size constants num_functions k)) keys).
      * intros t k (_ & Ht & Hk)%elem_of_active. split; [lia|done].
      * lia.
      * apply elem_of_active. split_and!; [|lia..|by rewrite Nat2Z.id].
        rewrite Hperm. apply elem_of_seqZ. lia.
    + apply lookup_ge_None in Hkey. apply lookup_ge_None.
      rewrite length_foldl_insert. lia.
  - destruct (num_hashing_in d) as [c|]; [|done]. simpl. f_equal.
    rewrite (bind_fmap_snd (slot_sequence hash_function_inner table_size
                              constants num_functions)).
    apply foldl_bump_Permutation. by rewrite Hactive.
  - destruct (failed d) as [f|]; [|done]. simpl. f_equal.
    rewrite (forallb_fmap_snd
               (λ key, Z.max 1 (DistinctSlotCount hash_function_inner
                                  table_size constants num_functions key)
                       =? num_functions)).
    by rewrite (forallb_Permutation _ _ _ Hactive).
Qed.

(** A key cannot have more distinct slots than the table has slots. *)
Lemma DistinctSlotCount_le_table hash_function_inner table_size constants
    num_functions key :
  1 ≤ table_size →
  DistinctSlotCount hash_function_inner table_size constants num_functions key
  ≤ table_size.
Proof.
  intros Hts. unfold DistinctSlotCount, candidate_slots.
  assert (list_to_set (slot_sequence hash_function_inner table_size constants
                         num_functions key)
          ⊆@{gset Z} list_to_set (seqZ 0 table_size)) as Hsub.
  { intros s Hs%elem_of_list_to_set. apply elem_of_list_to_set, elem_of_seqZ.
    apply (slots_range hash_function_inner table_size constants num_functions
             Hts key) in Hs. lia. }
  apply subseteq_size in Hsub.
  rewrite (size_list_to_set (seqZ 0 table_size)) in Hsub by apply NoDup_seqZ.
  rewrite length_seqZ in Hsub. lia.
Qed.

(** ** The sum of the slot counters *)

(** The per-slot counters after a launch over all keys, from counters that
    start at zero: cell by cell the true tallies modulo [2^32], and the
    true tallies add up to [n_entries * num_functions]. *)
Lemma slot_load_tallies
    kMaxHashFunctions hash_function_inner keys n_entries table_size constants
    num_functions threads size (d : device) :
  1 ≤ table_size →
  0 ≤ num_functions ≤ kMaxHashFunctions →
  num_functions < 2 ^ 32 →
  num_functions ≤ Z.of_nat (length constants) →
  n_entries = Z.of_nat (length keys) →
  threads ≡ₚ grid size → n_entries ≤ size →
  (∀ a, num_slots_available d = Some a → n_entries ≤ Z.of_nat (length a)) →
  num_hashing_in d = Some (replicate (Z.to_nat table_size) 0) →
  ∃ d' tallies,
    take_hash_function_statistics kMaxHashFunctions hash_function_inner keys
      n_entries table_size constants num_functions threads d = Ok d'
    ∧ num_hashing_in d' = Some (u32 <$> tallies)
    ∧ Z.of_nat (length tallies) = table_size
    ∧ Forall (λ u, 0 ≤ u) tallies
    ∧ sumZ tallies = n_entries * num_functions.
Proof.
  intros Hts Hnf Hnf32 Hconst Hn Hperm Hsize Hslots Hcounters.
  pose proof (grid_nonneg _ _ Hperm) as Hpos.
  assert (n_entries ≤ Z.of_nat (length keys)) as Hkeys by lia.
  rewrite (kernel_spec kMaxHashFunctions hash_function_inner keys n_entries
             table_size constants num_functions Hts Hnf Hnf32 Hconst Hkeys
             threads d Hpos).
  2:{ split; [done|]. intros c Hc. rewrite Hcounters in Hc.
      injection Hc as <-. rewrite length_replicate. lia. }
  rewrite Hcounters. simpl.
  set (all_slots := active keys n_entries threads ≫= _).
  assert (∀ s, s ∈ all_slots → 0 ≤ s < table_size) as Hrange.
  { intros s ([t key] & Hs & _)%list_elem_of_bind.
    by apply (slots_range hash_function_inner table_size constants
                num_functions Hts key). }
  assert (Z.of_nat (length all_slots) = n_entries * num_functions) as Hlength.
  { unfold all_slots. rewrite (length_bind_const _ _ (Z.to_nat num_functions)).
    - pose proof (length_active keys n_entries threads size Hperm) as Hactive.
      rewrite Nat2Z.inj_mul, Hactive by lia. lia.
    - intros [t key] _.
      pose proof (length_slots kMaxHashFunctions hash_function_inner table_size
                    constants num_functions Hnf Hconst key). simpl. lia. }
  eexists _, ((λ j, occurrences j all_slots) <$> seqZ 0 table_size).
  split; [reflexivity|]. simpl. split_and!.
  - f_equal. rewrite foldl_bump_zero; [|lia|].
    + by rewrite <- list_fmap_compose.
    + apply Forall_forall. intros s Hs%Hrange. lia.
  - rewrite length_fmap, length_seqZ. lia.
  - apply Forall_fmap, Forall_forall. intros j _. simpl.
    apply occurrences_bounds.
  - rewrite sumZ_occurrences; [done|apply NoDup_seqZ|].
    intros s Hs%Hrange. apply elem_of_seqZ. lia.
Qed.

Lemma sumZ_u32_le (l : list Z) :
  Forall (λ t, 0 ≤ t) l → sumZ (u32 <$> l) ≤ sumZ l.
Proof.
  induction 1 as [|a l Ha _ IH]; [done|].
  rewrite fmap_cons, !sumZ_cons.
  pose proof (Z.mod_le a (2 ^ 32) Ha ltac:(lia)). unfold u32 at 1. lia.
Qed.

(** Counters that add up to the sum of their true tallies have not
    wrapped. *)
Lemma sumZ_u32_eq (l : list Z) :
  Forall (λ t, 0 ≤ t) l → sumZ (u32 <$> l) = sumZ l →
  Forall (λ t, t < 2 ^ 32) l.
Proof.
  induction 1 as [|a l Ha Hl IH]; [done|].
  rewrite fmap_cons, !sumZ_cons. intros Hsum.
  pose proof (Z.mod_le a (2 ^ 32) Ha ltac:(lia)) as Hle.
  pose proof (sumZ_u32_le l Hl) as Hrest.
  pose proof (u32_range a) as Hrange. unfold u32 in *.
  constructor; [lia|]. apply IH. lia.
Qed.

(** C3, amended.  With per-slot counting enabled and all counters at zero,
    a launch over all keys leaves in the counter of each slot the number
    of increments the slot received, modulo [2^32]; the sum of the
    counters over the [table_size] slots is [n_entries * num_functions]
    exactly when no slot received [2^32] increments or more, so that no
    32-bit counter wrapped. *)
Theorem slot_load_sum
    kMaxHashFunctions hash_function_inner keys n_entries table_size constants
    num_functions threads size (d : device) :
  1 ≤ table_size →
  0 ≤ num_functions ≤ kMaxHashFunctions →
  num_functions < 2 ^ 32 →
  num_functions ≤ Z.of_nat (length constants) →
  n_entries = Z.of_nat (length keys) →
  threads ≡ₚ grid size → n_entries ≤ size →
  (∀ a, num_slots_available d = Some a → n_entries ≤ Z.of_nat (length a)) →
  num_hashing_in d = Some (replicate (Z.to_nat table_size) 0) →
  ∃ d' counters,
    take_hash_function_statistics kMaxHashFunctions hash_function_inner keys
      n_entries table_size constants num_functions threads d = Ok d'
    ∧ num_hashing_in d' = Some counters
    ∧ Z.of_nat (length counters) = table_size
    ∧ counters
      = (λ slot,
           u32 (occurrences slot
                  (keys ≫= slot_sequence hash_function_inner table_size
                             constants num_functions)))
          <$> seqZ 0 table_size
    ∧ (sumZ counters = n_entries * num_functions
       ↔ ∀ slot,
           occurrences slot
             (keys ≫= slot_sequence hash_function_inner table_size constants
                        num_functions) < 2 ^ 32).
Proof.
  intros Hts Hnf Hnf32 Hconst Hn Hperm Hsize Hslots Hcounters.
  pose proof (grid_nonneg _ _ Hperm) as Hpos.
  assert (n_entries ≤ Z.of_nat (length keys)) as Hkeys by lia.
  pose proof (active_keys keys n_entries threads size Hperm Hn Hsize) as Hactive.
  rewrite (kernel_spec kMaxHashFunctions hash_function_inner keys n_entries
             table_size constants num_functions Hts Hnf Hnf32 Hconst Hkeys
             threads d Hpos).
  2:{ split; [done|]. intros c Hc. rewrite Hcounters in Hc.
      injection Hc as <-. rewrite length_replicate. lia. }
  rewrite Hcounters. simpl.
  set (all_slots := keys ≫= slot_sequence hash_function_inner table_size
                              constants num_functions).
  assert (∀ s, s ∈ all_slots → 0 ≤ s < table_size) as Hrange.
  { intros s (key & Hs & _)%list_elem_of_bind.
    by apply (slots_range hash_function_inner table_size constants
                num_functions Hts key). }
  assert (Z.of_nat (length all_slots) = n_entries * num_functions) as Hlength.
  { unfold all_slots. rewrite (length_bind_const _ _ (Z.to_nat num_functions)).
    - rewrite Nat2Z.inj_mul. lia.
    - intros key _.
      pose proof (length_slots kMaxHashFunctions hash_function_inner table_size
                    constants num_functions Hnf Hconst key). lia. }
  set (tallies := (λ slot, occurrences slot all_slots) <$> seqZ 0 table_size).
  assert (sumZ tallies = n_entries * num_functions) as Hsum.
  { unfold tallies. rewrite sumZ_occurrences; [done|apply NoDup_seqZ|].
    intros s Hs%Hrange. apply elem_of_seqZ. lia. }
  assert (Forall (λ t, 0 ≤ t) tallies) as Hnonneg.
  { apply Forall_fmap, Forall_forall. intros slot _. simpl.
    apply occurrences_bounds. }
  eexists _, (u32 <$> tallies). split; [reflexivity|]. simpl. split_and!.
  - f_equal.
    rewrite (bind_fmap_snd (slot_sequence hash_function_inner table_size
                              constants num_functions)).
    rewrite (foldl_bump_Permutation _ all_slots) by by rewrite Hactive.
    rewrite foldl_bump_zero; [|lia|].
    + unfold tallies. by rewrite <- list_fmap_compose.
    + apply Forall_forall. intros s Hs%Hrange. lia.
  - unfold tallies. rewrite !length_fmap, length_seqZ. lia.
  - unfold tallies. by rewrite <- list_fmap_compose.
  - rewrite <- Hsum. split.
    + intros Heq slot.
      destruct (decide (0 ≤ slot < table_size)) as [Hslot|Hslot].
      * pose proof (sumZ_u32_eq tallies Hnonneg Heq) as Hsmall.
        rewrite Forall_forall in Hsmall. apply Hsmall.
        apply list_elem_of_fmap. exists slot. split; [done|].
        apply elem_of_seqZ. lia.
      * rewrite occurrences_not_elem; [lia|]. by intros ?%Hrange.
    + intros Hsmall. f_equal. rewrite <- (list_fmap_id tallies) at 2.
      apply list_fmap_ext. intros i t Ht. apply u32_small.
      apply list_elem_of_lookup_2 in Ht. unfold tallies in Ht.
      apply list_elem_of_fmap in Ht as (slot & -> & _).
      pose proof (occurrences_bounds slot all_slots).
      specialize (Hsmall slot). unfold id. lia.
Qed.

Lemma slot_load_sum_witness :
  ∃ d' counters,
    take_hash_function_statistics 5 scenario_hash scenario_keys 3 10
      scenario_constants 2 (grid 4)
      {| num_slots_available := None;
         num_hashing_in := Some (replicate (Z.to_nat 10) 0);
         failed := None |} = Ok d'
    ∧ num_hashing_in d' = Some counters
    ∧ Z.of_nat (length counters) = 10
    ∧ counters
      = (λ slot,
           u32 (occurrences slot
                  (scenario_keys ≫= slot_sequence scenario_hash 10
                                      scenario_constants 2)))
          <$> seqZ 0 10
    ∧ (sumZ counters = 3 * 2
       ↔ ∀ slot,
           occurrences slot
             (scenario_keys ≫= slot_sequence scenario_hash 10
                                 scenario_constants 2) < 2 ^ 32).
Proof.
  apply (slot_load_sum 5 scenario_hash scenario_keys 3 10 scenario_constants 2
           (grid 4) 4);
    try reflexivity; simpl; try lia.
  intros a [=].
Defined.

(** C3 as stated fails once a counter wraps: [2^31] equal keys, two hash
    functions and a table of one slot give [2^32] increments of the single
    counter, which ends at zero. *)
Lemma slot_load_sum_wraps :
  ∃ d' counters,
    take_hash_function_statistics 5 scenario_hash
      (replicate (Z.to_nat (2 ^ 31)) 7) (2 ^ 31) 1 scenario_constants 2
      (grid (2 ^ 31))
      {| num_slots_available := None; num_hashing_in := Some [0];
         failed := None |} = Ok d'
    ∧ num_hashing_in d' = Some counters
    ∧ sumZ counters = 0
    ∧ sumZ counters ≠ 2 ^ 31 * 2.
Proof.
  destruct (slot_load_tallies 5 scenario_hash
              (replicate (Z.to_nat (2 ^ 31)) 7) (2 ^ 31) 1 scenario_constants 2
              (grid (2 ^ 31)) (2 ^ 31)
              {| num_slots_available := None; num_hashing_in := Some [0];
                 failed := None |})
    as (d' & tallies & Hrun & Hd' & Hlen & Hpos & Hsum).
  - lia.
  - lia.
  - lia.
  - unfold scenario_constants. cbn [length]. lia.
  - rewrite length_replicate. rewrite Z2Nat.id; lia.
  - reflexivity.
  - lia.
  - intros a [=].
  - reflexivity.
  - destruct tallies as [|t [|? ?]]; cbn [length] in Hlen; try lia.
    rewrite sumZ_cons in Hsum. change (sumZ []) with 0 in Hsum.
    assert (t = 2 ^ 32) as -> by lia.
    exists d', [0]. split; [exact Hrun|]. split; [exact Hd'|].
    split; [reflexivity|]. change (sumZ [0]) with 0. lia.
Qed.

(** ** Schedules *)

(** X1. The buffers after a launch do not depend on the order in which the
    threads run, nor on how many threads the grid has beyond the keys: two
    launches over arrangements of grids that cover the keys return the same
    buffers. *)
Theorem launch_order_independent
    kMaxHashFunctions hash_function_inner keys n_entries table_size constants
    num_functions threads1 threads2 size1 size2 (d : device) :
  1 ≤ table_size →
  0 ≤ num_functions ≤ kMaxHashFunctions →
  num_functions < 2 ^ 32 →
  num_functions ≤ Z.of_nat (length constants) →
  n_entries = Z.of_nat (length keys) →
  threads1 ≡ₚ grid size1 → n_entries ≤ size1 →
  threads2 ≡ₚ grid size2 → n_entries ≤ size2 →
  (∀ a, num_slots_available d = Some a → n_entries = Z.of_nat (length a)) →
  (∀ c, num_hashing_in d = Some c → table_size ≤ Z.of_nat (length c)) →
  ∃ d',
    take_hash_function_statistics kMaxHashFunctions hash_function_inner keys
      n_entries table_size constants num_functions threads1 d = Ok d'
    ∧ take_hash_function_statistics kMaxHashFunctions hash_function_inner keys
        n_entries table_size constants num_functions threads2 d = Ok d'.
Proof.
  intros Hts Hnf Hnf32 Hconst Hn Hperm1 Hsize1 Hperm2 Hsize2 Hslots Hcounters.
  eexists. split.
  - by apply (launch_closed_form _ _ _ _ _ _ _ threads1 size1).
  - by apply (launch_closed_form _ _ _ _ _ _ _ threads2 size2).
Qed.

Lemma launch_order_independent_witness :
  ∃ d',
    take_hash_function_statistics 5 scenario_hash scenario_keys 3 10
      scenario_constants 2 [2; 0; 3; 1]
      {| num_slots_available := Some [0; 0; 0];
         num_hashing_in := Some (replicate 10 0);
         failed := Some 0 |} = Ok d'
    ∧ take_hash_function_statistics 5 scenario_hash scenario_keys 3 10
        scenario_constants 2 [4; 1; 0; 2; 3]
        {| num_slots_available := Some [0; 0; 0];
           num_hashing_in := Some (replicate 10 0);
           failed := Some 0 |} = Ok d'.
Proof.
  apply (launch_order_independent 5 scenario_hash scenario_keys 3 10
           scenario_constants 2 [2; 0; 3; 1] [4; 1; 0; 2; 3] 4 5);
    try reflexivity; simpl; try lia.
  - by apply (bool_decide_unpack _).
  - by apply (bool_decide_unpack _).
  - intros a [= <-]. reflexivity.
  - intros c [= <-]. simpl. lia.
Defined.

(** X2. A thread whose index is not below [n_entries] does nothing: a
    launch behaves as the launch of those of its threads that own a key. *)
Theorem launch_ignores_idle_threads
    kMaxHashFunctions hash_function_inner keys n_entries table_size constants
    num_functions threads (d : device) :
  take_hash_function_statistics kMaxHashFunctions hash_function_inner keys
    n_entries table_size constants num_functions threads d
  = take_hash_function_statistics kMaxHashFunctions hash_function_inner keys
      n_entries table_size constants num_functions
      (filter (λ t, t < n_entries) threads) d.
Proof.
  revert d. induction threads as [|t threads IH]; intros d; [done|].
  destruct (decide (t < n_entries)) as [Hlt|Hge].
  - rewrite filter_cons_True by done. simpl.
    destruct (take_hash_function_statistics_thread _ _ _ _ _ _ _ t d);
      [apply IH|done].
  - rewrite filter_cons_False by done. simpl.
    rewrite thread_idle by lia. apply IH.
Qed.

(** ** What a launch computes *)

(** X3. After a launch over all keys, in any order, the cell of each key in
    [num_slots_available] holds the number of distinct slots of that key,
    which is at least 1 and at most both [num_functions] and
    [table_size]. *)
Theorem launch_counts_distinct_slots
    kMaxHashFunctions hash_function_inner keys n_entries table_size constants
    num_functions threads size (d : device) a :
  1 ≤ table_size →
  1 ≤ num_functions ≤ kMaxHashFunctions →
  num_functions < 2 ^ 32 →
  num_functions ≤ Z.of_nat (length constants) →
  n_entries = Z.of_nat (length keys) →
  threads ≡ₚ grid size → n_entries ≤ size →
  num_slots_available d = Some a → n_entries = Z.of_nat (length a) →
  (∀ c, num_hashing_in d = Some c → table_size ≤ Z.of_nat (length c)) →
  ∃ d',
    take_hash_function_statistics kMaxHashFunctions hash_function_inner keys
      n_entries table_size constants num_functions threads d = Ok d'
    ∧ num_slots_available d'
      = Some (DistinctSlotCount hash_function_inner table_size constants
                num_functions <$> keys)
    ∧ Forall (λ count, 1 ≤ count ≤ Z.min num_functions table_size)
        (DistinctSlotCount hash_function_inner table_size constants
           num_functions <$> keys).
Proof.
  intros Hts Hnf Hnf32 Hconst Hn Hperm Hsize Ha Hlen Hcounters.
  assert (∀ key,
            1 ≤ DistinctSlotCount hash_function_inner table_size constants
                  num_functions key ≤ Z.min num_functions table_size) as Hb.
  { intros key.
    pose proof (DistinctSlotCount_bounds kMaxHashFunctions hash_function_inner
                  table_size constants num_functions ltac:(lia) Hconst key
                  ltac:(lia)).
    pose proof (DistinctSlotCount_le_table hash_function_inner table_size
                  constants num_functions key Hts). lia. }
  eexists. split; [|split].
  - apply (launch_closed_form _ _ _ _ _ _ _ threads size); try done; [lia|].
    intros a' Ha'. congruence.
  - simpl. rewrite Ha. simpl. f_equal. apply list_fmap_ext.
    intros _ key _. specialize (Hb key). lia.
  - apply Forall_fmap, Forall_forall. intros key _. apply Hb.
Qed.

Lemma launch_counts_distinct_slots_witness :
  ∃ d',
    take_hash_function_statistics 5 scenario_hash scenario_keys 3 10
      scenario_constants 2 (grid 4)
      {| num_slots_available := Some [0; 0; 0]; num_hashing_in := None;
         failed := None |} = Ok d'
    ∧ num_slots_available d'
      = Some (DistinctSlotCount scenario_hash 10 scenario_constants 2
                <$> scenario_keys)
    ∧ Forall (λ count, 1 ≤ count ≤ Z.min 2 10)
        (DistinctSlotCount scenario_hash 10 scenario_constants 2
           <$> scenario_keys).
Proof.
  apply (launch_counts_distinct_slots 5 scenario_hash scenario_keys 3 10
           scenario_constants 2 (grid 4) 4 _ [0; 0; 0]);
    try reflexivity; simpl; try lia.
  intros c [=].
Defined.

(** X4. After a launch over all keys from counters at zero, the counter of
    a slot holds, modulo [2^32], the number of pairs of a key and a hash
    function that hash into the slot: a key whose functions agree on a slot
    is counted once per function. *)
Theorem launch_counts_slot_loads
    kMaxHashFunctions hash_function_inner keys n_entries table_size constants
    num_functions threads size (d : device) :
  1 ≤ table_size →
  0 ≤ num_functions ≤ kMaxHashFunctions →
  num_functions < 2 ^ 32 →
  num_functions ≤ Z.of_nat (length constants) →
  n_entries = Z.of_nat (length keys) →
  threads ≡ₚ grid size → n_entries ≤ size →
  (∀ a, num_slots_available d = Some a → n_entries = Z.of_nat (length a)) →
  num_hashing_in d = Some (replicate (Z.to_nat table_size) 0) →
  ∃ d',
    take_hash_function_statistics kMaxHashFunctions hash_function_inner keys
      n_entries table_size constants num_functions threads d = Ok d'
    ∧ num_hashing_in d'
      = Some ((λ slot,
                 u32 (occurrences slot
                        (keys ≫= slot_sequence hash_function_inner table_size
                                   constants num_functions)))
                <$> seqZ 0 table_size).
Proof.
  intros Hts Hnf Hnf32 Hconst Hn Hperm Hsize Hslots Hcounters.
  eexists. split.
  - apply (launch_closed_form _ _ _ _ _ _ _ threads size); try done.
    intros c Hc. rewrite Hcounters in Hc. injection Hc as <-.
    rewrite length_replicate. lia.
  - simpl. rewrite Hcounters. simpl. f_equal.
    apply foldl_bump_zero; [lia|].
    apply Forall_forall. intros s (key & Hs & _)%list_elem_of_bind.
    apply (slots_range hash_function_inner table_size constants num_functions
             Hts key) in Hs. lia.
Qed.

Lemma launch_counts_slot_loads_witness :
  ∃ d',
    take_hash_function_statistics 5 scenario_hash scenario_keys 3 10
      scenario_constants 2 (grid 4)
      {| num_slots_available := None;
         num_hashing_in := Some (replicate (Z.to_nat 10) 0);
         failed := None |} = Ok d'
    ∧ num_hashing_in d'
      = Some ((λ slot,
                 u32 (occurrences slot
                        (scenario_keys
                           ≫= slot_sequence scenario_hash 10
                                scenario_constants 2)))
                <$> seqZ 0 10).
Proof.
  apply (launch_counts_slot_loads 5 scenario_hash scenario_keys 3 10
           scenario_constants 2 (grid 4) 4);
    try reflexivity; simpl; try lia.
  intros a [=].
Defined.

(** The first scenario of the specification: the keys 5, 15 and 25 load the
    slots 1 and 3 three times each, the key 5 counting twice for slot 1. *)
Example scenario_slot_loads :
  take_hash_function_statistics 5 scenario_hash scenario_keys 3 10
    scenario_constants 2 (grid 4)
    {| num_slots_available := Some [0; 0; 0];
       num_hashing_in := Some (replicate 10 0);
       failed := Some 0 |}
  = Ok {| num_slots_available := Some [1; 2; 1];
          num_hashing_in := Some [0; 3; 0; 3; 0; 0; 0; 0; 0; 0];
          failed := Some 1 |}.
Proof. reflexivity. Qed.

(** X5. With fewer slots than hash functions no key can have
    [num_functions] distinct slots: a launch over at least one key raises
    an enabled flag, whatever the hash functions are. *)
Theorem small_table_raises_flag
    kMaxHashFunctions hash_function_inner keys n_entries table_size constants
    num_functions threads size (d : device) flag :
  1 ≤ table_size < num_functions →
  num_functions ≤ kMaxHashFunctions →
  num_functions < 2 ^ 32 →
  num_functions ≤ Z.of_nat (length constants) →
  n_entries = Z.of_nat (length keys) → 1 ≤ n_entries →
  threads ≡ₚ grid size → n_entries ≤ size →
  (∀ a, num_slots_available d = Some a → n_entries = Z.of_nat (length a)) →
  (∀ c, num_hashing_in d = Some c → table_size ≤ Z.of_nat (length c)) →
  failed d = Some flag →
  ∃ d',
    take_hash_function_statistics kMaxHashFunctions hash_function_inner keys
      n_entries table_size constants num_functions threads d = Ok d'
    ∧ failed d' = Some 1.
Proof.
  intros Hts Hnf Hnf32 Hconst Hn Hkeys Hperm Hsize Hslots Hcounters Hflag.
  eexists. split.
  - apply (launch_closed_form _ _ _ _ _ _ _ threads size); try done; lia.
  - simpl. rewrite Hflag. simpl. f_equal.
    destruct keys as [|key keys]; [simpl in Hn; lia|]. simpl.
    pose proof (DistinctSlotCount_bounds kMaxHashFunctions hash_function_inner
                  table_size constants num_functions ltac:(lia) Hconst key
                  ltac:(lia)).
    pose proof (DistinctSlotCount_le_table hash_function_inner table_size
                  constants num_functions key ltac:(lia)).
    by destruct (Z.eqb_spec
                   (Z.max 1 (DistinctSlotCount hash_function_inner table_size
                               constants num_functions key)) num_functions);
      [lia|].
Qed.

Lemma small_table_raises_flag_witness :
  ∃ d',
    take_hash_function_statistics 5 scenario_hash scenario_keys 3 1
      scenario_constants 2 (grid 3)
      {| num_slots_available := None; num_hashing_in := None;
         failed := Some 0 |} = Ok d'
    ∧ failed d' = Some 1.
Proof.
  apply (small_table_raises_flag 5 scenario_hash scenario_keys 3 1
           scenario_constants 2 (grid 3) 3 _ 0);
    try reflexivity; simpl; try lia.
  - intros a [=].
  - intros c [=].
Defined.

(** X6. With no hash function at all the second loop does not run and the
    count stays at its initial value 1: a launch stores 1 for every key,
    leaves the counters as they are and, as 1 differs from
    [num_functions = 0], raises an enabled flag as soon as there is a
    key. *)
Theorem no_functions_count_one
    kMaxHashFunctions hash_function_inner keys n_entries table_size constants
    threads size (d : device) :
  1 ≤ table_size → 0 ≤ kMaxHashFunctions →
  n_entries = Z.of_nat (length keys) → 1 ≤ n_entries →
  threads ≡ₚ grid size → n_entries ≤ size →
  (∀ a, num_slots_available d = Some a → n_entries = Z.of_nat (length a)) →
  (∀ c, num_hashing_in d = Some c → table_size ≤ Z.of_nat (length c)) →
  take_hash_function_statistics kMaxHashFunctions hash_function_inner keys
    n_entries table_size constants 0 threads d
  = Ok {| num_slots_available :=
            (λ _, replicate (length keys) 1) <$> num_slots_available d;
          num_hashing_in := num_hashing_in d;
          failed := (λ _, 1) <$> failed d |}.
Proof.
  intros Hts HkMax Hn Hkeys Hperm Hsize Hslots Hcounters.
  rewrite (launch_closed_form _ _ _ _ _ _ _ threads size); try done; try lia.
  assert (∀ key, DistinctSlotCount hash_function_inner table_size constants 0
                   key = 0) as Hzero by done.
  f_equal. f_equal.
  - destruct (num_slots_available d); [|done]. simpl. f_equal.
    clear. induction keys as [|key keys' IH]; [done|].
    rewrite fmap_cons, IH. done.
  - destruct (num_hashing_in d); [|done]. simpl. f_equal.
    assert (keys ≫= slot_sequence hash_function_inner table_size constants 0
            = []) as ->; [|done].
    clear. induction keys as [|key keys' IH]; [done|]. by rewrite bind_cons, IH.
  - destruct (failed d); [|done]. simpl.
    destruct keys as [|key keys']; [simpl in Hn; lia|]. done.
Qed.

Lemma no_functions_count_one_witness :
  take_hash_function_statistics 5 scenario_hash scenario_keys 3 10
    scenario_constants 0 (grid 3)
    {| num_slots_available := Some [0; 0; 0];
       num_hashing_in := Some (replicate 10 0);
       failed := Some 0 |}
  = Ok {| num_slots_available :=
            (λ _, replicate (length scenario_keys) 1) <$> Some [0; 0; 0];
          num_hashing_in := Some (replicate 10 0);
          failed := (λ _, 1) <$> Some 0 |}.
Proof.
  apply (no_functions_count_one 5 scenario_hash scenario_keys 3 10
           scenario_constants (grid 3) 3);
    try reflexivity; simpl; try lia.
  - intros a [= <-]. reflexivity.
  - intros c [= <-]. simpl. lia.
Defined.

(** ** Faults of a thread *)

(** An invariant of the iterations of a loop holds for what the loop
    returns. *)
Lemma for_loop_preserves {St} (P : St → Prop) (body : Z → St → run St)
    count i s s' :
  (∀ j t t', P t → body j t = Ok t' → P t') →
  P s → for_loop count i body s = Ok s' → P s'.
Proof.
  intros Hbody. revert i s. induction count as [|count IH]; intros i s Hs.
  - by intros [= <-].
  - simpl. destruct (body i s) as [t|] eqn:Ht; [|done]. simpl.
    apply IH. by eapply Hbody.
Qed.

Lemma store_length {A} (a a' : list A) i v :
  store a i v = Ok a' → length a' = length a.
Proof.
  unfold store. destruct (_ && _); [|done]. intros [= <-]. apply length_insert.
Qed.

Lemma store_Fault {A} (a : list A) i v :
  Z.of_nat (length a) ≤ i → store a i v = Fault OutOfBounds.
Proof.
  intros Hi. unfold store.
  destruct (Z.ltb_spec i (Z.of_nat (length a))); [lia|].
  by rewrite andb_false_r.
Qed.

Lemma locate_length hash_function_inner table_size constants key i
    (s s' : list Z * option (list Z)) :
  locate hash_function_inner table_size constants key i s = Ok s' →
  length s'.1 = length s.1.
Proof.
  destruct s as [locations counters]. unfold locate.
  destruct (load constants i) as [c|]; simpl; [|done].
  destruct (table_size =? 0); [done|].
  destruct (store locations i _) as [locations'|] eqn:Hstore; simpl; [|done].
  apply store_length in Hstore.
  destruct counters as [counters|]; [|by intros [= <-]].
  destruct (load locations' i); simpl; [|done].
  destruct (atomicAdd counters _ 1); simpl; [|done]. by intros [= <-].
Qed.

(** X7. [num_functions] above [kMaxHashFunctions] overruns the per-thread
    buffer [locations]: the thread of a key writes past its end in
    iteration [kMaxHashFunctions] of the first loop. *)
Theorem too_many_functions_overrun
    kMaxHashFunctions hash_function_inner keys n_entries table_size constants
    num_functions thread_index key (d : device) :
  0 ≤ thread_index < n_entries →
  keys !! Z.to_nat thread_index = Some key →
  1 ≤ table_size →
  0 ≤ kMaxHashFunctions < num_functions →
  num_functions ≤ Z.of_nat (length constants) →
  (∀ c, num_hashing_in d = Some c → table_size ≤ Z.of_nat (length c)) →
  take_hash_function_statistics_thread kMaxHashFunctions hash_function_inner
    keys n_entries table_size constants num_functions thread_index d
  = Fault OutOfBounds.
Proof.
  intros Hti Hkey Hts Hnf Hconst Hcounters.
  unfold take_hash_function_statistics_thread.
  destruct (Z.leb_spec n_entries thread_index) as [?|_]; [lia|].
  rewrite (load_Ok keys thread_index key) by (done || lia). simpl.
  destruct (locate_loop kMaxHashFunctions hash_function_inner table_size
              constants kMaxHashFunctions Hts ltac:(lia) ltac:(lia) key
              (num_hashing_in d) Hcounters) as (locations & Hrun & _).
  unfold for_range in *. rewrite Z.sub_0_r in *.
  replace (Z.to_nat num_functions)
    with (Z.to_nat kMaxHashFunctions
          + S (Z.to_nat (num_functions - kMaxHashFunctions - 1)))%nat by lia.
  rewrite for_loop_app, Hrun. simpl.
  assert (length locations = Z.to_nat kMaxHashFunctions) as Hlength.
  { apply (for_loop_preserves
             (λ s : list Z * option (list Z),
                length s.1 = Z.to_nat kMaxHashFunctions)) in Hrun; [done| |].
    - intros j t t' Ht Hbody. apply locate_length in Hbody. congruence.
    - apply length_replicate. }
  destruct (load_total constants (0 + Z.of_nat (Z.to_nat kMaxHashFunctions)))
    as (c & Hc & _); [lia|].
  unfold locate at 1. rewrite Hc. simpl.
  destruct (Z.eqb_spec table_size 0) as [?|_]; [lia|].
  by rewrite store_Fault by lia.
Qed.

Lemma too_many_functions_overrun_witness :
  take_hash_function_statistics_thread 1 scenario_hash scenario_keys 3 10
    scenario_constants 2 1
    {| num_slots_available := Some [0; 0; 0]; num_hashing_in := None;
       failed := Some 0 |}
  = Fault OutOfBounds.
Proof.
  apply (too_many_functions_overrun 1 scenario_hash scenario_keys 3 10
           scenario_constants 2 1 15);
    try reflexivity; simpl; try lia.
  intros c [=].
Defined.

(** X8. A table of size zero makes the first slot computation of every
    thread that owns a key a division by zero, as soon as there is a hash
    function. *)
Theorem empty_table_divides_by_zero
    kMaxHashFunctions hash_function_inner keys n_entries constants
    num_functions thread_index key (d : device) :
  0 ≤ thread_index < n_entries →
  keys !! Z.to_nat thread_index = Some key →
  1 ≤ num_functions → constants ≠ [] →
  take_hash_function_statistics_thread kMaxHashFunctions hash_function_inner
    keys n_entries 0 constants num_functions thread_index d
  = Fault DivideByZero.
Proof.
  intros Hti Hkey Hnf Hconst.
  unfold take_hash_function_statistics_thread.
  destruct (Z.leb_spec n_entries thread_index) as [?|_]; [lia|].
  rewrite (load_Ok keys thread_index key) by (done || lia). simpl.
  destruct constants as [|c constants']; [done|].
  assert (for_range 0 num_functions
            (locate hash_function_inner 0 (c :: constants') key)
            (replicate (Z.to_nat kMaxHashFunctions) 0, num_hashing_in d)
          = Fault DivideByZero) as ->; [|done].
  unfold for_range.
  replace (Z.to_nat (num_functions - 0))
    with (S (Z.to_nat (num_functions - 1))) by lia.
  reflexivity.
Qed.

Lemma empty_table_divides_by_zero_witness :
  take_hash_function_statistics_thread 5 scenario_hash scenario_keys 3 0
    scenario_constants 2 1
    {| num_slots_available := Some [0; 0; 0]; num_hashing_in := None;
       failed := Some 0 |}
  = Fault DivideByZero.
Proof.
  apply (empty_table_divides_by_zero 5 scenario_hash scenario_keys 3
           scenario_constants 2 1 15);
    try reflexivity; simpl; try lia.
  done.
Defined.

(** * Further properties of the reports *)

(** ** Histograms by sorting and counting runs *)

Lemma occurrences_snoc v (l : list Z) a :
  occurrences v (l ++ [a])
  = occurrences v l + (if bool_decide (a = v) then 1 else 0).
Proof.
  rewrite occurrences_app, occurrences_cons, occurrences_nil. lia.
Qed.

Lemma occurrences_Permutation v (l1 l2 : list Z) :
  l1 ≡ₚ l2 → occurrences v l1 = occurrences v l2.
Proof. intros Hperm. unfold occurrences. by rewrite Hperm. Qed.

Lemma sorted_lookup_le (s : list Z) (i j : nat) a b :
  StronglySorted Z.le s → (i < j)%nat →
  s !! i = Some a → s !! j = Some b → a ≤ b.
Proof.
  intros Hsorted Hij Ha Hb.
  rewrite <- (take_drop_middle s j b Hb) in Hsorted.
  apply (StronglySorted_app_1_elem_of Z.le _ _ a b Hsorted); [|left].
  apply elem_of_take. by exists i.
Qed.

Lemma is_histogram_Permutation runs (l1 l2 : list Z) :
  l1 ≡ₚ l2 → is_histogram runs l1 → is_histogram runs l2.
Proof.
  intros Hperm [Hsorted Hruns]. split; [done|]. intros v c.
  rewrite Hruns, (occurrences_Permutation v l1 l2 Hperm).
  by split; intros [Hv ->]; (split; [|done]); [rewrite <- Hperm|rewrite Hperm].
Qed.

Lemma StronglySorted_lt_NoDup (l : list Z) : StronglySorted Z.lt l → NoDup l.
Proof.
  induction 1 as [|a l _ IH Ha]; constructor; [|done].
  intros Hin. rewrite Forall_forall in Ha. specialize (Ha a Hin). lia.
Qed.

(** The counts of a histogram add up to the length of the sequence. *)
Lemma is_histogram_sum runs (l : list Z) :
  is_histogram runs l → sumZ runs.*2 = Z.of_nat (length l).
Proof.
  intros [Hsorted Hruns].
  rewrite <- (sumZ_occurrences runs.*1 l).
  - f_equal. rewrite <- list_fmap_compose. apply list_fmap_ext.
    intros i [v c] Hvc. simpl.
    by apply list_elem_of_lookup_2, Hruns in Hvc as [_ ->].
  - by apply StronglySorted_lt_NoDup.
  - intros a Ha. apply list_elem_of_fmap.
    exists (a, occurrences a l). split; [done|]. by apply Hruns.
Qed.

(** The start of the run-counting loops: one element seen. *)
Lemma histogram_first (s : list Z) first :
  s !! 0%nat = Some first → is_histogram [(first, 1)] (take 1 s).
Proof.
  intros Hfirst. destruct s as [|a s]; simplify_eq/=. rewrite take_0. split.
  - repeat constructor.
  - intros v c. rewrite list_elem_of_singleton. split.
    + intros [= -> ->]. split; [left|].
      by rewrite occurrences_cons, occurrences_nil, bool_decide_eq_true_2.
    + intros [->%list_elem_of_singleton ->].
      by rewrite occurrences_cons, occurrences_nil, bool_decide_eq_true_2.
Qed.

(** In a histogram of a prefix that ends with the run of the last element
    seen, no value exceeds that element. *)
Lemma histogram_values_le emitted current count (l : list Z) v :
  is_histogram (emitted ++ [(current, count)]) l → v ∈ l → v ≤ current.
Proof.
  intros [Hsorted Hruns] Hv.
  assert ((v, occurrences v l) ∈ emitted ++ [(current, count)]) as Hin
    by by apply Hruns.
  apply elem_of_app in Hin as [Hin|[= -> _]%list_elem_of_singleton]; [|lia].
  rewrite fmap_app in Hsorted.
  assert (v < current); [|lia].
  apply (StronglySorted_app_1_elem_of Z.lt _ _ v current Hsorted); [|left].
  apply list_elem_of_fmap. by exists (v, occurrences v l).
Qed.

(** The step of the run-counting loops when the next element differs from
    the current one: the current run is closed and a new run is opened. *)
Lemma histogram_new_run emitted current count (l : list Z) v :
  is_histogram (emitted ++ [(current, count)]) l → current < v →
  is_histogram ((emitted ++ [(current, count)]) ++ [(v, 1)]) (l ++ [v]).
Proof.
  intros Hhist Hlt.
  assert (∀ u, u ∈ l → u ≤ current) as Hle.
  { intros u. by apply (histogram_values_le emitted current count). }
  destruct Hhist as [Hsorted Hruns].
  assert (v ∉ l) as Hfresh.
  { intros Hv%Hle. lia. }
  split.
  - rewrite fmap_app. apply StronglySorted_app_2; [|done|repeat constructor].
    intros w u Hw ->%list_elem_of_singleton.
    apply list_elem_of_fmap in Hw as ([w' c] & -> & Hw). simpl.
    apply Hruns in Hw as [Hw%Hle _]. lia.
  - intros w c. rewrite elem_of_app, list_elem_of_singleton, Hruns.
    rewrite elem_of_app, list_elem_of_singleton, occurrences_snoc. split.
    + intros [[Hw ->]|[= -> ->]].
      * split; [by left|]. rewrite bool_decide_eq_false_2; [lia|].
        intros ->. done.
      * split; [by right|]. rewrite occurrences_not_elem by done.
        by rewrite bool_decide_eq_true_2.
    + intros [[Hw| ->] ->].
      * left. split; [done|]. rewrite bool_decide_eq_false_2; [lia|].
        intros ->. done.
      * right. rewrite occurrences_not_elem by done.
        by rewrite bool_decide_eq_true_2.
Qed.

(** The step when the next element equals the current one: the current run
    grows by one. *)
Lemma histogram_same_run emitted current count (l : list Z) :
  is_histogram (emitted ++ [(current, count)]) l →
  is_histogram (emitted ++ [(current, count + 1)]) (l ++ [current]).
Proof.
  intros [Hsorted Hruns].
  assert (count = occurrences current l) as Hcount.
  { apply (Hruns current count), elem_of_app. right. left. }
  assert (∀ w c, (w, c) ∈ emitted → w ≠ current) as Hother.
  { intros w c Hw ->. rewrite fmap_app in Hsorted.
    assert (current < current); [|lia].
    apply (StronglySorted_app_1_elem_of Z.lt _ _ current current Hsorted);
      [|left].
    apply list_elem_of_fmap. by exists (current, c). }
  split.
  - by rewrite fmap_app in *.
  - intros w c. rewrite elem_of_app, list_elem_of_singleton.
    rewrite elem_of_app, list_elem_of_singleton, occurrences_snoc. split.
    + intros [Hw|[= -> ->]].
      * pose proof (Hother w c Hw).
        assert ((w, c) ∈ emitted ++ [(current, count)]) as Hin
          by (apply elem_of_app; by left).
        apply Hruns in Hin as [Hin ->]. split; [by left|].
        rewrite bool_decide_eq_false_2; [lia|done].
      * split; [by right|]. rewrite bool_decide_eq_true_2 by done. lia.
    + intros [Hw ->]. destruct (decide (w = current)) as [->|Hne].
      * right. rewrite bool_decide_eq_true_2 by done. by rewrite Hcount.
      * left. destruct Hw as [Hw|?]; [|done].
        rewrite bool_decide_eq_false_2 by done. rewrite Z.add_0_r.
        assert ((w, occurrences w l) ∈ emitted ++ [(current, count)]) as Hin
          by by apply Hruns.
        apply elem_of_app in Hin as [Hin|[= ? _]%list_elem_of_singleton];
          done.
Qed.

Lemma sumZ_snoc (l : list Z) a : sumZ (l ++ [a]) = sumZ l + a.
Proof.
  induction l as [|b l IH]; [unfold sumZ; simpl; lia|].
  rewrite <- app_comm_cons, !sumZ_cons, IH. lia.
Qed.

Lemma sumZ_Permutation (l1 l2 : list Z) : l1 ≡ₚ l2 → sumZ l1 = sumZ l2.
Proof.
  induction 1 as [|a l1 l2 _ IH|a b l|l1 l2 l3 _ IH1 _ IH2];
    rewrite ?sumZ_cons; [done|lia|lia|congruence].
Qed.

Lemma std_sort_sorted (l : list Z) : StronglySorted Z.le (std_sort l).
Proof. apply (StronglySorted_merge_sort Z.le). Qed.

Lemma std_sort_Permutation (l : list Z) : std_sort l ≡ₚ l.
Proof. apply merge_sort_Permutation. Qed.

(** ** Build statistics: totals and histogram *)

(** The first loop of [OutputBuildStatistics] on a sorted array of unsigned
    values: the sum modulo [2^32] and the greatest element. *)
Lemma accumulate_loop (s : list Z) n :
  n = Z.of_nat (length s) → 1 ≤ n → Forall is_u32 s →
  ∃ maxv,
    for_range 0 n (accumulate s) (0, 0) = Ok (u32 (sumZ s), maxv)
    ∧ maxv ∈ s ∧ ∀ v, v ∈ s → v ≤ maxv.
Proof.
  intros Hn Hone Hunsigned.
  destruct (for_range_inv
              (λ i (tm : Z * Z),
                 tm.1 = u32 (sumZ (take (Z.to_nat i) s))
                 ∧ 0 ≤ tm.2
                 ∧ (∀ v, v ∈ take (Z.to_nat i) s → v ≤ tm.2)
                 ∧ (tm.2 = 0 ∨ tm.2 ∈ take (Z.to_nat i) s))
              (accumulate s) 0 n (0, 0))
    as ([total maxv] & Hrun & Htotal & Hpos & Hupper & Hmember); [lia| | |].
  - simpl. split_and!; [done|done| |by left].
    intros v ?%not_elem_of_nil. done.
  - intros i [total maxv] Hi (Htotal & Hpos & Hupper & Hmember).
    simpl in Htotal, Hpos, Hupper, Hmember.
    destruct (load_total s i) as (v & Hload & Hv); [lia|].
    pose proof (Forall_lookup_1 _ _ _ _ Hunsigned Hv) as [Hv0 _].
    unfold accumulate. rewrite Hload. simpl.
    eexists. split; [reflexivity|]. simpl.
    replace (Z.to_nat (i + 1)) with (S (Z.to_nat i)) by lia.
    rewrite (take_S_r _ _ v) by done. split_and!.
    + rewrite sumZ_snoc, Htotal. unfold u32. by rewrite Zplus_mod_idemp_l.
    + lia.
    + intros u [Hu| ->%list_elem_of_singleton]%elem_of_app; [|lia].
      specialize (Hupper u Hu). lia.
    + right. apply elem_of_app.
      destruct (Z.max_spec maxv v) as [[_ ->]|[Hge ->]]; [right; left|].
      destruct Hmember as [->|Hin]; [|by left].
      right. assert (v = 0) as -> by lia. left.
  - simpl in Htotal, Hpos, Hupper, Hmember.
    rewrite Hn, Nat2Z.id, firstn_all in Htotal, Hupper, Hmember.
    exists maxv. rewrite Hrun, Htotal. split; [done|]. split; [|done].
    destruct Hmember as [->|Hin]; [|done].
    destruct s as [|a s']; [simpl in Hn; lia|].
    assert (a ≤ 0) by (apply Hupper; left).
    apply Forall_cons in Hunsigned as [[Ha _] _].
    assert (a = 0) as -> by lia. left.
Qed.

(** The second loop of [OutputBuildStatistics] on a sorted array, without
    its text: the runs it closes and the run it leaves open make up the
    histogram of the array. *)
Lemma count_runs (s : list Z) n first :
  n = Z.of_nat (length s) → 1 ≤ n < 2 ^ 32 → StronglySorted Z.le s →
  s !! 0%nat = Some first →
  ∃ closed current count,
    for_range 1 n (count_run s) (first, 1, []) = Ok (current, count, closed)
    ∧ is_histogram (closed ++ [(current, count)]) s.
Proof.
  intros Hn Hn32 Hsorted Hfirst.
  destruct (for_range_inv
              (λ i (st : Z * Z * list (Z * Z)),
                 is_histogram (st.2 ++ [(st.1.1, st.1.2)])
                   (take (Z.to_nat i) s)
                 ∧ s !! Z.to_nat (i - 1) = Some st.1.1)
              (count_run s) 1 n (first, 1, []))
    as ([[current count] closed] & Hrun & Hhist & _); [lia| | |].
  - split; [|done]. by apply histogram_first.
  - intros i [[current count] closed] Hi (Hhist & Hcurrent).
    simpl in Hhist, Hcurrent.
    destruct (load_total s i) as (v & Hload & Hv); [lia|].
    assert (current ≤ v) as Hle.
    { apply (sorted_lookup_le s (Z.to_nat (i - 1)) (Z.to_nat i));
        [done|lia|done..]. }
    assert (count = occurrences current (take (Z.to_nat i) s)) as Hcount.
    { destruct Hhist as [_ Hruns].
      apply (Hruns current count), elem_of_app. right. left. }
    pose proof (occurrences_bounds current (take (Z.to_nat i) s)) as Hocc.
    rewrite length_take in Hocc.
    unfold count_run. rewrite Hload. simpl.
    replace (i + 1 - 1) with i by lia.
    replace (Z.to_nat (i + 1)) with (S (Z.to_nat i)) by lia.
    rewrite (take_S_r _ _ v) by done.
    destruct (Z.eqb_spec v current) as [->|Hne]; simpl.
    + eexists. split; [reflexivity|]. simpl. split; [|done].
      rewrite u32_small by lia. by apply histogram_same_run.
    + eexists. split; [reflexivity|]. simpl. split; [|done].
      apply histogram_new_run; [done|lia].
  - simpl in Hhist. exists closed, current, count. split; [done|].
    by rewrite Hn, Nat2Z.id, firstn_all in Hhist.
Qed.

Lemma count_run_step (s : list Z) i current count closed :
  count_run s i (current, count, closed)
  = v ← load s i;
    if negb (v =? current)
    then Ok (v, 1, closed ++ [(current, count)])
    else Ok (current, u32 (count + 1), closed).
Proof. reflexivity. Qed.

Lemma iteration_run_step reads (s : list Z) i current count b :
  iteration_run reads s i (current, count, b)
  = v ← load s i;
    if negb (v =? current)
    then b ← sprintf_append reads 10000 b "\t(%u, %u)\n"
               [U current; U count];
         Ok (v, 1, b)
    else Ok (current, u32 (count + 1), b).
Proof. reflexivity. Qed.

(** The loop only ever adds to the runs it has closed. *)
Lemma count_run_grows (s : list Z) steps i current count closed current'
    count' closed' :
  for_loop steps i (count_run s) (current, count, closed)
  = Ok (current', count', closed') →
  ∃ more, closed' = closed ++ more.
Proof.
  revert i current count closed.
  induction steps as [|steps IH]; intros i current count closed Hrun.
  - injection Hrun as _ _ <-. exists []. by rewrite app_nil_r.
  - rewrite for_loop_S, count_run_step in Hrun.
    destruct (load s i) as [v|]; simpl in Hrun; [|done].
    destruct (negb (v =? current)); simpl in Hrun.
    + apply IH in Hrun as [more ->].
      exists ((current, count) :: more). by rewrite <- app_assoc.
    + by apply IH in Hrun.
Qed.

Lemma iterations_text_snoc closed current count :
  iterations_text (closed ++ [(current, count)])
  = iterations_text closed ++ [Piece "\t(%u, %u)\n" [U current; U count]].
Proof. unfold iterations_text. by rewrite fmap_app. Qed.

Lemma iterations_text_mono closed more :
  text_size (iterations_text closed)
  ≤ text_size (iterations_text (closed ++ more)).
Proof.
  unfold iterations_text. rewrite fmap_app, app_comm_cons, text_size_app.
  pose proof (text_size_nonneg
                ((λ r : Z * Z, Piece "\t(%u, %u)\n" [U r.1; U r.2])
                   <$> more)).
  lia.
Qed.

(** The loop with its text follows the loop without: on a library that
    reads back no more than the old text, the text stays within the array
    as long as the text of all the closed runs does, and on the library
    that appends it is that text. *)
Lemma iteration_run_follows reads (s : list Z) steps i current count closed
    current' count' closed' b :
  (∀ b, text_size (reads b) ≤ text_size b) →
  for_loop steps i (count_run s) (current, count, closed)
  = Ok (current', count', closed') →
  text_size (iterations_text closed') < 10000 →
  text_size b ≤ text_size (iterations_text closed) →
  ∃ b',
    for_loop steps i (iteration_run reads s) (current, count, b)
    = Ok (current', count', b')
    ∧ text_size b' ≤ text_size (iterations_text closed')
    ∧ (reads = appending → b = iterations_text closed →
       b' = iterations_text closed').
Proof.
  intros Hreads. revert i current count closed b.
  induction steps as [|steps IH]; intros i current count closed b Hrun Hfits Hb.
  - injection Hrun as <- <- <-. by exists b.
  - rewrite for_loop_S, count_run_step in Hrun.
    rewrite for_loop_S, iteration_run_step.
    destruct (load s i) as [v|]; simpl in Hrun |- *; [|done].
    destruct (negb (v =? current)); simpl in Hrun |- *.
    + destruct (count_run_grows _ _ _ _ _ _ _ _ _ Hrun) as [more Hmore].
      pose proof (iterations_text_mono (closed ++ [(current, count)]) more)
        as Hmono.
      rewrite <- Hmore, iterations_text_snoc, text_size_app in Hmono.
      specialize (Hreads b) as Hread.
      rewrite sprintf_append_fits by lia. simpl.
      destruct (IH (i + 1) v 1 (closed ++ [(current, count)])
                  (reads b ++ [Piece "\t(%u, %u)\n" [U current; U count]])
                  Hrun Hfits) as (b' & -> & Hsize & Htext).
      { rewrite iterations_text_snoc, !text_size_app. lia. }
      exists b'. split; [done|]. split; [done|].
      intros -> ->. apply Htext; [done|]. by rewrite iterations_text_snoc.
    + by apply IH.
Qed.

(** On the library that appends, the loop writes past the end of the
    array exactly when the text of the closed runs does not fit. *)
Lemma iteration_run_appending (s : list Z) steps i current count closed
    current' count' closed' :
  for_loop steps i (count_run s) (current, count, closed)
  = Ok (current', count', closed') →
  text_size (iterations_text closed) < 10000 →
  for_loop steps i (iteration_run appending s)
    (current, count, iterations_text closed)
  = if text_size (iterations_text closed') <? 10000
    then Ok (current', count', iterations_text closed')
    else Fault OutOfBounds.
Proof.
  revert i current count closed.
  induction steps as [|steps IH]; intros i current count closed Hrun Hfits.
  - injection Hrun as <- <- <-. simpl.
    by destruct (Z.ltb_spec (text_size (iterations_text closed)) 10000);
      [|lia].
  - rewrite for_loop_S, count_run_step in Hrun.
    rewrite for_loop_S, iteration_run_step.
    destruct (load s i) as [v|]; simpl in Hrun |- *; [|done].
    destruct (negb (v =? current)); simpl in Hrun |- *; [|by apply IH].
    destruct (count_run_grows _ _ _ _ _ _ _ _ _ Hrun) as [more Hmore].
    pose proof (iterations_text_mono (closed ++ [(current, count)]) more)
      as Hmono.
    rewrite <- Hmore in Hmono.
    unfold sprintf_append, appending. rewrite <- iterations_text_snoc.
    destruct (Z.ltb_spec
                (text_size (iterations_text (closed ++ [(current, count)])))
                10000) as [Hstep|Hstep]; simpl.
    + by apply IH.
    + by destruct (Z.ltb_spec (text_size (iterations_text closed')) 10000);
        [lia|].
Qed.

(** The values of a histogram are the values of the sequence, each once. *)
Lemma histogram_values runs (l : list Z) :
  is_histogram runs l → runs.*1 ≡ₚ remove_dups l.
Proof.
  intros [Hsorted Hruns]. apply NoDup_Permutation.
  - by apply StronglySorted_lt_NoDup.
  - apply NoDup_remove_dups.
  - intros v. rewrite elem_of_remove_dups, list_elem_of_fmap. split.
    + intros ([w c] & -> & Hin). by apply Hruns in Hin as [Hin _].
    + intros Hv. exists (v, occurrences v l). split; [done|]. by apply Hruns.
Qed.

(** A sum over the runs of a histogram is a sum over the values of the
    sequence. *)
Lemma histogram_sum (g : Z * Z → Z) runs (l : list Z) :
  is_histogram runs l →
  sumZ (g <$> runs)
  = sumZ ((λ v, g (v, occurrences v l)) <$> remove_dups l).
Proof.
  intros Hhist.
  rewrite <- (sumZ_Permutation _ _
                (fmap_Permutation (λ v, g (v, occurrences v l)) _ _
                   (histogram_values runs l Hhist))).
  rewrite <- list_fmap_compose. f_equal. apply list_fmap_ext.
  intros i [v c] Hvc. simpl.
  destruct Hhist as [_ Hruns].
  by apply list_elem_of_lookup_2, Hruns in Hvc as [_ ->].
Qed.

Lemma text_size_fmap {A} (f : A → piece) (l : list A) :
  text_size (f <$> l) = sumZ ((λ a, text_size [f a]) <$> l).
Proof.
  unfold text_size. rewrite <- list_fmap_compose. f_equal.
  apply list_fmap_ext. intros _ a _. unfold sumZ. simpl. lia.
Qed.

(** The histogram text of a sequence, on the library that appends, has
    [build_text_size] bytes. *)
Lemma build_text_size_runs closed current count (l : list Z) :
  is_histogram (closed ++ [(current, count)]) l →
  text_size (iterations_text closed)
  + text_size [Piece "\t(%u, %u)" [U current; U count]]
  = build_text_size l.
Proof.
  intros Hhist. unfold build_text_size.
  pose proof (histogram_sum
                (λ r, text_size (sprintf "\t(%u, %u)\n" [U r.1; U r.2]))
                (closed ++ [(current, count)]) l Hhist) as Hsum.
  cbn [fst snd] in Hsum. rewrite <- Hsum. clear Hsum.
  rewrite fmap_app, sumZ_app. unfold iterations_text.
  change (Piece "Iterations taken:\n" [] :: ?t)
    with (sprintf "Iterations taken:\n" [] ++ t).
  rewrite text_size_app. unfold sprintf. simpl.
  rewrite iteration_last_line_size, iteration_line_size.
  rewrite text_size_fmap.
  lia.
Qed.
(** The histogram text of [OutputBuildStatistics] on a sorted array: on a
    library that reads back no more than the old text, lines 228-238 stay
    within the array when the text that appending builds does, and on the
    library that appends they build that text. *)
Lemma build_text reads (s l : list Z) n first :
  (∀ b, text_size (reads b) ≤ text_size b) →
  n = Z.of_nat (length s) → 1 ≤ n < 2 ^ 32 → StronglySorted Z.le s →
  s !! 0%nat = Some first →
  s ≡ₚ l → build_text_size l < 10000 →
  ∃ closed current count b b',
    for_range 1 n (iteration_run reads s)
      (first, 1, sprintf "Iterations taken:\n" [])
    = Ok (current, count, b)
    ∧ sprintf_append reads 10000 b "\t(%u, %u)" [U current; U count] = Ok b'
    ∧ is_histogram (closed ++ [(current, count)]) l
    ∧ (reads = appending →
       b' = iterations_text closed
            ++ [Piece "\t(%u, %u)" [U current; U count]]).
Proof.
  intros Hreads Hn Hn32 Hsorted Hfirst Hperm Hfits.
  destruct (count_runs s n first Hn Hn32 Hsorted Hfirst)
    as (closed & current & count & Hghost & Hhist).
  apply (is_histogram_Permutation _ s l Hperm) in Hhist.
  pose proof (build_text_size_runs closed current count l Hhist) as Hsize.
  pose proof (text_size_nonneg [Piece "\t(%u, %u)" [U current; U count]])
    as Hlast.
  unfold for_range in *.
  destruct (iteration_run_follows reads s _ 1 first 1 [] current count closed
              (sprintf "Iterations taken:\n" []) Hreads Hghost)
    as (b & Hb & Hbsize & Hbtext); [lia|done|].
  exists closed, current, count, b,
    (reads b ++ [Piece "\t(%u, %u)" [U current; U count]]).
  split; [done|]. split.
  { apply sprintf_append_fits. specialize (Hreads b). lia. }
  split; [done|]. intros ->. by rewrite Hbtext.
Qed.

(** On the library that appends, a histogram text of 10000 bytes or more
    is written past the end of its array. *)
Lemma build_overrun n (d_iterations_taken : list Z) :
  n = Z.of_nat (length d_iterations_taken) → 1 ≤ n < 2 ^ 32 →
  10000 ≤ build_text_size d_iterations_taken →
  OutputBuildStatistics appending n d_iterations_taken = Fault OutOfBounds.
Proof.
  intros Hn Hn32 Hlong. unfold OutputBuildStatistics.
  rewrite cudaMemcpy_all by done. simpl.
  pose proof (length_std_sort d_iterations_taken) as Hlen.
  pose proof (std_sort_sorted d_iterations_taken) as Hsorted.
  pose proof (std_sort_Permutation d_iterations_taken) as Hperm.
  set (s := std_sort d_iterations_taken) in *.
  destruct (for_range_total (accumulate s) 0 n (0, 0))
    as ([total_iterations max_iterations_taken] & ->).
  { intros j [t m] Hj. unfold accumulate.
    destruct (load_total s j) as (v & -> & _); [lia|]. by eexists. }
  simpl. destruct (load_total s 0) as (first & -> & Hfirst); [lia|]. simpl.
  destruct (count_runs s n first) as (closed & current & count & Hghost & Hhist);
    [lia|lia|done|done|].
  apply (is_histogram_Permutation _ s _ Hperm) in Hhist.
  pose proof (build_text_size_runs closed current count _ Hhist) as Hsize.
  unfold for_range in *.
  change (sprintf "Iterations taken:\n" []) with (iterations_text []).
  rewrite (iteration_run_appending s _ 1 first 1 [] current count closed Hghost)
    by done.
  destruct (Z.ltb_spec (text_size (iterations_text closed)) 10000); [|done].
  simpl. rewrite sprintf_append_overrun; [done|]. unfold appending. lia.
Qed.

(** The report of [OutputBuildStatistics] on a non-empty input whose
    histogram text fits: four messages, the third of which carries the
    elements at the indices [n/2] and [n-1] of the sorted input. *)
Lemma build_report reads n (d_iterations_taken : list Z) :
  (∀ b, text_size (reads b) ≤ text_size b) →
  n = Z.of_nat (length d_iterations_taken) → 1 ≤ n < 2 ^ 32 →
  build_text_size d_iterations_taken < 10000 →
  ∃ histogram total_iterations median last max_iterations_taken,
    OutputBuildStatistics reads n d_iterations_taken
    = Ok [PrintMessage histogram None;
          PrintMessage (sprintf "Total iterations: %u" [U total_iterations])
            None;
          PrintMessage
            (sprintf "Avg/Med/Max iterations: (%f %u %u)"
               [FDiv total_iterations n; U median; U last]) None;
          PrintMessage (sprintf "Max iterations: %u" [U max_iterations_taken])
            None]
    ∧ std_sort d_iterations_taken !! Z.to_nat (n / 2) = Some median
    ∧ std_sort d_iterations_taken !! Z.to_nat (n - 1) = Some last.
Proof.
  intros Hreads Hn Hn32 Hfits. unfold OutputBuildStatistics.
  rewrite cudaMemcpy_all by done. simpl.
  pose proof (length_std_sort d_iterations_taken) as Hlen.
  pose proof (std_sort_sorted d_iterations_taken) as Hsorted.
  pose proof (std_sort_Permutation d_iterations_taken) as Hperm.
  set (sorted := std_sort d_iterations_taken) in *.
  assert (∀ i, 0 ≤ i < n → ∃ v, load sorted i = Ok v
                                 ∧ sorted !! Z.to_nat i = Some v) as Hload.
  { intros i Hi. apply load_total. lia. }
  destruct (for_range_total (accumulate sorted) 0 n (0, 0))
    as ([total_iterations max_iterations_taken] & ->).
  { intros j [t m] Hj. unfold accumulate.
    destruct (Hload j Hj) as (v & -> & _). by eexists. }
  simpl. destruct (Hload 0) as (first & -> & Hfirst); [lia|]. simpl.
  destruct (build_text reads sorted d_iterations_taken n first)
    as (closed & current & count & b & b' & -> & Hlast & _);
    [done|lia|done..|].
  simpl. rewrite Hlast. simpl.
  destruct (Hload (n / 2)) as (median & -> & Hmedian).
  { split; [apply Z.div_pos; lia|apply Z.div_lt_upper_bound; lia]. }
  simpl. rewrite u32_small by lia.
  destruct (Hload (n - 1)) as (last & -> & Hlastv); [lia|]. simpl.
  by eexists _, _, _, _, _.
Qed.

(** Everything [OutputBuildStatistics] reports about a non-empty input of
    unsigned values whose histogram text fits. *)
Lemma build_report_full reads n (d_iterations_taken : list Z) :
  (∀ b, text_size (reads b) ≤ text_size b) →
  n = Z.of_nat (length d_iterations_taken) → 1 ≤ n < 2 ^ 32 →
  Forall is_u32 d_iterations_taken →
  build_text_size d_iterations_taken < 10000 →
  ∃ runs last_run maxv median histogram,
    OutputBuildStatistics reads n d_iterations_taken
    = Ok [PrintMessage histogram None;
          PrintMessage
            (sprintf "Total iterations: %u"
               [U (u32 (sumZ d_iterations_taken))]) None;
          PrintMessage
            (sprintf "Avg/Med/Max iterations: (%f %u %u)"
               [FDiv (u32 (sumZ d_iterations_taken)) n; U median; U maxv])
            None;
          PrintMessage (sprintf "Max iterations: %u" [U maxv]) None]
    ∧ is_histogram (runs ++ [last_run]) d_iterations_taken
    ∧ maxv ∈ d_iterations_taken
    ∧ (∀ v, v ∈ d_iterations_taken → v ≤ maxv)
    ∧ (reads = appending →
       histogram
       = Piece "Iterations taken:\n" []
         :: ((λ r : Z * Z, Piece "\t(%u, %u)\n" [U r.1; U r.2]) <$> runs)
         ++ [Piece "\t(%u, %u)" [U last_run.1; U last_run.2]]).
Proof.
  intros Hreads Hn Hn32 Hunsigned Hfits. unfold OutputBuildStatistics.
  rewrite cudaMemcpy_all by done. simpl.
  pose proof (length_std_sort d_iterations_taken) as Hlen.
  pose proof (std_sort_sorted d_iterations_taken) as Hsorted.
  pose proof (std_sort_Permutation d_iterations_taken) as Hperm.
  set (s := std_sort d_iterations_taken) in *.
  assert (Forall is_u32 s) as Hunsigned' by by rewrite Hperm.
  destruct (accumulate_loop s n) as (maxv & -> & Hmax & Hupper);
    [lia|lia|done|].
  simpl. destruct (load_total s 0) as (first & -> & Hfirst); [lia|]. simpl.
  destruct (build_text reads s d_iterations_taken n first)
    as (runs & current & count & b & b' & -> & Hlast & Hhist & Htext);
    [done|lia|done..|].
  simpl. rewrite Hlast. simpl.
  destruct (load_total s (n / 2)) as (median & -> & _).
  { split; [apply Z.div_pos; lia|apply Z.div_lt_upper_bound; lia]. }
  simpl. rewrite (u32_small (n - 1)) by lia.
  destruct (load_total s (n - 1)) as (last & -> & Hlastv); [lia|]. simpl.
  assert (last = maxv) as ->.
  { assert (last ≤ maxv) by (eapply Hupper, list_elem_of_lookup_2; done).
    assert (maxv ≤ last); [|lia].
    apply list_elem_of_lookup in Hmax as [i Hi].
    destruct (decide (i = Z.to_nat (n - 1))) as [->|Hne]; [congruence|].
    apply lookup_lt_Some in Hi as Hlt.
    apply (sorted_lookup_le s i (Z.to_nat (n - 1))); [done|lia|done..]. }
  exists runs, (current, count), maxv, median, b'. split_and!.
  - by rewrite (sumZ_Permutation _ _ Hperm).
  - done.
  - by rewrite <- Hperm.
  - intros v Hv. apply Hupper. by rewrite Hperm.
  - done.
Qed.

(** C5, amended.  For every non-empty iteration-count sequence of length
    [n] whose histogram text fits the 10000 bytes of its array, the median
    the reduction reports (the second argument of the [Avg/Med/Max] line)
    is the element at index [n/2], integer division, of the ascending
    arrangement of the sequence: the upper of the two middle elements when
    [n] is even, never their average.  This holds whatever the C library
    makes of the call that extends the text, as long as it reads back no
    more than the old text. *)
Theorem median_is_upper_middle reads n (d_iterations_taken : list Z) :
  n = Z.of_nat (length d_iterations_taken) → 1 ≤ n < 2 ^ 32 →
  (∀ b, text_size (reads b) ≤ text_size b) →
  build_text_size d_iterations_taken < 10000 →
  ∃ histogram total_iterations median last max_iterations_taken,
    OutputBuildStatistics reads n d_iterations_taken
    = Ok [PrintMessage histogram None;
          PrintMessage (sprintf "Total iterations: %u" [U total_iterations])
            None;
          PrintMessage
            (sprintf "Avg/Med/Max iterations: (%f %u %u)"
               [FDiv total_iterations n; U median; U last]) None;
          PrintMessage (sprintf "Max iterations: %u" [U max_iterations_taken])
            None]
    ∧ ∀ sorted, Sorted Z.le sorted → sorted ≡ₚ d_iterations_taken →
                sorted !! Z.to_nat (n / 2) = Some median.
Proof.
  intros Hn Hn32 Hreads Hfits.
  destruct (build_report reads n d_iterations_taken Hreads Hn Hn32 Hfits)
    as (histogram & total & median & last & maxv & Hrun & Hmedian & _).
  exists histogram, total, median, last, maxv. split; [done|].
  intros sorted Hsorted Hperm.
  by rewrite <- (std_sort_unique d_iterations_taken sorted).
Qed.

Lemma median_is_upper_middle_witness :
  ∃ histogram total_iterations median last max_iterations_taken,
    OutputBuildStatistics appending 4 [3; 1; 4; 2]
    = Ok [PrintMessage histogram None;
          PrintMessage (sprintf "Total iterations: %u" [U total_iterations])
            None;
          PrintMessage
            (sprintf "Avg/Med/Max iterations: (%f %u %u)"
               [FDiv total_iterations 4; U median; U last]) None;
          PrintMessage (sprintf "Max iterations: %u" [U max_iterations_taken])
            None]
    ∧ ∀ sorted, Sorted Z.le sorted → sorted ≡ₚ [3; 1; 4; 2] →
                sorted !! Z.to_nat (4 / 2) = Some median.
Proof.
  apply (median_is_upper_middle appending 4 [3; 1; 4; 2]);
    [reflexivity|lia|intros b; unfold appending; lia|reflexivity].
Defined.

(** C5 as stated fails on a long histogram: 1500 distinct counts need
    15407 bytes of text, the array has 10000, and on the library that
    appends the reduction writes past its end before it prints anything,
    the median included. *)
Lemma median_lost_to_long_histogram :
  build_text_size (seqZ 0 1500) = 15407
  ∧ OutputBuildStatistics appending 1500 (seqZ 0 1500) = Fault OutOfBounds.
Proof.
  assert (build_text_size (seqZ 0 1500) = 15407) as Hsize
    by (vm_compute; reflexivity).
  split; [done|]. apply build_overrun; [by vm_compute|lia|lia].
Qed.

(** The example of the specification: the sorted sequence 1, 2, 3, 4 has
    the reported median 3. *)
Example median_of_four :
  OutputBuildStatistics appending 4 [1; 2; 3; 4]
  = Ok [PrintMessage
          [Piece "Iterations taken:\n" [];
           Piece "\t(%u, %u)\n" [U 1; U 1];
           Piece "\t(%u, %u)\n" [U 2; U 1];
           Piece "\t(%u, %u)\n" [U 3; U 1];
           Piece "\t(%u, %u)" [U 4; U 1]] None;
        PrintMessage [Piece "Total iterations: %u" [U 10]] None;
        PrintMessage
          [Piece "Avg/Med/Max iterations: (%f %u %u)" [FDiv 10 4; U 3; U 4]]
          None;
        PrintMessage [Piece "Max iterations: %u" [U 4]] None].
Proof. reflexivity. Qed.

(** The same input on the fortified library: the histogram message holds
    the last line alone, the other three messages are the same. *)
Example median_of_four_fortified :
  OutputBuildStatistics fortified 4 [1; 2; 3; 4]
  = Ok [PrintMessage [Piece "\t(%u, %u)" [U 4; U 1]] None;
        PrintMessage [Piece "Total iterations: %u" [U 10]] None;
        PrintMessage
          [Piece "Avg/Med/Max iterations: (%f %u %u)" [FDiv 10 4; U 3; U 4]]
          None;
        PrintMessage [Piece "Max iterations: %u" [U 4]] None].
Proof. reflexivity. Qed.




(** X9. On the C library whose [sprintf] appends, and when the text fits
    its array, the first message of [OutputBuildStatistics] is the
    histogram of the iteration counts: one pair for every value that
    occurs, in strictly ascending order, with the number of its
    occurrences; the numbers add up to [n]. *)
Theorem build_histogram_counts_occurrences n (d_iterations_taken : list Z) :
  n = Z.of_nat (length d_iterations_taken) → 1 ≤ n < 2 ^ 32 →
  Forall is_u32 d_iterations_taken →
  build_text_size d_iterations_taken < 10000 →
  ∃ runs last_run rest,
    OutputBuildStatistics appending n d_iterations_taken
    = Ok (PrintMessage
            (Piece "Iterations taken:\n" []
             :: ((λ r : Z * Z, Piece "\t(%u, %u)\n" [U r.1; U r.2]) <$> runs)
             ++ [Piece "\t(%u, %u)" [U last_run.1; U last_run.2]]) None
          :: rest)
    ∧ is_histogram (runs ++ [last_run]) d_iterations_taken
    ∧ sumZ (runs ++ [last_run]).*2 = n.
Proof.
  intros Hn Hn32 Hunsigned Hfits.
  destruct (build_report_full appending n d_iterations_taken)
    as (runs & last_run & maxv & median & histogram & -> & Hhist & _ & _
        & Htext); [by intros b|done..|].
  rewrite (Htext eq_refl).
  eexists runs, last_run, _. split; [reflexivity|]. split; [done|].
  by rewrite (is_histogram_sum _ d_iterations_taken).
Qed.

Lemma build_histogram_counts_occurrences_witness :
  ∃ runs last_run rest,
    OutputBuildStatistics appending 6 [4; 1; 4; 2; 1; 4]
    = Ok (PrintMessage
            (Piece "Iterations taken:\n" []
             :: ((λ r : Z * Z, Piece "\t(%u, %u)\n" [U r.1; U r.2]) <$> runs)
             ++ [Piece "\t(%u, %u)" [U last_run.1; U last_run.2]]) None
          :: rest)
    ∧ is_histogram (runs ++ [last_run]) [4; 1; 4; 2; 1; 4]
    ∧ sumZ (runs ++ [last_run]).*2 = 6.
Proof.
  apply (build_histogram_counts_occurrences 6 [4; 1; 4; 2; 1; 4]);
    [reflexivity|lia| |reflexivity].
  repeat constructor; lia.
Defined.

(** X10. When its histogram text fits the array, [OutputBuildStatistics]
    reports as total the sum of the iteration counts modulo [2^32], uses
    that wrapped total for the mean, and reports the same number as the
    maximum of the [Avg/Med/Max] line (the last element of the sorted
    array) and as [Max iterations] (the running maximum): the greatest
    iteration count.  This holds whatever the C library makes of the call
    that extends the text, as long as it reads back no more than the old
    text. *)
Theorem build_totals reads n (d_iterations_taken : list Z) :
  n = Z.of_nat (length d_iterations_taken) → 1 ≤ n < 2 ^ 32 →
  Forall is_u32 d_iterations_taken →
  (∀ b, text_size (reads b) ≤ text_size b) →
  build_text_size d_iterations_taken < 10000 →
  ∃ histogram median maxv,
    OutputBuildStatistics reads n d_iterations_taken
    = Ok [PrintMessage histogram None;
          PrintMessage
            (sprintf "Total iterations: %u"
               [U (u32 (sumZ d_iterations_taken))]) None;
          PrintMessage
            (sprintf "Avg/Med/Max iterations: (%f %u %u)"
               [FDiv (u32 (sumZ d_iterations_taken)) n; U median; U maxv])
            None;
          PrintMessage (sprintf "Max iterations: %u" [U maxv]) None]
    ∧ maxv ∈ d_iterations_taken
    ∧ ∀ v, v ∈ d_iterations_taken → v ≤ maxv.
Proof.
  intros Hn Hn32 Hunsigned Hreads Hfits.
  destruct (build_report_full reads n d_iterations_taken Hreads Hn Hn32
              Hunsigned Hfits)
    as (runs & last_run & maxv & median & histogram & -> & _ & Hmax & Hupper
        & _).
  by eexists _, median, maxv.
Qed.

Lemma build_totals_witness :
  ∃ histogram median maxv,
    OutputBuildStatistics fortified 6 [4; 1; 4; 2; 1; 4]
    = Ok [PrintMessage histogram None;
          PrintMessage
            (sprintf "Total iterations: %u"
               [U (u32 (sumZ [4; 1; 4; 2; 1; 4]))]) None;
          PrintMessage
            (sprintf "Avg/Med/Max iterations: (%f %u %u)"
               [FDiv (u32 (sumZ [4; 1; 4; 2; 1; 4])) 6; U median; U maxv])
            None;
          PrintMessage (sprintf "Max iterations: %u" [U maxv]) None]
    ∧ maxv ∈ [4; 1; 4; 2; 1; 4]
    ∧ ∀ v, v ∈ [4; 1; 4; 2; 1; 4] → v ≤ maxv.
Proof.
  apply (build_totals fortified 6 [4; 1; 4; 2; 1; 4]);
    [reflexivity|lia| | |reflexivity].
  - repeat constructor; lia.
  - intros b. apply text_size_nonneg.
Defined.

(** The total wraps: two counts of [2^31] add up to a reported total of
    zero. *)
Example build_total_wraps :
  OutputBuildStatistics appending 2 [2147483648; 2147483648]
  = Ok [PrintMessage
          [Piece "Iterations taken:\n" [];
           Piece "\t(%u, %u)" [U 2147483648; U 2]] None;
        PrintMessage [Piece "Total iterations: %u" [U 0]] None;
        PrintMessage
          [Piece "Avg/Med/Max iterations: (%f %u %u)"
             [FDiv 0 2; U 2147483648; U 2147483648]] None;
        PrintMessage [Piece "Max iterations: %u" [U 2147483648]] None].
Proof. reflexivity. Qed.

(** ** The per-slot histogram *)

(** The loop of lines 138-147 on a sorted array: one message for every run
    but the last, and the last run left in the loop variables. *)
Lemma slot_load_runs (s : list Z) table_size first out :
  table_size = Z.of_nat (length s) → 1 ≤ table_size < 2 ^ 31 →
  StronglySorted Z.le s → s !! 0%nat = Some first →
  ∃ emitted current count,
    for_range 1 table_size (slot_load_run s) (first, 1, out)
    = Ok (current, count,
          out ++ ((λ r : Z * Z,
                     PrintMessage (sprintf "\t(%u, %u)" [U r.1; U r.2]) None)
                    <$> emitted))
    ∧ is_histogram (emitted ++ [(current, count)]) s.
Proof.
  intros Hn Hn31 Hsorted Hfirst.
  destruct (for_range_inv
              (λ i (st : Z * Z * list message),
                 ∃ emitted,
                   st.2 = out ++ ((λ r : Z * Z,
                                     PrintMessage
                                       (sprintf "\t(%u, %u)" [U r.1; U r.2])
                                       None) <$> emitted)
                   ∧ is_histogram (emitted ++ [(st.1.1, st.1.2)])
                       (take (Z.to_nat i) s)
                   ∧ s !! Z.to_nat (i - 1) = Some st.1.1)
              (slot_load_run s) 1 table_size (first, 1, out))
    as ([[current count] o] & Hrun & emitted & Ho & Hhist & _); [lia| | |].
  - exists []. split; [by rewrite app_nil_r|]. split; [|done].
    by apply histogram_first.
  - intros i [[current count] o] Hi (emitted & Ho & Hhist & Hcurrent).
    simpl in Ho, Hhist, Hcurrent.
    destruct (load_total s i) as (v & Hload & Hv); [lia|].
    assert (current ≤ v) as Hle.
    { apply (sorted_lookup_le s (Z.to_nat (i - 1)) (Z.to_nat i));
        [done|lia|done..]. }
    assert (count = occurrences current (take (Z.to_nat i) s)) as Hcount.
    { destruct Hhist as [_ Hruns].
      apply (Hruns current count), elem_of_app. right. left. }
    pose proof (occurrences_bounds current (take (Z.to_nat i) s)) as Hocc.
    rewrite length_take in Hocc.
    unfold slot_load_run. rewrite Hload. simpl.
    replace (i + 1 - 1) with i by lia.
    replace (Z.to_nat (i + 1)) with (S (Z.to_nat i)) by lia.
    rewrite (take_S_r _ _ v) by done.
    destruct (Z.eqb_spec v current) as [->|Hne]; simpl.
    + unfold incr_int. destruct (Z.ltb_spec count (2 ^ 31 - 1)); [|lia].
      simpl. eexists. split; [reflexivity|]. exists emitted. simpl.
      split; [done|]. split; [|done]. by apply histogram_same_run.
    + eexists. split; [reflexivity|].
      exists (emitted ++ [(current, count)]). simpl. split_and!; [| |done].
      * rewrite Ho. by rewrite fmap_app, app_assoc.
      * apply histogram_new_run; [done|lia].
  - simpl in Ho, Hhist. exists emitted, current, count. rewrite Hrun, Ho.
    split; [done|]. by rewrite Hn, Nat2Z.id, firstn_all in Hhist.
Qed.

(** The per-slot part of the report, for counters of a table of at least
    one and fewer than [2^31] slots. *)
Lemma slot_load_report (counters : list Z) table_size out :
  table_size = Z.of_nat (length counters) → 1 ≤ table_size < 2 ^ 31 →
  ∃ runs,
    slot_load_histogram (Some counters) table_size out
    = Ok (out
          ++ PrintMessage (sprintf "Num items hashing into a slot:\t" []) None
             :: ((λ r : Z * Z,
                    PrintMessage (sprintf "\t(%u, %u)" [U r.1; U r.2]) None)
                   <$> runs))
    ∧ is_histogram runs counters
    ∧ sumZ runs.*2 = table_size.
Proof.
  intros Hn Hn31. unfold slot_load_histogram. simpl.
  rewrite cudaMemcpy_all by done. simpl.
  pose proof (length_std_sort counters) as Hlen.
  pose proof (std_sort_sorted counters) as Hsorted.
  pose proof (std_sort_Permutation counters) as Hperm.
  set (s := std_sort counters) in *.
  destruct (load_total s 0) as (first & -> & Hfirst); [lia|]. simpl.
  destruct (slot_load_runs s table_size first
              (out ++ [PrintMessage
                         (sprintf "Num items hashing into a slot:\t" []) None]))
    as (emitted & current & count & -> & Hhist); [lia|lia|done|done|].
  simpl. exists (emitted ++ [(current, count)]).
  apply (is_histogram_Permutation _ _ _ Hperm) in Hhist. split_and!.
  - f_equal. rewrite fmap_app. simpl. by rewrite <- !app_assoc.
  - done.
  - by rewrite (is_histogram_sum _ counters).
Qed.

(** X11. The per-slot part of the report (lines 109-153), for counters of a
    table of at least one and fewer than [2^31] slots: a header and then
    one message for every load that occurs, in strictly ascending order,
    with the number of slots of that load; the numbers add up to
    [table_size]. *)
Theorem slot_load_histogram_counts_slots (counters : list Z) table_size out :
  table_size = Z.of_nat (length counters) → 1 ≤ table_size < 2 ^ 31 →
  ∃ runs,
    slot_load_histogram (Some counters) table_size out
    = Ok (out
          ++ PrintMessage (sprintf "Num items hashing into a slot:\t" []) None
             :: ((λ r : Z * Z,
                    PrintMessage (sprintf "\t(%u, %u)" [U r.1; U r.2]) None)
                   <$> runs))
    ∧ is_histogram runs counters
    ∧ sumZ runs.*2 = table_size.
Proof. apply slot_load_report. Qed.

Lemma slot_load_histogram_counts_slots_witness :
  ∃ runs,
    slot_load_histogram (Some [5; 0; 3; 0]) 4 []
    = Ok ([]
          ++ PrintMessage (sprintf "Num items hashing into a slot:\t" []) None
             :: ((λ r : Z * Z,
                    PrintMessage (sprintf "\t(%u, %u)" [U r.1; U r.2]) None)
                   <$> runs))
    ∧ is_histogram runs [5; 0; 3; 0]
    ∧ sumZ runs.*2 = 4.
Proof.
  apply (slot_load_histogram_counts_slots [5; 0; 3; 0] 4 []); [reflexivity|lia].
Defined.

(** The second scenario of the specification: the loads 0, 0, 3 and 5 give
    the histogram (0, 2), (3, 1), (5, 1). *)
Example scenario_slot_load_histogram :
  slot_load_histogram (Some [0; 0; 3; 5]) 4 []
  = Ok [PrintMessage [Piece "Num items hashing into a slot:\t" []] None;
        PrintMessage [Piece "\t(%u, %u)" [U 0; U 2]] None;
        PrintMessage [Piece "\t(%u, %u)" [U 3; U 1]] None;
        PrintMessage [Piece "\t(%u, %u)" [U 5; U 1]] None].
Proof. reflexivity. Qed.

(** ** The host entry point, in full *)

Lemma slot_sequence_take hash_function_inner table_size constants
    num_functions key :
  slot_sequence hash_function_inner table_size
    (take (Z.to_nat num_functions) constants) num_functions key
  = slot_sequence hash_function_inner table_size constants num_functions key.
Proof. unfold slot_sequence. by rewrite take_take, Nat.min_id. Qed.

(** The loop of lines 78-81: one line for each of the first
    [kNumHashFunctions] constants. *)
Lemma print_constants_loop (constants : list uint2) kNumHashFunctions out :
  0 ≤ kNumHashFunctions ≤ Z.of_nat (length constants) →
  for_range 0 kNumHashFunctions (print_constant constants) out
  = Ok (out ++ ((λ c, PrintMessage
                        (sprintf "\t%10u, %10u" [U (x c); U (y c)]) None)
                  <$> take (Z.to_nat kNumHashFunctions) constants)).
Proof.
  intros Hnf.
  destruct (for_range_inv
              (λ i o, o = out ++ ((λ c, PrintMessage
                                          (sprintf "\t%10u, %10u"
                                             [U (x c); U (y c)]) None)
                                    <$> take (Z.to_nat i) constants))
              (print_constant constants) 0 kNumHashFunctions out)
    as (o & -> & ->); [lia| | |done].
  - simpl. by rewrite app_nil_r.
  - intros i o Hi ->.
    destruct (load_total constants i) as (c & Hload & Hc); [lia|].
    unfold print_constant. rewrite Hload. simpl.
    eexists. split; [reflexivity|].
    replace (Z.to_nat (i + 1)) with (S (Z.to_nat i)) by lia.
    rewrite (take_S_r _ _ c) by done. by rewrite fmap_app, app_assoc.
Qed.

(** The buffers the entry point reads back after its launch. *)
Lemma host_launch
    kMaxHashFunctions hash_function_inner sw threads size num_keys d_keys
    table_size constants kNumHashFunctions :
  1 ≤ table_size →
  0 ≤ kNumHashFunctions ≤ kMaxHashFunctions →
  kNumHashFunctions < 2 ^ 32 →
  kNumHashFunctions ≤ Z.of_nat (length constants) →
  num_keys = Z.of_nat (length d_keys) →
  threads ≡ₚ grid size → num_keys ≤ size →
  TakeHashFunctionStatistics_launch kMaxHashFunctions hash_function_inner sw
    threads num_keys d_keys table_size constants kNumHashFunctions
  = Ok {| num_slots_available :=
            if COUNT_HOW_MANY_HAVE_CYCLES sw
            then Some ((λ key, Z.max 1 (DistinctSlotCount hash_function_inner
                                          table_size constants
                                          kNumHashFunctions key)) <$> d_keys)
            else None;
          num_hashing_in :=
            if COUNT_HOW_MANY_HASH_INTO_EACH_SLOT sw
            then Some ((λ slot,
                          u32 (occurrences slot
                                 (d_keys ≫= slot_sequence hash_function_inner
                                              table_size constants
                                              kNumHashFunctions)))
                         <$> seqZ 0 table_size)
            else None;
          failed := None |}.
Proof.
  intros Hts Hnf Hnf32 Hconst Hn Hperm Hsize.
  unfold TakeHashFunctionStatistics_launch.
  rewrite cudaMemcpy_prefix by lia. simpl.
  rewrite (launch_closed_form _ _ _ _ _ _ _ threads size); try done.
  - unfold host_buffers. simpl. f_equal. f_equal.
    + destruct (COUNT_HOW_MANY_HAVE_CYCLES sw); [|done]. simpl. f_equal.
      apply list_fmap_ext. intros _ key _. by rewrite DistinctSlotCount_take.
    + destruct (COUNT_HOW_MANY_HASH_INTO_EACH_SLOT sw); [|done]. simpl. f_equal.
      assert (d_keys ≫= slot_sequence hash_function_inner table_size
                          (take (Z.to_nat kNumHashFunctions) constants)
                          kNumHashFunctions
              = d_keys ≫= slot_sequence hash_function_inner table_size
                            constants kNumHashFunctions) as ->.
      { apply list_bind_ext; [|done]. intros key. apply slot_sequence_take. }
      apply foldl_bump_zero; [lia|].
      apply Forall_forall. intros s (key & Hs & _)%list_elem_of_bind.
      apply (slots_range hash_function_inner table_size constants
               kNumHashFunctions Hts key) in Hs. lia.
  - rewrite length_take. lia.
  - unfold host_buffers. simpl.
    destruct (COUNT_HOW_MANY_HAVE_CYCLES sw); intros a [= <-].
    rewrite length_replicate. lia.
  - unfold host_buffers. simpl.
    destruct (COUNT_HOW_MANY_HASH_INTO_EACH_SLOT sw); intros c [= <-].
    rewrite length_replicate. lia.
Qed.

(** With an empty table and at least one hash function, the first thread
    of a launch that owns a key divides by zero. *)
Lemma launch_divides_by_zero
    kMaxHashFunctions hash_function_inner keys n_entries constants
    num_functions threads (d : device) :
  n_entries ≤ Z.of_nat (length keys) →
  1 ≤ num_functions → constants ≠ [] →
  Forall (λ t, 0 ≤ t) threads →
  (∃ t, t ∈ threads ∧ t < n_entries) →
  take_hash_function_statistics kMaxHashFunctions hash_function_inner keys
    n_entries 0 constants num_functions threads d
  = Fault DivideByZero.
Proof.
  intros Hkeys Hnf Hconst Hpos. revert d.
  induction Hpos as [|t threads Ht _ IH]; intros d (u & Hu & Hactive).
  { by apply not_elem_of_nil in Hu. }
  simpl. destruct (Z.le_gt_cases n_entries t) as [Hidle|Hruns].
  - rewrite thread_idle by done. simpl. apply IH. exists u. split; [|done].
    apply elem_of_cons in Hu as [->|Hu]; [lia|done].
  - assert (take_hash_function_statistics_thread kMaxHashFunctions
              hash_function_inner keys n_entries 0 constants num_functions t d
            = Fault DivideByZero) as ->; [|done].
    unfold take_hash_function_statistics_thread.
    destruct (Z.leb_spec n_entries t) as [?|_]; [lia|].
    destruct (load_total keys t) as (key & -> & _); [lia|]. simpl.
    destruct constants as [|c constants']; [done|].
    assert (for_range 0 num_functions
              (locate hash_function_inner 0 (c :: constants') key)
              (replicate (Z.to_nat kMaxHashFunctions) 0, num_hashing_in d)
            = Fault DivideByZero) as ->; [|done].
    unfold for_range.
    replace (Z.to_nat (num_functions - 0))
      with (S (Z.to_nat (num_functions - 1))) by lia.
    reflexivity.
Qed.

(** X12. With both statistics compiled out the entry point prints the
    header and one line for each of the [kNumHashFunctions] constants and
    nothing else.  It launches the kernel all the same, although it reads
    nothing back: a fault of the launch is a fault of the entry point, as
    with an empty table, where the first thread that owns a key divides by
    zero. *)
Theorem report_without_statistics
    reads kMaxHashFunctions hash_function_inner sw static_kHistogramSize
    threads size num_keys d_keys table_size constants kNumHashFunctions :
  COUNT_HOW_MANY_HASH_INTO_EACH_SLOT sw = false →
  COUNT_HOW_MANY_HAVE_CYCLES sw = false →
  0 ≤ kNumHashFunctions ≤ Z.of_nat (length constants) →
  num_keys = Z.of_nat (length d_keys) →
  threads ≡ₚ grid size → num_keys ≤ size →
  (1 ≤ table_size → kNumHashFunctions ≤ kMaxHashFunctions →
   kNumHashFunctions < 2 ^ 32 →
   TakeHashFunctionStatistics reads kMaxHashFunctions hash_function_inner sw
     static_kHistogramSize threads num_keys d_keys table_size constants
     kNumHashFunctions
   = Ok {| printed :=
             PrintMessage (sprintf "Hash function constants: " []) None
             :: ((λ c, PrintMessage
                         (sprintf "\t%10u, %10u" [U (x c); U (y c)]) None)
                   <$> take (Z.to_nat kNumHashFunctions) constants);
           kHistogramSize := static_kHistogramSize |})
  ∧ (table_size = 0 → 1 ≤ kNumHashFunctions → 1 ≤ num_keys →
     TakeHashFunctionStatistics reads kMaxHashFunctions hash_function_inner sw
       static_kHistogramSize threads num_keys d_keys table_size constants
       kNumHashFunctions
     = Fault DivideByZero).
Proof.
  intros Hloads Hcycles Hconst Hn Hperm Hsize. split.
  - intros Hts Hnf Hnf32. unfold TakeHashFunctionStatistics.
    rewrite print_constants_loop by lia. simpl.
    rewrite (host_launch _ _ _ _ size) by (done || lia). simpl.
    by rewrite Hloads, Hcycles.
  - intros -> Hnf Hkeys. unfold TakeHashFunctionStatistics.
    rewrite print_constants_loop by lia. simpl.
    unfold TakeHashFunctionStatistics_launch.
    rewrite cudaMemcpy_prefix by lia. simpl.
    rewrite launch_divides_by_zero; [done|lia|lia| | |].
    + destruct constants; [simpl in Hconst; lia|].
      replace (Z.to_nat kNumHashFunctions)
        with (S (Z.to_nat (kNumHashFunctions - 1))) by lia.
      done.
    + by eapply grid_nonneg.
    + exists 0. split; [|lia]. rewrite Hperm. apply elem_of_seqZ. lia.
Qed.

Lemma report_without_statistics_witness :
  (1 ≤ 10 → 2 ≤ 5 → 2 < 2 ^ 32 →
   TakeHashFunctionStatistics appending 5 scenario_hash
     {| COUNT_HOW_MANY_HASH_INTO_EACH_SLOT := false;
        COUNT_HOW_MANY_HAVE_CYCLES := false |}
     None (grid 4) 3 scenario_keys 10 scenario_constants 2
   = Ok {| printed :=
             PrintMessage (sprintf "Hash function constants: " []) None
             :: ((λ c, PrintMessage
                         (sprintf "\t%10u, %10u" [U (x c); U (y c)]) None)
                   <$> take (Z.to_nat 2) scenario_constants);
           kHistogramSize := None |})
  ∧ (10 = 0 → 1 ≤ 2 → 1 ≤ 3 →
     TakeHashFunctionStatistics appending 5 scenario_hash
       {| COUNT_HOW_MANY_HASH_INTO_EACH_SLOT := false;
          COUNT_HOW_MANY_HAVE_CYCLES := false |}
       None (grid 4) 3 scenario_keys 10 scenario_constants 2
     = Fault DivideByZero).
Proof.
  apply (report_without_statistics appending 5 scenario_hash _ None (grid 4) 4
           3 scenario_keys 10 scenario_constants 2);
    try reflexivity; simpl; lia.
Defined.

(** The launch of an entry point that prints no statistics, on an empty
    table. *)
Example report_without_statistics_empty_table :
  TakeHashFunctionStatistics appending 5 scenario_hash
    {| COUNT_HOW_MANY_HASH_INTO_EACH_SLOT := false;
       COUNT_HOW_MANY_HAVE_CYCLES := false |}
    None (grid 4) 3 scenario_keys 0 scenario_constants 2
  = Fault DivideByZero.
Proof. reflexivity. Qed.

(** X13. With the per-slot statistics alone compiled in, the report of the
    entry point is the constants followed by the histogram of the slot
    loads that the launch counted: for each load that occurs, in ascending
    order, the number of slots with that load, where the load of a slot is
    the number of pairs of a key and a hash function that hash into it,
    modulo [2^32]. *)
Theorem report_slot_loads
    reads kMaxHashFunctions hash_function_inner sw static_kHistogramSize threads size
    num_keys d_keys table_size constants kNumHashFunctions :
  COUNT_HOW_MANY_HASH_INTO_EACH_SLOT sw = true →
  COUNT_HOW_MANY_HAVE_CYCLES sw = false →
  1 ≤ table_size < 2 ^ 31 →
  0 ≤ kNumHashFunctions ≤ kMaxHashFunctions →
  kNumHashFunctions < 2 ^ 32 →
  kNumHashFunctions ≤ Z.of_nat (length constants) →
  num_keys = Z.of_nat (length d_keys) →
  threads ≡ₚ grid size → num_keys ≤ size →
  ∃ runs,
    TakeHashFunctionStatistics reads kMaxHashFunctions hash_function_inner sw
      static_kHistogramSize threads num_keys d_keys table_size constants
      kNumHashFunctions
    = Ok {| printed :=
              (PrintMessage (sprintf "Hash function constants: " []) None
               :: ((λ c, PrintMessage
                           (sprintf "\t%10u, %10u" [U (x c); U (y c)]) None)
                     <$> take (Z.to_nat kNumHashFunctions) constants))
              ++ PrintMessage
                   (sprintf "Num items hashing into a slot:\t" []) None
                 :: ((λ r : Z * Z,
                        PrintMessage (sprintf "\t(%u, %u)" [U r.1; U r.2])
                          None) <$> runs);
            kHistogramSize := static_kHistogramSize |}
    ∧ is_histogram runs
        ((λ slot,
            u32 (occurrences slot
                   (d_keys ≫= slot_sequence hash_function_inner table_size
                                constants kNumHashFunctions)))
           <$> seqZ 0 table_size)
    ∧ sumZ runs.*2 = table_size.
Proof.
  intros Hloads Hcycles Hts Hnf Hnf32 Hconst Hn Hperm Hsize.
  unfold TakeHashFunctionStatistics.
  rewrite print_constants_loop by lia. simpl.
  rewrite (host_launch _ _ _ _ size) by (done || lia). simpl.
  rewrite Hloads, Hcycles.
  set (counters := (λ slot, u32 _) <$> seqZ 0 table_size).
  destruct (slot_load_report counters table_size
              (PrintMessage (sprintf "Hash function constants: " []) None
               :: ((λ c, PrintMessage
                           (sprintf "\t%10u, %10u" [U (x c); U (y c)]) None)
                     <$> take (Z.to_nat kNumHashFunctions) constants)))
    as (runs & -> & Hhist & Hsum); [|done|].
  { unfold counters. rewrite length_fmap, length_seqZ. lia. }
  by exists runs.
Qed.

Lemma report_slot_loads_witness :
  ∃ runs,
    TakeHashFunctionStatistics appending 5 scenario_hash
      {| COUNT_HOW_MANY_HASH_INTO_EACH_SLOT := true;
         COUNT_HOW_MANY_HAVE_CYCLES := false |}
      None (grid 4) 3 scenario_keys 10 scenario_constants 2
    = Ok {| printed :=
              (PrintMessage (sprintf "Hash function constants: " []) None
               :: ((λ c, PrintMessage
                           (sprintf "\t%10u, %10u" [U (x c); U (y c)]) None)
                     <$> take (Z.to_nat 2) scenario_constants))
              ++ PrintMessage
                   (sprintf "Num items hashing into a slot:\t" []) None
                 :: ((λ r : Z * Z,
                        PrintMessage (sprintf "\t(%u, %u)" [U r.1; U r.2])
                          None) <$> runs);
            kHistogramSize := None |}
    ∧ is_histogram runs
        ((λ slot,
            u32 (occurrences slot
                   (scenario_keys ≫= slot_sequence scenario_hash 10
                                       scenario_constants 2)))
           <$> seqZ 0 10)
    ∧ sumZ runs.*2 = 10.
Proof.
  apply (report_slot_loads appending 5 scenario_hash _ None (grid 4) 4 3
           scenario_keys 10 scenario_constants 2);
    try reflexivity; simpl; lia.
Defined.

(** ** The static histogram size *)

(** X14. The size of the per-key histogram is a function-local static:
    once a call has fixed it, a later call works with that earlier size,
    whatever its own [kNumHashFunctions] is.  When every count has a cell,
    on the C library whose [sprintf] appends, the later call prints the
    buckets of [[1, size - 1]] for that earlier size and keeps the size if
    the text fits the 16000 bytes of its array, and writes past the end of
    the array if it does not. *)
Theorem key_histogram_keeps_first_size
    kMaxHashFunctions hash_function_inner sw size0 threads size
    num_keys d_keys table_size constants kNumHashFunctions :
  COUNT_HOW_MANY_HAVE_CYCLES sw = true →
  (COUNT_HOW_MANY_HASH_INTO_EACH_SLOT sw = true → table_size < 2 ^ 31) →
  1 ≤ table_size →
  1 ≤ kNumHashFunctions ≤ kMaxHashFunctions →
  kNumHashFunctions < 2 ^ 32 →
  kNumHashFunctions ≤ Z.of_nat (length constants) →
  num_keys = Z.of_nat (length d_keys) → num_keys < 2 ^ 32 →
  threads ≡ₚ grid size → num_keys ≤ size →
  (∀ key, key ∈ d_keys →
          DistinctSlotCount hash_function_inner table_size constants
            kNumHashFunctions key < size0) →
  0 ≤ size0 →
  (text_size
     (key_histogram_text
        (DistinctSlotCount hash_function_inner table_size constants
           kNumHashFunctions <$> d_keys) (size0 - 1)) < 16000 →
   ∃ before,
     TakeHashFunctionStatistics appending kMaxHashFunctions
       hash_function_inner sw (Some size0) threads num_keys d_keys table_size
       constants kNumHashFunctions
     = Ok {| printed :=
               before
               ++ [PrintMessage
                     (Piece "Slots assigned to each key: " []
                      :: ((λ v, Piece "(%u, %u) "
                                  [U v;
                                   U (occurrences v
                                        (DistinctSlotCount hash_function_inner
                                           table_size constants
                                           kNumHashFunctions <$> d_keys))])
                            <$> seqZ 1 (size0 - 1))) None];
             kHistogramSize := Some size0 |})
  ∧ (16000
     ≤ text_size
         (key_histogram_text
            (DistinctSlotCount hash_function_inner table_size constants
               kNumHashFunctions <$> d_keys) (size0 - 1)) →
     TakeHashFunctionStatistics appending kMaxHashFunctions
       hash_function_inner sw (Some size0) threads num_keys d_keys table_size
       constants kNumHashFunctions
     = Fault OutOfBounds).
Proof.
  intros Hcycles Hloads Hts Hnf Hnf32 Hconst Hn Hn32 Hperm Hsize Hcells Hsize0.
  pose proof (DistinctSlotCount_bounds kMaxHashFunctions hash_function_inner
                table_size constants kNumHashFunctions ltac:(lia) Hconst)
    as Hbounds.
  assert (∃ out2,
            TakeHashFunctionStatistics appending kMaxHashFunctions
              hash_function_inner sw (Some size0) threads num_keys d_keys
              table_size constants kNumHashFunctions
            = slots_per_key_histogram appending
                (Some (DistinctSlotCount hash_function_inner table_size
                         constants kNumHashFunctions <$> d_keys))
                num_keys kNumHashFunctions (Some size0) out2) as [out2 ->].
  { unfold TakeHashFunctionStatistics.
    rewrite print_constants_loop by lia. simpl.
    rewrite (host_launch _ _ _ _ size) by (done || lia). simpl.
    rewrite Hcycles.
    assert ((λ key, Z.max 1 (DistinctSlotCount hash_function_inner table_size
                               constants kNumHashFunctions key)) <$> d_keys
            = DistinctSlotCount hash_function_inner table_size constants
                kNumHashFunctions <$> d_keys) as ->.
    { apply list_fmap_ext. intros _ key _.
      specialize (Hbounds key ltac:(lia)). lia. }
    match goal with
    | |- ∃ _, (?m ≫= _) = _ =>
        assert (∃ out2, m = Ok out2) as [out2 ->]
    end.
    { destruct (COUNT_HOW_MANY_HASH_INTO_EACH_SLOT sw); [|by eexists].
      apply slot_load_histogram_returns.
      - rewrite length_fmap, length_seqZ. lia.
      - split; [done|by apply Hloads]. }
    simpl. by exists out2. }
  rewrite (slots_per_key_appending _ _ _ _ _ size0);
    [|done|done|by rewrite length_fmap|done|].
  2:{ intros v (key & -> & Hkey)%list_elem_of_fmap.
      specialize (Hbounds key ltac:(lia)). specialize (Hcells key Hkey).
      lia. }
  split; intros Hfits.
  - exists out2.
    by destruct (Z.ltb_spec
                   (text_size
                      (key_histogram_text
                         (DistinctSlotCount hash_function_inner table_size
                            constants kNumHashFunctions <$> d_keys)
                         (size0 - 1))) 16000); [|lia].
  - by destruct (Z.ltb_spec
                   (text_size
                      (key_histogram_text
                         (DistinctSlotCount hash_function_inner table_size
                            constants kNumHashFunctions <$> d_keys)
                         (size0 - 1))) 16000); [lia|].
Qed.

Lemma key_histogram_keeps_first_size_witness :
  (text_size
     (key_histogram_text
        (DistinctSlotCount scenario_hash 10 scenario_constants 2
           <$> scenario_keys) (5 - 1)) < 16000 →
   ∃ before,
     TakeHashFunctionStatistics appending 5 scenario_hash
       {| COUNT_HOW_MANY_HASH_INTO_EACH_SLOT := false;
          COUNT_HOW_MANY_HAVE_CYCLES := true |}
       (Some 5) (grid 4) 3 scenario_keys 10 scenario_constants 2
     = Ok {| printed :=
               before
               ++ [PrintMessage
                     (Piece "Slots assigned to each key: " []
                      :: ((λ v, Piece "(%u, %u) "
                                  [U v;
                                   U (occurrences v
                                        (DistinctSlotCount scenario_hash 10
                                           scenario_constants 2
                                           <$> scenario_keys))])
                            <$> seqZ 1 (5 - 1))) None];
             kHistogramSize := Some 5 |})
  ∧ (16000
     ≤ text_size
         (key_histogram_text
            (DistinctSlotCount scenario_hash 10 scenario_constants 2
               <$> scenario_keys) (5 - 1)) →
     TakeHashFunctionStatistics appending 5 scenario_hash
       {| COUNT_HOW_MANY_HASH_INTO_EACH_SLOT := false;
          COUNT_HOW_MANY_HAVE_CYCLES := true |}
       (Some 5) (grid 4) 3 scenario_keys 10 scenario_constants 2
     = Fault OutOfBounds).
Proof.
  apply (key_histogram_keeps_first_size 5 scenario_hash _ 5 (grid 4) 4 3
           scenario_keys 10 scenario_constants 2);
    try reflexivity; simpl; try lia.
  intros key Hkey.
  repeat (apply elem_of_cons in Hkey as [->|Hkey]; [by vm_compute|]).
  by apply not_elem_of_nil in Hkey.
Defined.

(** X15. A call after one that fixed a smaller histogram overruns it: if
    some key has at least as many distinct slots as the retained size, its
    count indexes the histogram past the end. *)
Theorem key_histogram_overruns_first_size
    reads kMaxHashFunctions hash_function_inner sw size0 threads size
    num_keys d_keys table_size constants kNumHashFunctions :
  COUNT_HOW_MANY_HAVE_CYCLES sw = true →
  (COUNT_HOW_MANY_HASH_INTO_EACH_SLOT sw = true → table_size < 2 ^ 31) →
  1 ≤ table_size →
  1 ≤ kNumHashFunctions ≤ kMaxHashFunctions →
  kNumHashFunctions < 2 ^ 32 →
  kNumHashFunctions ≤ Z.of_nat (length constants) →
  num_keys = Z.of_nat (length d_keys) → num_keys < 2 ^ 32 →
  threads ≡ₚ grid size → num_keys ≤ size →
  (∃ key, key ∈ d_keys
          ∧ size0 ≤ DistinctSlotCount hash_function_inner table_size
                      constants kNumHashFunctions key) →
  0 ≤ size0 →
  TakeHashFunctionStatistics reads kMaxHashFunctions hash_function_inner sw
    (Some size0) threads num_keys d_keys table_size constants
    kNumHashFunctions
  = Fault OutOfBounds.
Proof.
  intros Hcycles Hloads Hts Hnf Hnf32 Hconst Hn Hn32 Hperm Hsize Hbig Hsize0.
  pose proof (DistinctSlotCount_bounds kMaxHashFunctions hash_function_inner
                table_size constants kNumHashFunctions ltac:(lia) Hconst)
    as Hbounds.
  unfold TakeHashFunctionStatistics.
  rewrite print_constants_loop by lia. simpl.
  rewrite (host_launch _ _ _ _ size) by (done || lia). simpl.
  rewrite Hcycles.
  match goal with
  | |- (?m ≫= _) = _ => assert (∃ out2, m = Ok out2) as [out2 ->]
  end.
  { destruct (COUNT_HOW_MANY_HASH_INTO_EACH_SLOT sw); [|by eexists].
    apply slot_load_histogram_returns.
    - rewrite length_fmap, length_seqZ. lia.
    - split; [done|by apply Hloads]. }
  simpl.
  apply (slots_per_key_overrun _ _ _ _ _ _ size0);
    [done|done|by rewrite length_fmap|done|].
  destruct Hbig as (key & Hkey & Hlarge).
  exists (Z.max 1 (DistinctSlotCount hash_function_inner table_size constants
                     kNumHashFunctions key)).
  split; [|lia]. apply list_elem_of_fmap. by exists key.
Qed.

Lemma key_histogram_overruns_first_size_witness :
  TakeHashFunctionStatistics appending 5 scenario_hash
    {| COUNT_HOW_MANY_HASH_INTO_EACH_SLOT := false;
       COUNT_HOW_MANY_HAVE_CYCLES := true |}
    (Some 2) (grid 4) 3 scenario_keys 10 scenario_constants 2
  = Fault OutOfBounds.
Proof.
  apply (key_histogram_overruns_first_size appending 5 scenario_hash _ 2 (grid 4) 4 3
           scenario_keys 10 scenario_constants 2);
    try reflexivity; simpl; try lia.
  exists 15. split; [right; left|by vm_compute].
Defined.

(** A first call with one hash function fixes two cells; a second call with
    two functions then overruns them. *)
Example second_call_overruns :
  TakeHashFunctionStatistics appending 5 scenario_hash
    {| COUNT_HOW_MANY_HASH_INTO_EACH_SLOT := false;
       COUNT_HOW_MANY_HAVE_CYCLES := true |}
    None (grid 3) 3 scenario_keys 10 scenario_constants 1
  = Ok {| printed :=
            [PrintMessage [Piece "Hash function constants: " []] None;
             PrintMessage [Piece "\t%10u, %10u" [U 20; U 0]] None;
             PrintMessage
               [Piece "Slots assigned to each key: " [];
                Piece "(%u, %u) " [U 1; U 3]] None];
          kHistogramSize := Some 2 |}
  ∧ TakeHashFunctionStatistics appending 5 scenario_hash
      {| COUNT_HOW_MANY_HASH_INTO_EACH_SLOT := false;
         COUNT_HOW_MANY_HAVE_CYCLES := true |}
      (Some 2) (grid 3) 3 scenario_keys 10 scenario_constants 2
    = Fault OutOfBounds.
Proof. split; reflexivity. Qed.

(** ** Faults of the entry point *)

Lemma load_Fault {A} (a : list A) i :
  Z.of_nat (length a) ≤ i → load a i = Fault OutOfBounds.
Proof.
  intros Hi. unfold load. destruct (Z.ltb_spec i 0); [done|].
  rewrite lookup_ge_None_2; [done|lia].
Qed.

Lemma idle_launch
    kMaxHashFunctions hash_function_inner keys n_entries table_size constants
    num_functions threads (d : device) :
  Forall (λ t, n_entries ≤ t) threads →
  take_hash_function_statistics kMaxHashFunctions hash_function_inner keys
    n_entries table_size constants num_functions threads d = Ok d.
Proof.
  induction 1 as [|t threads Ht _ IH]; [done|].
  simpl. by rewrite thread_idle.
Qed.

(** X16. An empty table is not reported as such: with the per-slot
    statistics compiled in, no keys and [table_size = 0], the entry point
    reads the element 0 of the empty array of counters. *)
Theorem empty_table_report_reads_past_end
    reads kMaxHashFunctions hash_function_inner sw static_kHistogramSize threads size
    d_keys constants kNumHashFunctions :
  COUNT_HOW_MANY_HASH_INTO_EACH_SLOT sw = true →
  0 ≤ kNumHashFunctions ≤ Z.of_nat (length constants) →
  threads ≡ₚ grid size →
  TakeHashFunctionStatistics reads kMaxHashFunctions hash_function_inner sw
    static_kHistogramSize threads 0 d_keys 0 constants kNumHashFunctions
  = Fault OutOfBounds.
Proof.
  intros Hloads Hnf Hperm. unfold TakeHashFunctionStatistics.
  rewrite print_constants_loop by lia. simpl.
  unfold TakeHashFunctionStatistics_launch.
  rewrite cudaMemcpy_prefix by lia. simpl.
  rewrite idle_launch by by eapply grid_nonneg.
  simpl. by rewrite Hloads.
Qed.

Lemma empty_table_report_reads_past_end_witness :
  TakeHashFunctionStatistics appending 5 scenario_hash
    {| COUNT_HOW_MANY_HASH_INTO_EACH_SLOT := true;
       COUNT_HOW_MANY_HAVE_CYCLES := true |}
    None (grid 1) 0 [] 0 scenario_constants 2
  = Fault OutOfBounds.
Proof.
  apply (empty_table_report_reads_past_end appending 5 scenario_hash _ None (grid 1) 1
           [] scenario_constants 2);
    try reflexivity; simpl; lia.
Defined.

(** X17. The entry point prints [kNumHashFunctions] constants before
    anything else: with fewer constants than that it reads past the end of
    the array of constants. *)
Theorem missing_constants_read_past_end
    reads kMaxHashFunctions hash_function_inner sw static_kHistogramSize threads
    num_keys d_keys table_size constants kNumHashFunctions :
  Z.of_nat (length constants) < kNumHashFunctions →
  TakeHashFunctionStatistics reads kMaxHashFunctions hash_function_inner sw
    static_kHistogramSize threads num_keys d_keys table_size constants
    kNumHashFunctions
  = Fault OutOfBounds.
Proof.
  intros Hshort. unfold TakeHashFunctionStatistics.
  assert (for_range 0 kNumHashFunctions (print_constant constants)
            [PrintMessage (sprintf "Hash function constants: " []) None]
          = Fault OutOfBounds) as ->; [|done].
  unfold for_range.
  replace (Z.to_nat (kNumHashFunctions - 0))
    with (length constants
          + S (Z.to_nat (kNumHashFunctions - Z.of_nat (length constants) - 1)))%nat
    by lia.
  rewrite for_loop_app.
  pose proof (print_constants_loop constants (Z.of_nat (length constants))
                [PrintMessage (sprintf "Hash function constants: " []) None])
    as Hloop.
  unfold for_range in Hloop. rewrite Z.sub_0_r, Nat2Z.id in Hloop.
  rewrite Hloop by lia. simpl.
  match goal with
  | |- (print_constant constants ?i ?o ≫= _) = _ =>
      assert (print_constant constants i o = Fault OutOfBounds) as ->;
        [|done]
  end.
  unfold print_constant. by rewrite load_Fault by lia.
Qed.

Lemma missing_constants_read_past_end_witness :
  TakeHashFunctionStatistics appending 5 scenario_hash
    {| COUNT_HOW_MANY_HASH_INTO_EACH_SLOT := true;
       COUNT_HOW_MANY_HAVE_CYCLES := true |}
    None (grid 4) 3 scenario_keys 10 scenario_constants 3
  = Fault OutOfBounds.
Proof.
  apply (missing_constants_read_past_end appending 5 scenario_hash _ None (grid 4) 3
           scenario_keys 10 scenario_constants 3).
  simpl. lia.
Defined.

(** ** Reports depend on the multiset of their input only *)

Lemma std_sort_Permutation_eq (l1 l2 : list Z) :
  l1 ≡ₚ l2 → std_sort l1 = std_sort l2.
Proof.
  intros Hperm. apply std_sort_unique.
  - apply (Sorted_merge_sort Z.le).
  - by rewrite std_sort_Permutation.
Qed.

(** X18. The build statistics do not depend on the order of the iteration
    counts: two arrangements of the same counts give the same result,
    report or fault. *)
Theorem build_statistics_order_independent reads n (d1 d2 : list Z) :
  d1 ≡ₚ d2 → n = Z.of_nat (length d1) →
  OutputBuildStatistics reads n d1 = OutputBuildStatistics reads n d2.
Proof.
  intros Hperm Hn. unfold OutputBuildStatistics.
  rewrite !cudaMemcpy_all by (done || by rewrite <- Hperm). simpl.
  by rewrite (std_sort_Permutation_eq d1 d2).
Qed.

Lemma build_statistics_order_independent_witness :
  OutputBuildStatistics appending 6 [4; 1; 4; 2; 1; 4]
  = OutputBuildStatistics appending 6 [1; 1; 2; 4; 4; 4].
Proof.
  apply (build_statistics_order_independent appending 6 [4; 1; 4; 2; 1; 4]
           [1; 1; 2; 4; 4; 4]); [|reflexivity].
  by apply (bool_decide_unpack _).
Defined.

(** X19. The retrieval statistics do not depend on the order of the probe
    counts either: two arrangements of the same counts give the same
    histogram, or both index it out of bounds. *)
Theorem retrieval_statistics_order_independent n_queries (d1 d2 : list Z)
    n_functions :
  d1 ≡ₚ d2 → n_queries = Z.of_nat (length d1) → n_queries < 2 ^ 32 →
  0 ≤ n_functions → n_functions + 2 < 2 ^ 32 →
  OutputRetrievalStatistics n_queries d1 n_functions
  = OutputRetrievalStatistics n_queries d2 n_functions.
Proof.
  intros Hperm Hn Hn32 Hnf Hnf32.
  assert (n_queries = Z.of_nat (length d2)) as Hn2 by by rewrite <- Hperm.
  destruct (decide (Forall (λ p, 0 ≤ p < n_functions + 2) d1)) as [Hin|Hout].
  - rewrite !retrieval_report; try done.
    + f_equal. f_equal. apply list_fmap_ext. intros _ v _.
      by rewrite (occurrences_Permutation v d1 d2).
    + intros p Hp. rewrite <- Hperm in Hp.
      rewrite Forall_forall in Hin. specialize (Hin p Hp). lia.
    + intros p Hp. rewrite Forall_forall in Hin. specialize (Hin p Hp). lia.
  - apply not_Forall_Exists in Hout; [|apply _].
    apply Exists_exists in Hout as (p & Hp & Hbad).
    unfold OutputRetrievalStatistics.
    rewrite !cudaMemcpy_all by done. simpl. rewrite u32_small by lia.
    destruct (first_offender (λ p, 0 ≤ p < n_functions + 2) d1)
      as (good1 & bad1 & rest1 & Hsplit1 & Hgood1 & Hbad1); [by exists p|].
    destruct (first_offender (λ p, 0 ≤ p < n_functions + 2) d2)
      as (good2 & bad2 & rest2 & Hsplit2 & Hgood2 & Hbad2).
    { exists p. split; [by rewrite <- Hperm|done]. }
    rewrite Hn at 1. rewrite Hn2.
    rewrite (tally_fault d1 good1 rest1 bad1) by (done || lia).
    by rewrite (tally_fault d2 good2 rest2 bad2) by (done || lia).
Qed.

Lemma retrieval_statistics_order_independent_witness :
  OutputRetrievalStatistics 4 [0; 1; 1; 2] 2
  = OutputRetrievalStatistics 4 [1; 2; 0; 1] 2.
Proof.
  apply (retrieval_statistics_order_independent 4 [0; 1; 1; 2] [1; 2; 0; 1] 2);
    try reflexivity; try lia.
  by apply (bool_decide_unpack _).
Defined.

(** The tally loop depends on the multiset of the values only. *)
Lemma tally_Permutation (values1 values2 : list Z) size n :
  values1 ≡ₚ values2 → 0 ≤ size →
  n = Z.of_nat (length values1) → n < 2 ^ 32 →
  for_range 0 n (tally values1) (replicate (Z.to_nat size) 0)
  = for_range 0 n (tally values2) (replicate (Z.to_nat size) 0).
Proof.
  intros Hperm Hsize -> Hn32.
  assert (length values2 = length values1) as Hlen by by rewrite Hperm.
  destruct (decide (Forall (λ v, 0 ≤ v < size) values1)) as [Hin|Hout].
  - rewrite Forall_forall in Hin.
    pose proof (tally_prefix values1 size (Z.of_nat (length values1)))
      as Htally1.
    pose proof (tally_prefix values2 size (Z.of_nat (length values1)))
      as Htally2.
    rewrite Nat2Z.id, firstn_all in Htally1.
    rewrite Nat2Z.id, <- Hlen, firstn_all in Htally2. rewrite Hlen in Htally2.
    rewrite Htally1, Htally2; [|done|lia|done|..].
    + f_equal. apply list_fmap_ext. intros _ v _.
      by apply occurrences_Permutation.
    + intros v Hv. apply Hin. by rewrite Hperm.
    + done.
    + lia.
    + done.
    + done.
  - apply not_Forall_Exists in Hout; [|apply _].
    apply Exists_exists in Hout as (v & Hv & Hbad).
    destruct (first_offender (λ v, 0 ≤ v < size) values1)
      as (good1 & bad1 & rest1 & Hsplit1 & Hgood1 & Hoff1); [by exists v|].
    destruct (first_offender (λ v, 0 ≤ v < size) values2)
      as (good2 & bad2 & rest2 & Hsplit2 & Hgood2 & Hoff2).
    { exists v. split; [by rewrite <- Hperm|done]. }
    rewrite (tally_fault values1 good1 rest1 bad1) by (done || lia).
    rewrite <- Hlen.
    by rewrite (tally_fault values2 good2 rest2 bad2) by (done || lia).
Qed.

Lemma slots_per_key_Permutation reads (values1 values2 : list Z) num_keys
    kNumHashFunctions static_kHistogramSize out :
  values1 ≡ₚ values2 →
  num_keys = Z.of_nat (length values1) → num_keys < 2 ^ 32 →
  (∀ size0, static_kHistogramSize = Some size0 → 0 ≤ size0) →
  slots_per_key_histogram reads (Some values1) num_keys kNumHashFunctions
    static_kHistogramSize out
  = slots_per_key_histogram reads (Some values2) num_keys kNumHashFunctions
      static_kHistogramSize out.
Proof.
  intros Hperm Hn Hn32 Hstatic.
  assert (num_keys = Z.of_nat (length values2)) as Hn2 by by rewrite <- Hperm.
  assert (0 ≤ match static_kHistogramSize with
              | Some size => size
              | None => u32 (kNumHashFunctions + 1)
              end) as Hsize.
  { destruct static_kHistogramSize as [size0|]; [by apply Hstatic|].
    apply u32_range. }
  unfold slots_per_key_histogram. simpl.
  rewrite !cudaMemcpy_all by done. simpl.
  by rewrite (tally_Permutation values1 values2) by done.
Qed.

(** X20. The report of the entry point does not depend on the order of the
    keys: two arrangements of the same keys give the same messages. *)
Theorem report_key_order_independent
    reads kMaxHashFunctions hash_function_inner sw static_kHistogramSize threads size
    num_keys d_keys1 d_keys2 table_size constants kNumHashFunctions :
  d_keys1 ≡ₚ d_keys2 →
  (∀ size0, static_kHistogramSize = Some size0 → 0 ≤ size0) →
  1 ≤ table_size →
  0 ≤ kNumHashFunctions ≤ kMaxHashFunctions →
  kNumHashFunctions < 2 ^ 32 →
  kNumHashFunctions ≤ Z.of_nat (length constants) →
  num_keys = Z.of_nat (length d_keys1) → num_keys < 2 ^ 32 →
  threads ≡ₚ grid size → num_keys ≤ size →
  TakeHashFunctionStatistics reads kMaxHashFunctions hash_function_inner sw
    static_kHistogramSize threads num_keys d_keys1 table_size constants
    kNumHashFunctions
  = TakeHashFunctionStatistics reads kMaxHashFunctions hash_function_inner sw
      static_kHistogramSize threads num_keys d_keys2 table_size constants
      kNumHashFunctions.
Proof.
  intros Hkeys Hstatic Hts Hnf Hnf32 Hconst Hn Hn32 Hperm Hsize.
  assert (num_keys = Z.of_nat (length d_keys2)) as Hn2 by by rewrite <- Hkeys.
  unfold TakeHashFunctionStatistics.
  rewrite print_constants_loop by lia. simpl.
  rewrite !(host_launch _ _ _ _ size) by done. simpl.
  assert ((λ slot,
             u32 (occurrences slot
                    (d_keys1 ≫= slot_sequence hash_function_inner table_size
                                  constants kNumHashFunctions)))
            <$> seqZ 0 table_size
          = (λ slot,
               u32 (occurrences slot
                      (d_keys2 ≫= slot_sequence hash_function_inner table_size
                                    constants kNumHashFunctions)))
              <$> seqZ 0 table_size) as Hcounters.
  { apply list_fmap_ext. intros _ slot _. f_equal.
    apply occurrences_Permutation. by rewrite Hkeys. }
  destruct (COUNT_HOW_MANY_HASH_INTO_EACH_SLOT sw),
    (COUNT_HOW_MANY_HAVE_CYCLES sw); simpl; rewrite ?Hcounters; try done.
  - destruct (slot_load_histogram _ _ _) as [out2|]; simpl; [|done].
    apply slots_per_key_Permutation; [by rewrite Hkeys| |done..].
    by rewrite length_fmap.
  - apply slots_per_key_Permutation; [by rewrite Hkeys| |done..].
    by rewrite length_fmap.
Qed.

Lemma report_key_order_independent_witness :
  TakeHashFunctionStatistics appending 5 scenario_hash
    {| COUNT_HOW_MANY_HASH_INTO_EACH_SLOT := true;
       COUNT_HOW_MANY_HAVE_CYCLES := true |}
    None (grid 4) 3 [5; 15; 25] 10 scenario_constants 2
  = TakeHashFunctionStatistics appending 5 scenario_hash
      {| COUNT_HOW_MANY_HASH_INTO_EACH_SLOT := true;
         COUNT_HOW_MANY_HAVE_CYCLES := true |}
      None (grid 4) 3 [25; 5; 15] 10 scenario_constants 2.
Proof.
  apply (report_key_order_independent appending 5 scenario_hash _ None (grid 4) 4 3
           [5; 15; 25] [25; 5; 15] 10 scenario_constants 2);
    try reflexivity; simpl; try lia.
  - by apply (bool_decide_unpack _).
  - intros size0 [=].
Defined.

(** ** What a launch leaves alone *)

(** X21. A launch writes only the cells of [num_slots_available] that
    belong to keys: given a larger buffer, it leaves every cell from
    [n_entries] on as it was, and it never changes the length of the
    buffer.  This holds for any list of threads. *)
Theorem launch_leaves_tail
    kMaxHashFunctions hash_function_inner keys n_entries table_size constants
    num_functions threads (d : device) a :
  1 ≤ table_size →
  0 ≤ num_functions ≤ kMaxHashFunctions →
  num_functions < 2 ^ 32 →
  num_functions ≤ Z.of_nat (length constants) →
  n_entries ≤ Z.of_nat (length keys) →
  Forall (λ t, 0 ≤ t) threads →
  num_slots_available d = Some a → n_entries ≤ Z.of_nat (length a) →
  (∀ c, num_hashing_in d = Some c → table_size ≤ Z.of_nat (length c)) →
  ∃ d' a',
    take_hash_function_statistics kMaxHashFunctions hash_function_inner keys
      n_entries table_size constants num_functions threads d = Ok d'
    ∧ num_slots_available d' = Some a'
    ∧ length a' = length a
    ∧ ∀ i : nat, n_entries ≤ Z.of_nat i → a' !! i = a !! i.
Proof.
  intros Hts Hnf Hnf32 Hconst Hkeys Hpos Ha Hlen Hcounters.
  rewrite (kernel_spec kMaxHashFunctions hash_function_inner keys n_entries
             table_size constants num_functions Hts Hnf Hnf32 Hconst Hkeys
             threads d Hpos).
  2:{ split; [|done]. intros a0 Ha0. congruence. }
  eexists _, _. split; [reflexivity|]. simpl. rewrite Ha. simpl.
  split; [reflexivity|]. split.
  - apply length_foldl_insert.
  - intros i Hi.
    apply (foldl_insert_other
             (λ k, Z.max 1 (DistinctSlotCount hash_function_inner table_size
                              constants num_functions k))).
    intros t k (_ & Ht & _)%elem_of_active. lia.
Qed.

Lemma launch_leaves_tail_witness :
  ∃ d' a',
    take_hash_function_statistics 5 scenario_hash scenario_keys 3 10
      scenario_constants 2 [1; 0; 7; 2; 1]
      {| num_slots_available := Some [9; 9; 9; 9; 9]; num_hashing_in := None;
         failed := None |} = Ok d'
    ∧ num_slots_available d' = Some a'
    ∧ length a' = length [9; 9; 9; 9; 9]
    ∧ ∀ i : nat, 3 ≤ Z.of_nat i → a' !! i = [9; 9; 9; 9; 9] !! i.
Proof.
  apply (launch_leaves_tail 5 scenario_hash scenario_keys 3 10
           scenario_constants 2 [1; 0; 7; 2; 1] _ [9; 9; 9; 9; 9]);
    try reflexivity; simpl; try lia.
  - repeat constructor; lia.
  - intros c [=].
Defined.

(** ** The stash dump on a longer array *)

(** The loop of [PrintStashContents] over the first [count] entries. *)
Lemma stash_lines (Entry : Type) (get_key get_value : Entry → Z)
    (kKeyEmpty : Z) (stash : list Entry) count :
  0 ≤ count ≤ Z.of_nat (length stash) →
  for_range 0 count (print_entry Entry get_key get_value kKeyEmpty stash) []
  = Ok ((λ ie : Z * Entry,
           PrintMessage
             (sprintf "Stash[%u]: %u = %u"
                [U ie.1; U (get_key ie.2); U (get_value ie.2)]) (Some true))
          <$> filter (λ ie : Z * Entry, get_key ie.2 ≠ kKeyEmpty)
                (zip (seqZ 0 count) (take (Z.to_nat count) stash))).
Proof.
  intros Hcount.
  set (line := λ ie : Z * Entry,
         PrintMessage
           (sprintf "Stash[%u]: %u = %u"
              [U ie.1; U (get_key ie.2); U (get_value ie.2)]) (Some true)).
  set (occupied := λ ie : Z * Entry, get_key ie.2 ≠ kKeyEmpty).
  destruct (for_range_inv
              (λ i out, out = line <$> filter occupied
                                (zip (seqZ 0 i) (take (Z.to_nat i) stash)))
              (print_entry Entry get_key get_value kKeyEmpty stash)
              0 count []) as (out & -> & ->); [lia|done| |done].
  intros i out Hi ->.
  destruct (lookup_lt_is_Some_2 stash (Z.to_nat i)) as [e He]; [lia|].
  unfold print_entry. rewrite (load_Ok stash i e) by (done || lia). simpl.
  assert (zip (seqZ 0 (i + 1)) (take (Z.to_nat (i + 1)) stash)
          = zip (seqZ 0 i) (take (Z.to_nat i) stash) ++ [(i, e)]) as ->.
  { replace (Z.to_nat (i + 1)) with (S (Z.to_nat i)) by lia.
    rewrite (take_S_r _ _ e) by done.
    rewrite seqZ_app by lia. rewrite Z.add_0_l.
    change (seqZ i 1) with [0 + i]. rewrite Z.add_0_l.
    rewrite zip_with_app; [done|].
    rewrite length_seqZ, length_take. lia. }
  rewrite filter_app, fmap_app.
  destruct (Z.eqb_spec (get_key e) kKeyEmpty) as [Hempty|Hfull]; simpl.
  - eexists. split; [reflexivity|].
    rewrite filter_cons_False by (unfold occupied; simpl; tauto).
    by rewrite filter_nil, app_nil_r.
  - eexists. split; [reflexivity|].
    by rewrite filter_cons_True by done.
Qed.

(** X22. The dump reads exactly [kStashSize] entries: what follows them in
    the array is neither printed nor changed, and an array with fewer
    entries is read past its end. *)
Theorem stash_dump_reads_capacity
    (Entry : Type) (get_key get_value : Entry → Z) (kKeyEmpty kStashSize : Z)
    (stash beyond : list Entry) :
  kStashSize = Z.of_nat (length stash) →
  PrintStashContents Entry get_key get_value kKeyEmpty kStashSize
    (stash ++ beyond)
  = Ok (stash ++ beyond,
        (λ ie : Z * Entry,
           PrintMessage
             (sprintf "Stash[%u]: %u = %u"
                [U ie.1; U (get_key ie.2); U (get_value ie.2)]) (Some true))
          <$> filter (λ ie : Z * Entry, get_key ie.2 ≠ kKeyEmpty)
                (zip (seqZ 0 kStashSize) stash))
  ∧ (beyond ≠ [] →
     PrintStashContents Entry get_key get_value kKeyEmpty
       (kStashSize + Z.of_nat (length beyond)) stash
     = Fault OutOfBounds).
Proof.
  intros Hsize. split.
  - unfold PrintStashContents.
    rewrite cudaMemcpy_prefix by (rewrite length_app; lia). simpl.
    rewrite Hsize, Nat2Z.id, take_app_length.
    rewrite stash_lines by lia. simpl.
    by rewrite Nat2Z.id, firstn_all.
  - intros Hbeyond. unfold PrintStashContents, cudaMemcpy.
    destruct beyond; [done|]. simpl length.
    destruct (Z.leb_spec (kStashSize + Z.of_nat (S (length beyond)))
                (Z.of_nat (length stash))); [lia|].
    by rewrite andb_false_r.
Qed.

Lemma stash_dump_reads_capacity_witness :
  PrintStashContents (Z * Z) fst snd 4294967295 2
    ([(4294967295, 0); (7, 70)] ++ [(9, 90)])
  = Ok ([(4294967295, 0); (7, 70)] ++ [(9, 90)],
        (λ ie : Z * (Z * Z),
           PrintMessage
             (sprintf "Stash[%u]: %u = %u"
                [U ie.1; U (fst ie.2); U (snd ie.2)]) (Some true))
          <$> filter (λ ie : Z * (Z * Z), fst ie.2 ≠ 4294967295)
                (zip (seqZ 0 2) [(4294967295, 0); (7, 70)]))
  ∧ ([(9, 90)] ≠ [] →
     PrintStashContents (Z * Z) fst snd 4294967295
       (2 + Z.of_nat (length [(9, 90)])) [(4294967295, 0); (7, 70)]
     = Fault OutOfBounds).
Proof.
  apply (stash_dump_reads_capacity (Z * Z) fst snd 4294967295 2
           [(4294967295, 0); (7, 70)] [(9, 90)]).
  reflexivity.
Defined.
